(** * sqlair: a typed SQL preprocessor and row binder

    A shallow embedding of the Go packages [parser], [reflect] and [sqlair]
    of SimonRichardson/sqlair, and the properties of the specification
    checked against it.

    Conventions of the embedding.
    - A Go [string] is a [string] of bytes; [len] and indexing are in bytes.
    - A Go [int] and a [rune] are [Z].  Every [int] of the program is an
      index into a statement or a length, so no arithmetic wraps around.
    - A Go function returning [(T, error)] returns a pair whose second
      component is [None] for a [nil] error.
    - A run-time panic (an index out of range, a failed type assertion, an
      explicit [panic]) is the outcome [Panic]; [OutOfFuel] is the outcome
      of a loop of the model, never of the program, that was given too few
      iterations. *)

From Stdlib Require Import ZArith Lia Ascii String.
From stdpp Require Import prelude strings gmap sorting.

Local Open Scope string_scope.
Local Open Scope list_scope.
Local Open Scope Z_scope.

(** ** Outcomes of a Go call *)

Inductive outcome (A : Type) : Type :=
| Return (a : A)
| Panic (msg : string)
| OutOfFuel.
Arguments Return {A} a.
Arguments Panic {A} msg.
Arguments OutOfFuel {A}.

#[global] Instance outcome_ret : MRet outcome := @Return.
#[global] Instance outcome_bind : MBind outcome := fun A B f m =>
  match m with
  | Return a => f a
  | Panic msg => Panic msg
  | OutOfFuel => OutOfFuel
  end.

#[global] Instance outcome_fmap : FMap outcome := fun A B f m =>
  match m with
  | Return a => Return (f a)
  | Panic msg => Panic msg
  | OutOfFuel => OutOfFuel
  end.

Definition returns {A} (o : outcome A) : Prop := exists a, o = Return a.
Definition panics {A} (o : outcome A) : Prop := exists msg, o = Panic msg.

(** ** Runes, bytes and the [unicode], [utf8] and [strings] packages *)

Definition rune := Z.

Definition rune_of_byte (a : ascii) : rune := Z.of_N (N_of_ascii a).
Definition byte_of_Z (z : Z) : ascii := ascii_of_N (Z.to_N (z mod 256)).

Definition len (s : string) : Z := Z.of_nat (String.length s).

(** [s[i]]: the byte at index [i], a panic out of range. *)
Definition byte_at (s : string) (i : Z) : outcome rune :=
  if (0 <=? i) && (i <? len s) then
    match String.get (Z.to_nat i) s with
    | Some a => Return (rune_of_byte a)
    | None => Panic "index out of range"
    end
  else Panic "index out of range".

(** [s[i:]]: a panic unless [0 <= i <= len(s)]. *)
Definition slice_from (s : string) (i : Z) : outcome string :=
  if (0 <=? i) && (i <=? len s) then
    Return (String.substring (Z.to_nat i) (String.length s - Z.to_nat i) s)
  else Panic "slice bounds out of range".

(** [s[:i]]: a panic unless [0 <= i <= len(s)]. *)
Definition slice_to (s : string) (i : Z) : outcome string :=
  if (0 <=? i) && (i <=? len s) then Return (String.substring 0 (Z.to_nat i) s)
  else Panic "slice bounds out of range".

Definition bytes_of (s : string) : list Z :=
  map rune_of_byte (list_ascii_of_string s).
Definition string_of_bytes (l : list Z) : string :=
  string_of_list_ascii (map byte_of_Z l).

Definition RuneSelf : Z := 128.
Definition RuneError : Z := 65533.
Definition MaxRune : Z := 1114111.
Definition MaxASCII : Z := 127.
Definition MaxLatin1 : Z := 255.

Definition between (lo x hi : Z) : bool := (lo <=? x) && (x <=? hi).
Definition cont (b : Z) : bool := between 128 b 191.

(** [utf8.DecodeRuneInString]: the rune at the head of a byte sequence and
    its width; an ill-formed or truncated sequence is [RuneError] of width
    1. *)
Definition decodeRune (bs : list Z) : rune * nat :=
  match bs with
  | [] => (RuneError, 0%nat)
  | b0 :: rest =>
    if b0 <? RuneSelf then (b0, 1%nat)
    else if between 194 b0 223 then
      match rest with
      | b1 :: _ =>
        if cont b1 then (Z.lor (Z.shiftl (Z.land b0 31) 6) (Z.land b1 63), 2%nat)
        else (RuneError, 1%nat)
      | _ => (RuneError, 1%nat)
      end
    else if between 224 b0 239 then
      match rest with
      | b1 :: b2 :: _ =>
        let lo := if b0 =? 224 then 160 else 128 in
        let hi := if b0 =? 237 then 159 else 191 in
        if between lo b1 hi && cont b2 then
          (Z.lor (Z.shiftl (Z.land b0 15) 12)
             (Z.lor (Z.shiftl (Z.land b1 63) 6) (Z.land b2 63)), 3%nat)
        else (RuneError, 1%nat)
      | _ => (RuneError, 1%nat)
      end
    else if between 240 b0 244 then
      match rest with
      | b1 :: b2 :: b3 :: _ =>
        let lo := if b0 =? 240 then 144 else 128 in
        let hi := if b0 =? 244 then 143 else 191 in
        if between lo b1 hi && cont b2 && cont b3 then
          (Z.lor (Z.shiftl (Z.land b0 7) 18)
             (Z.lor (Z.shiftl (Z.land b1 63) 12)
                (Z.lor (Z.shiftl (Z.land b2 63) 6) (Z.land b3 63))), 4%nat)
        else (RuneError, 1%nat)
      | _ => (RuneError, 1%nat)
      end
    else (RuneError, 1%nat)
  end.

(** The runes of a byte sequence with their widths, as [for _, c := range s]
    and [[]rune(s)] see them.  The fuel is the number of bytes: every rune
    is at least one byte wide. *)
Fixpoint decodeRunes (fuel : nat) (bs : list Z) : list (rune * nat) :=
  match fuel, bs with
  | S fuel', _ :: _ =>
    let '(r, w) := decodeRune bs in
    (r, w) :: decodeRunes fuel' (drop w bs)
  | _, _ => []
  end.

Definition runes_widths (s : string) : list (rune * nat) :=
  decodeRunes (String.length s) (bytes_of s).

(** [[]rune(s)] *)
Definition runes_of (s : string) : list rune := map fst (runes_widths s).

(** [utf8.AppendRune]: a rune out of range or a surrogate is encoded as
    [RuneError]. *)
Definition encodeRune (r : rune) : list Z :=
  if between 0 r 127 then [r]
  else if between 128 r 2047 then
    [Z.lor 192 (Z.shiftr r 6); Z.lor 128 (Z.land r 63)]
  else if (r <? 0) || (MaxRune <? r) || between 55296 r 57343 then
    [239; 191; 189]
  else if r <=? 65535 then
    [Z.lor 224 (Z.shiftr r 12); Z.lor 128 (Z.land (Z.shiftr r 6) 63);
     Z.lor 128 (Z.land r 63)]
  else
    [Z.lor 240 (Z.shiftr r 18); Z.lor 128 (Z.land (Z.shiftr r 12) 63);
     Z.lor 128 (Z.land (Z.shiftr r 6) 63); Z.lor 128 (Z.land r 63)].

(** [string(r)] for a rune [r]. *)
Definition string_of_rune (r : rune) : string := string_of_bytes (encodeRune r).

(** [string(rs)] for a slice of runes [rs]. *)
Definition string_of_runes (rs : list rune) : string :=
  string_of_bytes (List.concat (map encodeRune rs)).

(** The range tables of Go's [unicode] package above U+00FF (letters,
    decimal digits, numbers) and its case mappings above U+007F.  They
    belong to the Go release the program is built with, not to this
    repository, so the development is parametric in them; below these
    bounds the package decides by fixed properties, which are written
    out. *)
Class UnicodeTables : Type := {
  Letter_above_latin1 : rune -> bool;
  Digit_above_latin1 : rune -> bool;
  Number_above_latin1 : rune -> bool;
  LowerCase_above_ascii : rune -> rune;
  UpperCase_above_ascii : rune -> rune
}.

(** A release whose tables are empty above the fixed part; it closes the
    examples below, whose inputs are ASCII. *)
Definition fixed_part_only : UnicodeTables := {|
  Letter_above_latin1 := fun _ => false;
  Digit_above_latin1 := fun _ => false;
  Number_above_latin1 := fun _ => false;
  LowerCase_above_ascii := fun r => r;
  UpperCase_above_ascii := fun r => r
|}.

Definition is_latin1 (r : rune) : bool := between 0 r MaxLatin1.

(** [unicode.IsSpace]: the White_Space property, the same in every Unicode
    version Go has shipped since 1.0 apart from U+180E. *)
Definition unicode_IsSpace (r : rune) : bool :=
  if is_latin1 r then
    between 9 r 13 || (r =? 32) || (r =? 133) || (r =? 160)
  else
    (r =? 5760) || between 8192 r 8202 || between 8232 r 8233 ||
    (r =? 8239) || (r =? 8287) || (r =? 12288).

Definition latin1_letter (r : rune) : bool :=
  between 65 r 90 || between 97 r 122 || (r =? 170) || (r =? 181) ||
  (r =? 186) || between 192 r 214 || between 216 r 246 || between 248 r 255.

Definition latin1_number (r : rune) : bool :=
  between 48 r 57 || between 178 r 179 || (r =? 185) || between 188 r 190.

Section Unicode.
Context `{U : UnicodeTables}.

Definition unicode_IsLetter (r : rune) : bool :=
  if is_latin1 r then latin1_letter r else Letter_above_latin1 r.

Definition unicode_IsDigit (r : rune) : bool :=
  if r <=? MaxLatin1 then between 48 r 57 else Digit_above_latin1 r.

Definition unicode_IsNumber (r : rune) : bool :=
  if is_latin1 r then latin1_number r else Number_above_latin1 r.

Definition unicode_ToLower (r : rune) : rune :=
  if r <=? MaxASCII then (if between 65 r 90 then r + 32 else r)
  else LowerCase_above_ascii r.

Definition unicode_ToUpper (r : rune) : rune :=
  if r <=? MaxASCII then (if between 97 r 122 then r - 32 else r)
  else UpperCase_above_ascii r.

(** [strings.Map]: every rune of [s] mapped and encoded again, a negative
    result dropped. *)
Definition strings_Map (mapping : rune -> rune) (s : string) : string :=
  string_of_runes (filter (fun r => 0 <= r) (map mapping (runes_of s))).

Definition strings_ToLower (s : string) : string := strings_Map unicode_ToLower s.
Definition strings_ToUpper (s : string) : string := strings_Map unicode_ToUpper s.
End Unicode.

(** The bytes of the leading run of white space of a decoded string. *)
Fixpoint space_width (cs : list (rune * nat)) : nat :=
  match cs with
  | c :: cs' => if unicode_IsSpace c.1 then (c.2 + space_width cs')%nat else 0%nat
  | [] => 0%nat
  end.

(** [strings.TrimSpace]: [s] without its leading and trailing runs of
    white space. *)
Definition strings_TrimSpace (s : string) : string :=
  let cs := runes_widths s in
  let lead := space_width cs in
  let trail := space_width (reverse cs) in
  String.substring lead (String.length s - lead - trail) s.

(** [strings.IndexByte]: the index of the first byte [c] of [s], or -1. *)
Fixpoint IndexByte_from (bs : list Z) (c : Z) (i : Z) : Z :=
  match bs with
  | [] => -1
  | b :: bs' => if b =? c then i else IndexByte_from bs' c (i + 1)
  end.

(** [strings.IndexRune] for an ASCII rune, which is [strings.IndexByte]. *)
Definition strings_IndexRune (s : string) (c : rune) : Z :=
  IndexByte_from (bytes_of s) c 0.

(** The one-byte string of a double quote. *)
Definition dquote : string := String (ascii_of_nat 34) EmptyString.

(** Arguments of a formatted message: [%q], [%s] and [%T] take a string,
    [%d] and the two numbers of a position an integer. *)
Inductive fmtarg : Type :=
| AStr (s : string)
| AInt (z : Z).

(** Go's [error] values: the ones the program builds with [errors.Errorf]
    and [fmt.Errorf] (format and arguments), [errors.Wrap], the parser's
    messages joined by [strings.Join], and the sentinel [ErrTooMany] of
    recordpath.go that callers compare by identity. *)
Inductive goerror : Type :=
| Errorf (format : string) (args : list fmtarg)
| Joined (msgs : list (string * list fmtarg))
| Wrap (cause : goerror) (msg : string)
| ErrTooMany.

Definition error := option goerror.

Definition is_ErrTooMany (e : error) : bool :=
  match e with Some ErrTooMany => true | _ => false end.

(** ** Package parser *)

Module parser.

(** *** token.go *)

Inductive TokenType : Type :=
| UNKNOWN | EOF | SEPARATOR | IDENT | INT | STRING | COMMA
| LPAREN | RPAREN | LBRACKET | RBRACKET | BITAND | PERIOD.

#[global] Instance TokenType_eq_dec : EqDecision TokenType.
Proof. solve_decision. Defined.

Definition TokenType_String (t : TokenType) : string :=
  match t with
  | EOF => "EOF" | IDENT => "IDENT" | INT => "INT" | PERIOD => "."
  | COMMA => "," | LPAREN => "(" | RPAREN => ")" | LBRACKET => "["
  | RBRACKET => "]" | BITAND => "&" | STRING => dquote +:+ dquote
  | SEPARATOR => " " | UNKNOWN => "<UNKNOWN>"
  end.

Record Position := { Offset : Z; Line : Z; Column : Z }.

Record Token := { Pos : Position; Type_ : TokenType; Literal : string }.

Definition zero_Position : Position := {| Offset := 0; Line := 0; Column := 0 |}.

Definition MakeToken (tokenType : TokenType) (char : rune) : Token :=
  {| Pos := zero_Position; Type_ := tokenType; Literal := string_of_rune char |}.

Definition with_Pos (tok : Token) (pos : Position) : Token :=
  {| Pos := pos; Type_ := Type_ tok; Literal := Literal tok |}.

Definition tokenMap (r : rune) : option TokenType :=
  if r =? 40 then Some LPAREN else if r =? 41 then Some RPAREN
  else if r =? 91 then Some LBRACKET else if r =? 93 then Some RBRACKET
  else if r =? 44 then Some COMMA else if r =? 38 then Some BITAND
  else if r =? 46 then Some PERIOD else None.

(** *** lexer.go *)

Record Lexer := {
  input : list rune;
  char : rune;
  position : Z;
  readPosition : Z;
  line : Z;
  column : Z
}.

Definition NewLexer (input : string) : Lexer :=
  {| input := runes_of input; char := 0; position := 0; readPosition := 0;
     line := 1; column := 1 |}.

Definition rune_at (input : list rune) (i : Z) : rune :=
  nth (Z.to_nat i) input 0.

Definition ReadNext (l : Lexer) : Lexer :=
  let n := Z.of_nat (length (input l)) in
  let '(char', line', column') :=
    if readPosition l >=? n then (0, line l, column l)
    else
      let c := rune_at (input l) (readPosition l) in
      if c =? 10 then (c, line l + 1, 1) else (c, line l, column l + 1) in
  {| input := input l; char := char'; position := readPosition l;
     readPosition := readPosition l + 1; line := line'; column := column' |}.

Definition PeekN (l : Lexer) (n : Z) : rune :=
  if readPosition l + n >=? Z.of_nat (length (input l)) then 0
  else rune_at (input l) (readPosition l + n).

Definition Peek (l : Lexer) : rune := PeekN l 0.

Definition getPosition (l : Lexer) : Position :=
  {| Offset := position l; Line := line l; Column := column l |}.

Definition isQuote (char : rune) : bool := char =? 34.

(** The loops of the lexer advance by [ReadNext] and stop at the end of
    the input, where [char] is 0; their fuel is the length of the input
    and one more. *)
Definition lexer_fuel (l : Lexer) : nat := S (length (input l)).

(** [skipWhitespace] *)
Fixpoint skipWhitespace_loop (fuel : nat) (l : Lexer) (skipped : bool)
    : outcome (Lexer * bool) :=
  match fuel with
  | O => OutOfFuel
  | S fuel' =>
    if unicode_IsSpace (char l) then skipWhitespace_loop fuel' (ReadNext l) true
    else Return (l, skipped)
  end.

Definition skipWhitespace (l : Lexer) : outcome (Lexer * bool) :=
  skipWhitespace_loop (lexer_fuel l) l false.

(** [input[from:to]] as a string. *)
Definition input_slice (l : Lexer) (from to : Z) : string :=
  string_of_runes (take (Z.to_nat (to - from)) (drop (Z.to_nat from) (input l))).

(** [readString]: [inl] the string read, [inr] the error. *)
Fixpoint readString_loop (fuel : nat) (l : Lexer) (r : rune) (ret : list rune)
    : outcome (Lexer * (string + string)) :=
  match fuel with
  | O => OutOfFuel
  | S fuel' =>
    let l := ReadNext l in
    if char l =? 10 then Return (l, inr "unexpected EOL")
    else if char l =? 0 then Return (l, inr "unexpected EOF")
    else if char l =? r then Return (ReadNext l, inl (string_of_runes ret))
    else readString_loop fuel' l r (ret ++ [char l])
  end.

Definition readString (l : Lexer) (r : rune) : outcome (Lexer * (string + string)) :=
  readString_loop (lexer_fuel l) l r [].

Section Lexing.
Context `{U : UnicodeTables}.

Definition isLetter (char : rune) : bool :=
  between 97 char 122 || between 65 char 90 || (char =? 95) || (char =? 42) ||
  ((char >=? RuneSelf) && unicode_IsLetter char).

Definition isDigit (char : rune) : bool :=
  between 48 char 57 || ((char >=? RuneSelf) && unicode_IsDigit char).

(** [readIdentifier] *)
Fixpoint readIdentifier_loop (fuel : nat) (l : Lexer) : outcome Lexer :=
  match fuel with
  | O => OutOfFuel
  | S fuel' =>
    if isLetter (char l) || isDigit (char l) || (char l =? 45)
    then readIdentifier_loop fuel' (ReadNext l)
    else Return l
  end.

Definition readIdentifier (l : Lexer) : outcome (Lexer * string) :=
  let position0 := position l in
  l ← readIdentifier_loop (lexer_fuel l) l;
  Return (l, input_slice l position0 (position l)).

(** [readNumber]: digits and periods, up to a period that another
    period follows. *)
Fixpoint readNumber_loop (fuel : nat) (l : Lexer) (ret : list rune)
    : outcome (Lexer * string) :=
  match fuel with
  | O => OutOfFuel
  | S fuel' =>
    if isDigit (char l) || (char l =? 46) then
      if (char l =? 46) && (Peek l =? 46) then Return (l, string_of_runes ret)
      else readNumber_loop fuel' (ReadNext l) (ret ++ [char l])
    else Return (l, string_of_runes ret)
  end.

Definition readNumber (l : Lexer) : outcome (Lexer * string) :=
  readNumber_loop (lexer_fuel l) (ReadNext l) [char l].

Definition readRunesToken (l : Lexer) : outcome (Lexer * Token) :=
  let unknown (l : Lexer) :=
    let l := ReadNext l in Return (l, MakeToken UNKNOWN (char l)) in
  if char l =? 0 then
    Return (l, {| Pos := zero_Position; Type_ := EOF; Literal := "" |})
  else if isDigit (char l) then
    '(l, literal) ← readNumber l;
    Return (l, {| Pos := zero_Position; Type_ := INT; Literal := literal |})
  else if isLetter (char l) then
    '(l, literal) ← readIdentifier l;
    Return (l, {| Pos := zero_Position; Type_ := IDENT; Literal := literal |})
  else if isQuote (char l) then
    '(l, res) ← readString l (char l);
    match res with
    | inl s => Return (l, {| Pos := zero_Position; Type_ := STRING; Literal := s |})
    | inr _ => unknown l
    end
  else unknown l.

Definition NextToken (l : Lexer) : outcome (Lexer * Token) :=
  let pos := getPosition l in
  let pos := {| Offset := Offset pos; Line := Line pos; Column := Column pos - 1 |} in
  '(l, skipped) ← skipWhitespace l;
  if (skipped : bool) then
    Return (ReadNext l, with_Pos (MakeToken SEPARATOR 32) pos)
  else
    match tokenMap (char l) with
    | Some t => Return (ReadNext l, with_Pos (MakeToken t (char l)) pos)
    | None =>
      '(l, newToken) ← readRunesToken l;
      Return (l, with_Pos newToken pos)
    end.
End Lexing.

(** *** ast.go *)

(** The nodes of the path AST; [Nil] is the [nil] [Expression] that the
    parser returns where it finds no expression. *)
#[warnings="-register-all"]
Inductive Expression : Type :=
| QueryExpression (Expressions : list Expression)
| ExpressionStatement (tok : Token) (expression : Expression)
| AccessorExpression (tok : Token) (Right Left : Expression)
| IndexExpression (tok : Token) (Operator : string) (Left Index : Expression)
| Identifier (tok : Token)
| String_ (tok : Token)
| Separator (tok : Token)
| Empty (tok : Token)
| Integer (tok : Token) (Value : Z)
| Nil.

(** *** parser.go *)

Definition LOWEST : Z := 0.
Definition INDEX : Z := 1.

Definition precedence (t : TokenType) : option Z :=
  match t with
  | LBRACKET | PERIOD => Some INDEX
  | _ => None
  end.

Definition message := (string * list fmtarg)%type.

Record Parser := {
  lex : Lexer;
  errors : list message;
  currentToken : Token;
  peekToken : Token;
  terminated : bool
}.

Definition add_error (p : Parser) (msg : message) : Parser :=
  {| lex := lex p; errors := errors p ++ [msg]; currentToken := currentToken p;
     peekToken := peekToken p; terminated := terminated p |}.

Definition set_terminated (p : Parser) : Parser :=
  {| lex := lex p; errors := errors p; currentToken := currentToken p;
     peekToken := peekToken p; terminated := true |}.

Definition pos_args (pos : Position) : list fmtarg := [AInt (Line pos); AInt (Column pos)].

Definition is_ascii_digit (a : Z) : bool := between 48 a 57.

(** [strconv.ParseInt(s, 10, 64)]: the value and whether there is an
    error; out of range the value is the nearest bound. *)
Definition ParseInt (s : string) : Z * bool :=
  let bs := bytes_of s in
  let '(neg, ds) :=
    match bs with
    | 45 :: ds => (true, ds)
    | 43 :: ds => (false, ds)
    | _ => (false, bs)
    end in
  match ds with
  | [] => (0, true)
  | _ =>
    if forallb is_ascii_digit ds then
      let n := foldl (fun acc d => 10 * acc + (d - 48)) 0 ds in
      if neg then (if n <=? 2 ^ 63 then (- n, false) else (- 2 ^ 63, true))
      else (if n <? 2 ^ 63 then (n, false) else (2 ^ 63 - 1, true))
    else (0, true)
  end.

Section Parsing.
Context `{U : UnicodeTables}.

Definition nextToken (p : Parser) : outcome Parser :=
  '(l, tok) ← NextToken (lex p);
  Return {| lex := l; errors := errors p; currentToken := peekToken p;
            peekToken := tok; terminated := terminated p |}.

Definition isPeekToken (p : Parser) (t : TokenType) : bool :=
  bool_decide (Type_ (peekToken p) = t).

Definition isCurrentToken (p : Parser) (t : TokenType) : bool :=
  bool_decide (Type_ (currentToken p) = t).

Definition currentPrecedence (p : Parser) : Z :=
  default LOWEST (precedence (Type_ (currentToken p))).

Definition peekPrecedence (p : Parser) : Z :=
  default LOWEST (precedence (Type_ (peekToken p))).

Definition expectPeek (p : Parser) (t : TokenType) : outcome (Parser * bool) :=
  if isPeekToken p t then p ← nextToken p; Return (p, true)
  else
    Return (add_error p
      ("Syntax Error: %v expected token to be %s, got %s instead",
       pos_args (Pos (currentToken p)) ++
       [AStr (TokenType_String t); AStr (TokenType_String (Type_ (peekToken p)))]),
      false).

Definition parseIdentifier (p : Parser) : Parser * Expression :=
  (p, Identifier (currentToken p)).

Definition parseString (p : Parser) : Parser * Expression :=
  (p, String_ (currentToken p)).

Definition parseInteger (p : Parser) : Parser * Expression :=
  let '(value, err) := ParseInt (Literal (currentToken p)) in
  let p' :=
    if (err : bool) then
      add_error p ("Syntax Error:%v could not parse %q as integer",
                   pos_args (Pos (currentToken p)) ++ [AStr (Literal (currentToken p))])
    else p in
  (p', Integer (currentToken p) value).

(** The handlers registered in the maps [prefix] and [infix]. *)
Inductive PrefixFunc := PrefixIdentifier | PrefixInteger | PrefixString | PrefixGroup.
Inductive InfixFunc := InfixAccessor | InfixIndex.

Definition prefix (t : TokenType) : option PrefixFunc :=
  match t with
  | IDENT => Some PrefixIdentifier
  | INT => Some PrefixInteger
  | STRING => Some PrefixString
  | LPAREN => Some PrefixGroup
  | _ => None
  end.

Definition infix (t : TokenType) : option InfixFunc :=
  match t with
  | PERIOD => Some InfixAccessor
  | LBRACKET => Some InfixIndex
  | _ => None
  end.

(** The mutually recursive methods of the parser.  Every call of one by
    another follows a [nextToken], and the fuel bounds their nesting and
    the iterations of the loop of [parseExpression]. *)
Fixpoint parseExpression (fuel : nat) (p : Parser) (prec : Z)
    : outcome (Parser * Expression) :=
  match fuel with
  | O => OutOfFuel
  | S fuel' =>
    match prefix (Type_ (currentToken p)) with
    | None =>
      if terminated p then Return (p, Nil)
      else if bool_decide (Type_ (currentToken p) <> EOF) then
        Return (add_error p
          ("Syntax Error:%v invalid character '%s' found",
           pos_args (Pos (currentToken p)) ++
           [AStr (TokenType_String (Type_ (currentToken p)))]), Nil)
      else Return (p, Nil)
    | Some f =>
      '(p, leftExp) ←
        match f with
        | PrefixIdentifier => Return (parseIdentifier p)
        | PrefixInteger => Return (parseInteger p)
        | PrefixString => Return (parseString p)
        | PrefixGroup => parseGroup fuel' p
        end;
      parseExpression_loop fuel' p prec leftExp
    end
  end
(** The loop of [parseExpression] that runs the infix handlers. *)
with parseExpression_loop (fuel : nat) (p : Parser) (prec : Z) (leftExp : Expression)
    : outcome (Parser * Expression) :=
  match fuel with
  | O => OutOfFuel
  | S fuel' =>
    if negb (isPeekToken p SEPARATOR) && (prec <? peekPrecedence p) then
      match infix (Type_ (peekToken p)) with
      | None => Return (p, leftExp)
      | Some f =>
        p ← nextToken p;
        '(p, leftExp) ←
          match f with
          | InfixAccessor => parseAccessor fuel' p leftExp
          | InfixIndex => parseIndex fuel' p leftExp
          end;
        parseExpression_loop fuel' p prec leftExp
      end
    else Return (p, leftExp)
  end
with parseGroup (fuel : nat) (p : Parser) : outcome (Parser * Expression) :=
  match fuel with
  | O => OutOfFuel
  | S fuel' =>
    p ← nextToken p;
    if bool_decide (Type_ (currentToken p) = LPAREN) && isCurrentToken p RPAREN then
      Return (p, Empty (currentToken p))
    else
      '(p, exp) ← parseExpression fuel' p LOWEST;
      '(p, ok) ← expectPeek p RPAREN;
      if (ok : bool) then Return (p, exp) else Return (p, Nil)
  end
(** The composite literal of [parseIndex] reads [p.currentToken] and
    calls [parseExpression]; Go leaves the order of the two open, and no
    function of the program reads the token of an index node. *)
with parseIndex (fuel : nat) (p : Parser) (left_ : Expression)
    : outcome (Parser * Expression) :=
  match fuel with
  | O => OutOfFuel
  | S fuel' =>
    p ← nextToken p;
    let tok := currentToken p in
    '(p, index) ← parseExpression fuel' p LOWEST;
    '(p, ok) ← expectPeek p RBRACKET;
    if (ok : bool) then Return (p, IndexExpression tok "" left_ index)
    else Return (p, Nil)
  end
with parseAccessor (fuel : nat) (p : Parser) (left_ : Expression)
    : outcome (Parser * Expression) :=
  match fuel with
  | O => OutOfFuel
  | S fuel' =>
    let prec := currentPrecedence p in
    p ← nextToken p;
    '(p, right_) ← parseExpression fuel' p prec;
    Return (p, AccessorExpression (currentToken p) right_ left_)
  end.

Definition parseExpressionStatement (fuel : nat) (p : Parser)
    : outcome (Parser * Expression) :=
  let tok := currentToken p in
  '(p, exp) ← parseExpression fuel p LOWEST;
  let stmt := ExpressionStatement tok exp in
  if isPeekToken p SEPARATOR then Return (set_terminated p, stmt)
  else Return (p, stmt).

(** The loop of [Run]. *)
Fixpoint Run_loop (fuel : nat) (p : Parser) (exps : list Expression)
    : outcome (Parser * list Expression) :=
  match fuel with
  | O => OutOfFuel
  | S fuel' =>
    if bool_decide (Type_ (currentToken p) <> EOF) then
      if terminated p then Return (p, exps)
      else
        '(p, stmt) ← parseExpressionStatement fuel' p;
        p ← nextToken p;
        Run_loop fuel' p (exps ++ [stmt])
    else Return (p, exps)
  end.

(** Every token but [EOF] takes at least one rune of the input, and
    every call and iteration of the parser follows a token: twice the
    length of the input and a margin bounds them. *)
Definition parser_fuel (l : Lexer) : nat := (2 * length (input l) + 8)%nat.

Definition NewParser (lex : Lexer) : outcome Parser :=
  let zero_Token := {| Pos := zero_Position; Type_ := EOF; Literal := "" |} in
  let p := {| lex := ReadNext lex; errors := []; currentToken := zero_Token;
              peekToken := zero_Token; terminated := false |} in
  p ← nextToken p;
  nextToken p.

(** [Run]: the query expression ([None] for a [nil] pointer), the bytes
    consumed and the error. *)
Definition Run (p : Parser) : outcome (option (list Expression) * Z * error) :=
  '(p, exps) ← Run_loop (parser_fuel (lex p)) p [];
  match errors p with
  | [] => Return (Some exps, Offset (Pos (currentToken p)), None)
  | _ => Return (None, position (lex p), Some (Joined (errors p)))
  end.
End Parsing.

End parser.

(** ** Go types and values, as package reflect of Go shows them *)

Inductive BasicKind : Type :=
| Bool | Int | Int8 | Int16 | Int32 | Int64
| Uint | Uint8 | Uint16 | Uint32 | Uint64 | Uintptr
| Float32 | Float64 | Complex64 | Complex128 | String_kind | UnsafePointer.

(** [reflect.Kind] *)
Inductive Kind : Type :=
| Invalid | Basic (b : BasicKind)
| Array | Chan | Func | Interface | Map | Ptr | Slice | Struct.

#[global] Instance BasicKind_eq_dec : EqDecision BasicKind.
Proof. solve_decision. Defined.
#[global] Instance Kind_eq_dec : EqDecision Kind.
Proof. solve_decision. Defined.

(** [Kind.String], which [%q] prints. *)
Definition Kind_String (k : Kind) : string :=
  match k with
  | Invalid => "invalid" | Array => "array" | Chan => "chan" | Func => "func"
  | Interface => "interface" | Map => "map" | Ptr => "ptr" | Slice => "slice"
  | Struct => "struct"
  | Basic b =>
    match b with
    | Bool => "bool" | Int => "int" | Int8 => "int8" | Int16 => "int16"
    | Int32 => "int32" | Int64 => "int64" | Uint => "uint" | Uint8 => "uint8"
    | Uint16 => "uint16" | Uint32 => "uint32" | Uint64 => "uint64"
    | Uintptr => "uintptr" | Float32 => "float32" | Float64 => "float64"
    | Complex64 => "complex64" | Complex128 => "complex128"
    | String_kind => "string" | UnsafePointer => "unsafe.Pointer"
    end
  end.

(** [reflect.StructField]: [PkgPath] is empty for an exported field; [Tag]
    is the struct tag as its list of key and value pairs. *)
Record StructField (T : Type) := {
  sf_Name : string;
  sf_PkgPath : string;
  sf_Type : T;
  sf_Tag : list (string * string)
}.
Arguments sf_Name {T} _.
Arguments sf_PkgPath {T} _.
Arguments sf_Type {T} _.
Arguments sf_Tag {T} _.

(** [reflect.Type].  [TNamed] is a defined type, [type name underlying]. *)
#[warnings="-register-all"]
Inductive GoType : Type :=
| TBasic (b : BasicKind)
| TArray (n : Z) (elem : GoType)
| TChan (elem : GoType)
| TFunc
| TInterface
| TMap (key elem : GoType)
| TPtr (elem : GoType)
| TSlice (elem : GoType)
| TStruct (fields : list (StructField GoType))
| TNamed (name : string) (underlying : GoType).

Fixpoint Type_Kind (t : GoType) : Kind :=
  match t with
  | TBasic b => Basic b
  | TArray _ _ => Array
  | TChan _ => Chan
  | TFunc => Func
  | TInterface => Interface
  | TMap _ _ => Map
  | TPtr _ => Ptr
  | TSlice _ => Slice
  | TStruct _ => Struct
  | TNamed _ u => Type_Kind u
  end.

(** [Type.Name]: empty for a type that is not defined. *)
Definition Type_Name (t : GoType) : string :=
  match t with TNamed name _ => name | _ => "" end.

(** The fields [Type.Field(0)], ..., [Type.Field(NumField()-1)] of a
    struct type. *)
Fixpoint Type_Fields (t : GoType) : list (StructField GoType) :=
  match t with
  | TStruct fields => fields
  | TNamed _ u => Type_Fields u
  | _ => []
  end.

(** [Type.Elem] of an array, channel, map, pointer or slice type, a panic
    for another. *)
Fixpoint Type_Elem (t : GoType) : outcome GoType :=
  match t with
  | TArray _ e | TChan e | TMap _ e | TPtr e | TSlice e => Return e
  | TNamed _ u => Type_Elem u
  | _ => Panic "reflect: Elem of invalid type"
  end.

Definition tag_eqb (a b : list (string * string)) : bool :=
  bool_decide (a = b).

(** Identity of types, which keys the reflection cache. *)
Fixpoint GoType_eqb (a b : GoType) : bool :=
  match a, b with
  | TBasic x, TBasic y => bool_decide (x = y)
  | TArray n x, TArray m y => (n =? m) && GoType_eqb x y
  | TChan x, TChan y => GoType_eqb x y
  | TFunc, TFunc => true
  | TInterface, TInterface => true
  | TMap k x, TMap l y => GoType_eqb k l && GoType_eqb x y
  | TPtr x, TPtr y => GoType_eqb x y
  | TSlice x, TSlice y => GoType_eqb x y
  | TStruct fs, TStruct gs =>
    (fix fields_eqb (fs gs : list (StructField GoType)) : bool :=
       match fs, gs with
       | [], [] => true
       | f :: fs', g :: gs' =>
         String.eqb (sf_Name f) (sf_Name g) &&
         String.eqb (sf_PkgPath f) (sf_PkgPath g) &&
         GoType_eqb (sf_Type f) (sf_Type g) &&
         tag_eqb (sf_Tag f) (sf_Tag g) &&
         fields_eqb fs' gs'
       | _, _ => false
       end) fs gs
  | TNamed n x, TNamed m y => String.eqb n m && GoType_eqb x y
  | _, _ => false
  end.

(** A Go value as far as the program looks into it: a pointer that is not
    nil, with the address of the variable it points to and what the
    variable holds, or a value of a type whose contents are not followed
    (for a pointer type, the nil pointer). *)
Inductive GoValue : Type :=
| PointerTo (addr : nat) (target : GoValue)
| Val (T : GoType).

Fixpoint TypeOf (v : GoValue) : GoType :=
  match v with
  | PointerTo _ target => TPtr (TypeOf target)
  | Val T => T
  end.

(** An [interface{}] argument: [None] is the nil interface. *)
Definition iface := option GoValue.

(** Where an addressable value lives: a variable and the path of field
    names from it. *)
Definition Location := (nat * list string)%type.

(** [reflect.Value]: the value ([None] in the zero Value), its location
    when it is addressable, and the flag of a value reached through an
    unexported field. *)
Record Value := { v_val : option GoValue; v_loc : option Location; v_ro : bool }.

Definition zero_Value : Value := {| v_val := None; v_loc := None; v_ro := false |}.

Definition ValueOf (i : iface) : Value := {| v_val := i; v_loc := None; v_ro := false |}.

Definition Value_Kind (v : Value) : Kind :=
  match v_val v with
  | None => Invalid
  | Some g => Type_Kind (TypeOf g)
  end.

(** [Value.Type]: a panic on the zero Value. *)
Definition Value_Type (v : Value) : outcome GoType :=
  match v_val v with
  | None => Panic "reflect: call of reflect.Value.Type on zero Value"
  | Some g => Return (TypeOf g)
  end.

(** [reflect.Indirect]: the value a pointer points to, the zero Value for
    a nil pointer, the value itself when it is no pointer. *)
Definition Indirect (v : Value) : Value :=
  match v_val v with
  | Some (PointerTo addr target) =>
    {| v_val := Some target; v_loc := Some (addr, []); v_ro := v_ro v |}
  | Some (Val T) =>
    match Type_Kind T with
    | Ptr => zero_Value
    | _ => v
    end
  | None => v
  end.

(** [Value.Field(i)] for the field [f] of a struct value. *)
Definition Value_Field (v : Value) (f : StructField GoType) : Value :=
  {| v_val := Some (Val (sf_Type f));
     v_loc := (fun '(addr, path) => (addr, path ++ [sf_Name f])) <$> v_loc v;
     v_ro := v_ro v || negb (String.eqb (sf_PkgPath f) "") |}.

(** [v.Addr().Interface()]: the pointer to an addressable value as an
    interface; [Addr] panics on a value that is not addressable and
    [Interface] on one reached through an unexported field. *)
Definition Value_Addr_Interface (v : Value) : outcome Location :=
  match v_loc v with
  | None => Panic "reflect.Value.Addr of unaddressable value"
  | Some loc =>
    if v_ro v then
      Panic "reflect.Value.Interface: cannot return value obtained from unexported field or method"
    else Return loc
  end.

(** [StructTag.Get]: the value of the first pair of the key, the empty
    string when the tag has none. *)
Fixpoint Tag_Get (tag : list (string * string)) (key : string) : string :=
  match tag with
  | [] => ""
  | (k, v) :: tag' => if String.eqb k key then v else Tag_Get tag' key
  end.

(** [strings.Split(s, sep)] for a separator that is not empty: the pieces
    of [s] between the occurrences of [sep], taken from the left.  [skip]
    counts the bytes of an occurrence still to pass. *)
Fixpoint split_from (sep : string) (s : string) (cur : string) (skip : nat)
    : list string :=
  match s with
  | EmptyString => [cur]
  | String a s' =>
    match skip with
    | S skip' => split_from sep s' cur skip'
    | O =>
      if String.prefix sep s then cur :: split_from sep s' "" (String.length sep - 1)
      else split_from sep s' (cur +:+ String a EmptyString) 0
    end
  end.

Definition strings_Split (s sep : string) : list string := split_from sep s "" 0.

(** [strings.HasPrefix] *)
Definition strings_HasPrefix (s prefix : string) : bool := String.prefix prefix s.

(** ** Package reflect of the repository, imported as [sreflect] *)

Module sreflect.

Record ReflectValue := { rv_Value : Value }.

Record ReflectTag := { rt_Name : string; rt_OmitEmpty : bool }.

Record ReflectField := { rf_Name : string; rf_Tag : ReflectTag; rf_Value : Value }.

Record ReflectStruct := {
  rs_Name : string;
  rs_Fields : gmap string ReflectField;
  rs_Value : Value
}.

(** The two implementations of the interface [ReflectInfo]. *)
Inductive ReflectInfo : Type :=
| IsValue (r : ReflectValue)
| IsStruct (r : ReflectStruct).

Definition ReflectInfo_Kind (r : ReflectInfo) : Kind :=
  match r with
  | IsValue r => Value_Kind (rv_Value r)
  | IsStruct r => Value_Kind (rs_Value r)
  end.

Definition zero_ReflectTag : ReflectTag := {| rt_Name := ""; rt_OmitEmpty := false |}.

Definition zero_ReflectStruct : ReflectStruct :=
  {| rs_Name := ""; rs_Fields := ∅; rs_Value := zero_Value |}.

(** [sort.Strings] *)
Definition string_le (a b : string) : Prop := String.leb a b = true.

#[global] Instance string_le_dec a b : Decision (string_le a b).
Proof. unfold string_le. apply _. Defined.

Definition sort_Strings (l : list string) : list string := merge_sort string_le l.

(** [FieldNames]: the keys of [Fields], sorted. *)
Definition FieldNames (r : ReflectStruct) : list string :=
  sort_Strings (map fst (map_to_list (rs_Fields r))).

Section Reflect.
Context `{U : UnicodeTables}.

Definition parseTag (tag : string) : ReflectTag * error :=
  if String.eqb tag "" then (zero_ReflectTag, Some (Errorf "unexpected empty tag" []))
  else
    match strings_Split tag "," with
    | [name; option] =>
      if negb (String.eqb (strings_ToLower option) "omitempty") then
        (zero_ReflectTag, Some (Errorf "unexpected tag value %q" [AStr option]))
      else ({| rt_Name := name; rt_OmitEmpty := true |}, None)
    | [name] => ({| rt_Name := name; rt_OmitEmpty := false |}, None)
    | _ => (zero_ReflectTag, None)
    end.

(** The loop of [Reflect] over the fields of the struct type. *)
Fixpoint Reflect_fields (value : Value) (fields : list (StructField GoType))
    (acc : gmap string ReflectField) : option (gmap string ReflectField) * error :=
  match fields with
  | [] => (Some acc, None)
  | field :: fields' =>
    let rawTag := Tag_Get (sf_Tag field) "db" in
    match parseTag rawTag with
    | (_, Some err) => (None, Some err)
    | (tag, None) =>
      let name := rt_Name tag in
      let name := if String.eqb name "" then strings_ToLower (sf_Name field) else name in
      Reflect_fields value fields'
        (<[name := {| rf_Name := sf_Name field; rf_Tag := tag;
                      rf_Value := Value_Field value field |}]> acc)
    end
  end.

(** [Reflect]: a [nil] [ReflectInfo] is [None]. *)
Definition Reflect (value : Value) : outcome (option ReflectInfo * error) :=
  let value := Indirect value in
  if bool_decide (Value_Kind value <> Struct) then
    Return (Some (IsValue {| rv_Value := value |}), None)
  else
    typ ← Value_Type value;
    match Reflect_fields value (Type_Fields typ) ∅ with
    | (Some fields, None) =>
      Return (Some (IsStruct {| rs_Name := Type_Name typ; rs_Fields := fields;
                                rs_Value := value |}), None)
    | (_, err) => Return (None, err)
    end.

(** *** cache.go *)

(** The map of [ReflectCache]: the entry of a type is the first pair of
    the type. *)
Definition ReflectCache := list (GoType * ReflectInfo).

Definition NewReflectCache : ReflectCache := [].

Fixpoint cache_get (cache : ReflectCache) (t : GoType) : option ReflectInfo :=
  match cache with
  | [] => None
  | (t', ri) :: cache' => if GoType_eqb t' t then Some ri else cache_get cache' t
  end.

Definition cache_set (cache : ReflectCache) (t : GoType) (ri : ReflectInfo)
    : ReflectCache := (t, ri) :: cache.

(** [mustBe]: the panic with a [reflect.ValueError] when the kind is not
    the expected one. *)
Definition mustBe (v : Value) (expected : Kind) : outcome unit :=
  if bool_decide (Value_Kind v <> expected) then
    Panic ("reflect: call of ReflectCache.Reflect on " +:+ Kind_String (Value_Kind v) +:+ " Value")
  else Return ().

(** [ReflectCache.Reflect], with the cache before and after the call. *)
Definition ReflectCache_Reflect (r : ReflectCache) (value : iface)
    : outcome (ReflectInfo * error * ReflectCache) :=
  let raw := ValueOf value in
  _ ← mustBe raw Ptr;
  let v := Indirect raw in
  t ← Value_Type v;
  match cache_get r t with
  | Some rs => Return (rs, None, r)
  | None =>
    res ← Reflect v;
    match res with
    | (Some ri, None) => Return (ri, None, cache_set r t ri)
    | (_, err) => Return (IsStruct zero_ReflectStruct, err, r)
    end
  end.
End Reflect.

End sreflect.

(** ** Package sqlair

    The model follows the statement compiler, the scanner of named
    parameters, the querier, the scan planner and the assembly of the
    driver's arguments.  It leaves out [Exec] and [Query.Query], which
    hand the assembled arguments to the driver, and the values that the
    driver stores in the destinations. *)

Module sqlair.

(** *** recordpath.go *)

Inductive recordPathType : Type :=
| recordPathIdent | recordPathInteger | recordPathString.

(** The dynamic values a [recordPath] holds: a [string] or an [int64]. *)
Inductive pathValue : Type :=
| StringValue (s : string)
| Int64Value (n : Z).

Record recordPath := { tokenType : recordPathType; value : pathValue }.

Definition makeRecordPathIdent (value : string) : recordPath :=
  {| tokenType := recordPathIdent; value := StringValue value |}.

Definition makeRecordPathInteger (value : Z) : recordPath :=
  {| tokenType := recordPathInteger; value := Int64Value value |}.

Definition makeRecordPathString (value : string) : recordPath :=
  {| tokenType := recordPathString; value := StringValue value |}.

(** [compileRecordPathAST]: the walk that flattens an AST into atoms.  The
    last case is the one of a [nil] expression, which no case of the type
    switch matches. *)
Fixpoint compileRecordPathAST (ast : parser.Expression) : list recordPath * error :=
  match ast with
  | parser.QueryExpression Expressions =>
    match Expressions with
    | [] => ([], None)
    | first :: more =>
      match compileRecordPathAST first with
      | (_, Some err) => ([], Some err)
      | (result, None) =>
        match more with
        | _ :: _ => (result, Some ErrTooMany)
        | [] => (result, None)
        end
      end
    end
  | parser.ExpressionStatement _ expression => compileRecordPathAST expression
  | parser.IndexExpression _ _ Left Index =>
    match compileRecordPathAST Left with
    | (_, Some err) => ([], Some err)
    | (left_, None) =>
      match compileRecordPathAST Index with
      | (_, Some err) => ([], Some err)
      | (index, None) => (left_ ++ index, None)
      end
    end
  | parser.AccessorExpression _ Right Left =>
    match compileRecordPathAST Left with
    | (_, Some err) => ([], Some err)
    | (left_, None) =>
      match compileRecordPathAST Right with
      | (_, Some err) => ([], Some err)
      | (index, None) => (left_ ++ index, None)
      end
    end
  | parser.Identifier tok => ([makeRecordPathIdent (parser.Literal tok)], None)
  | parser.Integer _ Value => ([makeRecordPathInteger Value], None)
  | parser.String_ tok => ([makeRecordPathString (parser.Literal tok)], None)
  | parser.Separator _ | parser.Empty _ => ([], None)
  | parser.Nil =>
    ([], Some (Errorf "syntax error: unexpected expression %T" [AStr "<nil>"]))
  end.

Section RecordPath.
Context `{U : UnicodeTables}.

Definition tokenizeRecordPath (stmt : string) (offset : Z)
    : outcome (option (list parser.Expression) * Z * error) :=
  rest ← slice_from stmt offset;
  p ← parser.NewParser (parser.NewLexer rest);
  parser.Run p.

Definition parseRecordPath (stmt : string) (offset : Z)
    : outcome (list recordPath * Z * error) :=
  '(ast, consumed, err) ← tokenizeRecordPath stmt offset;
  match err with
  | Some _ => Return ([], consumed, err)
  | None =>
    match ast with
    | None => Panic "invalid memory address or nil pointer dereference"
    | Some Expressions =>
      let '(paths, err) := compileRecordPathAST (parser.QueryExpression Expressions) in
      match err with
      | Some _ => Return ([], -1, err)
      | None => Return (paths, consumed, None)
      end
    end
  end.
End RecordPath.

(** *** The statement compiler and the named arguments *)

Section NamedArguments.
Context `{U : UnicodeTables}.

Definition bindCharPredicate := rune -> bool.

Definition alphaNumeric (a : rune) : bool :=
  unicode_IsLetter a || unicode_IsDigit a || unicode_IsNumber a || (a =? 95).

Definition numeric (a : rune) : bool :=
  unicode_IsDigit a || unicode_IsNumber a.

(** The map [prefixes]: ':' (58), '@' (64) and '$' (36) take an
    alphanumeric name, '?' (63) a numeric one. *)
Definition prefixes (r : rune) : option bindCharPredicate :=
  if (r =? 58) || (r =? 64) || (r =? 36) then Some alphaNumeric
  else if r =? 63 then Some numeric
  else None.

Definition prefix_runes : list rune := [58; 64; 36; 63].

(** The loop ranges over the map [prefixes] in an order Go leaves open;
    it keeps the least index, which no order changes. *)
Definition indexOfInputNamedArgs (stmt : string) : Z :=
  let '(res, found) :=
    foldl (fun '(res, found) prefix =>
             let index := strings_IndexRune stmt prefix in
             if (0 <=? index) && (index <? res) then (index, true)
             else (res, found))
          (len stmt + 1, false) prefix_runes in
  if (found : bool) then res else -1.

Record nameBinding := { nb_prefix : rune; nb_name : string }.

Definition isNameTerminator (a : rune) : bool :=
  unicode_IsSpace a || (a =? 44) || (a =? 59) || (a =? 61) || (a =? 41).

(** The order [sort.Slice] is given in [parseNames]: by name, bytewise. *)
Definition name_le (a b : nameBinding) : Prop :=
  String.leb (nb_name a) (nb_name b) = true.

#[local] Instance name_le_dec a b : Decision (name_le a b).
Proof. unfold name_le. apply _. Defined.

(** [sort.Slice(names, less)] with [less] the strict order of the names.
    Go fixes no order among bindings of equal names; the model keeps
    them in the order of the statement. *)
Definition sort_by_name (names : list nameBinding) : list nameBinding :=
  merge_sort name_le names.

(** The inner loop of [parseNames], [for i = i + 1; i < len(stmt); i++]:
    [Some (i, name)] when it is left by [break] or by its condition,
    [None] when it returns the error. *)
Fixpoint readName (fuel : nat) (predicate : bindCharPredicate)
    (stmt : string) (i : Z) (name : string) : outcome (option (Z * string)) :=
  match fuel with
  | O => OutOfFuel
  | S fuel' =>
    if i <? len stmt then
      char ← byte_at stmt i;
      if predicate char then
        readName fuel' predicate stmt (i + 1) (name +:+ string_of_rune char)
      else if isNameTerminator char then Return (Some (i, name))
      else Return None
    else Return (Some (i, name))
  end.

(** The outer loop of [parseNames] from index [i] with the bindings
    found so far; leaving the loop sorts and returns them. *)
Fixpoint parseNames_from (fuel : nat) (stmt : string) (i : Z)
    (names : list nameBinding) : outcome (list nameBinding * error) :=
  match fuel with
  | O => OutOfFuel
  | S fuel' =>
    if i <? len stmt then
      r ← byte_at stmt i;
      match prefixes r with
      | Some predicate =>
        bare ← (if (r =? 63) && (i + 1 <? len stmt)
                then isNameTerminator <$> byte_at stmt (i + 1)
                else Return false);
        if (bare : bool) then parseNames_from fuel' stmt (i + 1) names
        else
          read ← readName (S (String.length stmt)) predicate stmt (i + 1) "";
          match read with
          | None =>
            Return ([], Some (Errorf
              "unexpected named argument found in statement %q" [AStr stmt]))
          | Some (i, name) =>
            let names := names ++ [{| nb_prefix := r; nb_name := name |}] in
            if i >=? len stmt then Return (sort_by_name names, None)
            else
              rest ← slice_from stmt i;
              let index := indexOfInputNamedArgs rest in
              if index =? -1 then Return (sort_by_name names, None)
              else parseNames_from fuel' stmt (i + (index - 1) + 1) names
          end
      | None => parseNames_from fuel' stmt (i + 1) names
      end
    else Return (sort_by_name names, None)
  end.

Definition parseNames (stmt : string) (offset : Z)
    : outcome (list nameBinding * error) :=
  parseNames_from (S (String.length stmt)) stmt offset [].

End NamedArguments.

Definition AliasPrefix : string := "_pfx_".
Definition AliasSeparator : string := "_sfx_".

(** [indexOfRecordArgs]: '&' is the rune 38. *)
Definition indexOfRecordArgs (stmt : string) : Z := strings_IndexRune stmt 38.

Record recordBinding := {
  rb_name : string;
  rb_prefix : string;
  rb_fields : gset string;
  rb_wildcard : bool;
  rb_start : Z;
  rb_end : Z
}.

Definition translate (f : recordBinding) (expantion : Z) : Z :=
  expantion - (rb_end f - rb_start f).

Section Records.
Context `{U : UnicodeTables}.

(** The loop labelled [inner] of [parseRecords], from [k] down to 0 (the
    fuel is [k + 1]): the letters before the '&' up to the white space
    before them, and the index reached; [None] when it returns the
    error. *)
Fixpoint selector_loop (fuel : nat) (stmt : string) (k : Z)
    (selector : string) (offset : Z) : outcome (option (string * Z)) :=
  match fuel with
  | O => Return (Some (selector, offset))
  | S fuel' =>
    if k >=? 0 then
      char ← byte_at stmt k;
      if unicode_IsSpace char then
        if len selector >? 0 then Return (Some (selector, offset))
        else selector_loop fuel' stmt (k - 1) selector k
      else if unicode_IsLetter char then
        selector_loop fuel' stmt (k - 1) (string_of_rune char +:+ selector) k
      else Return None
    else Return (Some (selector, offset))
  end.

(** The loop of [parseRecords] from index [i].  The two calls of
    [parseRecordPath] bind its paths and its error, as the version of
    two results that this file calls; the paths are only printed, by the
    diagnostic [fmt.Println] calls that the model leaves out.  No
    statement of the loop appends to [records]. *)
Fixpoint parseRecords_from (fuel : nat) (stmt : string) (i : Z)
    (records : list recordBinding) : outcome (list recordBinding * error) :=
  match fuel with
  | O => OutOfFuel
  | S fuel' =>
    if i <? len stmt then
      r ← byte_at stmt i;
      if negb (r =? 38) then Return (records, None)
      else
        '(entityPath, _, err) ← parseRecordPath stmt (i + 1);
        if bool_decide (err <> None) && negb (is_ErrTooMany err) then Return ([], err)
        else
          sel ← selector_loop (Z.to_nat i) stmt (i - 1) "" 0;
          match sel with
          | None => Return ([], Some (Errorf "expected selector" []))
          | Some (selector, offset) =>
            if String.eqb (strings_ToLower (strings_TrimSpace selector)) "as" then
              let prior := 0 in
              '(tablePath, _, err) ← parseRecordPath stmt (prior + 1);
              if bool_decide (err <> None) && negb (is_ErrTooMany err)
              then Return ([], err)
              else parseRecords_from fuel' stmt (i + 1) records
            else
              Return ([], Some (Errorf "expected AS selector, got: %q" [AStr selector]))
          end
    else Return (records, None)
  end.

Definition parseRecords (stmt : string) (offset : Z)
    : outcome (list recordBinding * error) :=
  parseRecords_from (S (String.length stmt)) stmt offset [].

Definition constructFieldNameAlias (name : string) (record : recordBinding)
    (intersection : gset string) : string :=
  if String.eqb (rb_prefix record) "" then name
  else
    let alias :=
      if bool_decide (name ∈ intersection)
      then " AS " +:+ AliasPrefix +:+ rb_prefix record +:+ AliasSeparator +:+ name
      else "" in
    rb_prefix record +:+ "." +:+ name +:+ alias.

(** [strings.Join] *)
Fixpoint strings_Join (elems : list string) (sep : string) : string :=
  match elems with
  | [] => ""
  | [a] => a
  | a :: elems' => a +:+ sep +:+ strings_Join elems' sep
  end.

(** The loop over the fields named by a record that is not a wildcard;
    [inr] is the field that the entity lacks.  Go ranges over the set in
    an order it leaves open; the model takes the order of [elements]. *)
Fixpoint explicit_names (fields : list string) (record : recordBinding)
    (entity : sreflect.ReflectStruct) (entityInter : gset string)
    : list string + string :=
  match fields with
  | [] => inl []
  | name :: fields' =>
    match sreflect.rs_Fields entity !! name with
    | None => inr name
    | Some _ =>
      match explicit_names fields' record entity entityInter with
      | inl names => inl (constructFieldNameAlias name record entityInter :: names)
      | inr missing => inr missing
      end
    end
  end.

(** The loop of [expandRecords] over the entities, for one record:
    [None] when no entity has the name of the record. *)
Fixpoint expandRecord (stmt : string) (offset : Z) (record : recordBinding)
    (entities : list sreflect.ReflectStruct)
    (intersections : gmap string (gset string))
    : outcome (option (string * Z * error)) :=
  match entities with
  | [] => Return None
  | entity :: entities' =>
    if negb (String.eqb (rb_name record) (sreflect.rs_Name entity)) then
      expandRecord stmt offset record entities' intersections
    else
      let entityInter := default ∅ (intersections !! sreflect.rs_Name entity) in
      let names :=
        if rb_wildcard record then
          inl (map (fun name => constructFieldNameAlias name record entityInter)
                   (map fst (map_to_list (sreflect.rs_Fields entity))))
        else explicit_names (elements (rb_fields record)) record entity entityInter in
      match names with
      | inr name =>
        Return (Some ("", offset, Some (Errorf "field %q not found in entity %q"
                                [AStr name; AStr (sreflect.rs_Name entity)])))
      | inl [] =>
        Return (Some ("", offset, Some (Errorf "no fields found in record %q expression"
                                [AStr (sreflect.rs_Name entity)])))
      | inl names =>
        let recordList := strings_Join (sreflect.sort_Strings names) ", " in
        before ← slice_to stmt (offset + rb_start record);
        after ← slice_from stmt (offset + rb_end record);
        Return (Some (before +:+ recordList +:+ after,
                      offset + translate record (len recordList), None))
      end
  end.

Fixpoint expandRecords_from (stmt : string) (offset : Z)
    (records : list recordBinding) (entities : list sreflect.ReflectStruct)
    (intersections : gmap string (gset string)) : outcome (string * error) :=
  match records with
  | [] => Return (stmt, None)
  | record :: records' =>
    res ← expandRecord stmt offset record entities intersections;
    match res with
    | None =>
      Return ("", Some (Errorf "no entity found with the name %q" [AStr (rb_name record)]))
    | Some (_, _, Some err) => Return ("", Some err)
    | Some (stmt, offset, None) =>
      expandRecords_from stmt offset records' entities intersections
    end
  end.

Definition expandRecords (stmt : string) (records : list recordBinding)
    (entities : list sreflect.ReflectStruct)
    (intersections : gmap string (gset string)) : outcome (string * error) :=
  expandRecords_from stmt 0 records entities intersections.

(** [fieldIntersections]: for every entity name, the columns that two or
    more of the entities have.  A [nil] map reads as the empty one. *)
Definition fieldIntersections (entities : list sreflect.ReflectStruct)
    : gmap string (gset string) :=
  if (length entities <=? 1)%nat then ∅
  else
    let fields : gmap string (list sreflect.ReflectStruct) :=
      foldl (fun fields entity =>
               foldl (fun fields field =>
                        <[field := default [] (fields !! field) ++ [entity]]> fields)
                     fields (sreflect.FieldNames entity))
            ∅ entities in
    map_fold (fun fieldName (group : list sreflect.ReflectStruct) results =>
                if (length group <=? 1)%nat then results
                else
                  foldl (fun results entity =>
                           <[sreflect.rs_Name entity :=
                               {[fieldName]} ∪ default ∅ (results !! sreflect.rs_Name entity)]>
                             results)
                        results group)
             ∅ fields.

Definition compileStatement (stmt : string) (entities : list sreflect.ReflectStruct)
    : outcome (string * list recordBinding * error) :=
  let offset := indexOfRecordArgs stmt in
  if offset >=? 0 then
    '(fields, err) ← parseRecords stmt offset;
    match err with
    | Some _ => Return ("", [], err)
    | None =>
      let intersections := fieldIntersections entities in
      '(stmt, err) ← expandRecords stmt fields entities intersections;
      match err with
      | Some _ => Return ("", [], err)
      | None => Return (stmt, fields, None)
      end
    end
  else Return (stmt, [], None).
End Records.

(** *** The statement cache *)

Record cachedStmt := { cs_stmt : string; cs_fields : list recordBinding }.

Definition statementCache := gmap string cachedStmt.

Definition newStatementCache : statementCache := ∅.

Definition statementCache_Get (c : statementCache) (stmt : string) : option cachedStmt :=
  c !! stmt.

Definition statementCache_Set (c : statementCache) (stmt : string)
    (computed : cachedStmt) : statementCache := <[stmt := computed]> c.

(** *** The querier *)

Record reflectSlice := { slice : sreflect.ReflectValue; element : sreflect.ReflectStruct }.

(** The closures that [ForOne] and [ForMany] store in [executePlan]. *)
Inductive ExecutePlan : Type :=
| planDefaultScan
| planStructScan (structs : list sreflect.ReflectStruct)
| planMapScan (entity : sreflect.ReflectValue)
| planSliceStructScan (refSlice : list reflectSlice).

(** [Query].  The hook and the two caches are references into the querier
    that made the query: [true] when the field holds the querier's, [false]
    when it is [nil]; [executePlan] is [None] when it is [nil]. *)
Record Query := {
  entities : list sreflect.ReflectInfo;
  hook : bool;
  executePlan : option ExecutePlan;
  stmtCache : bool;
  reflect : bool
}.

(** [Query{}] *)
Definition zero_Query : Query :=
  {| entities := []; hook := false; executePlan := None; stmtCache := false;
     reflect := false |}.

(** What a [Querier] refers to and what the calls change: the contents of
    its two caches, the statements its hook was called with, the next
    address [reflect.New] allocates at, and a counter of the calls of
    [compileStatement], that the program does not have and that the
    properties of the statement cache read. *)
Record Querier := {
  q_reflect : sreflect.ReflectCache;
  q_hook : bool;
  q_stmtCache : statementCache;
  q_hooked : list string;
  q_next : nat;
  q_compiled : nat
}.

Definition NewQuerier : Querier :=
  {| q_reflect := sreflect.NewReflectCache; q_hook := true;
     q_stmtCache := newStatementCache; q_hooked := []; q_next := 0%nat;
     q_compiled := 0%nat |}.

Definition set_reflect (q : Querier) (r : sreflect.ReflectCache) : Querier :=
  {| q_reflect := r; q_hook := q_hook q; q_stmtCache := q_stmtCache q;
     q_hooked := q_hooked q; q_next := q_next q; q_compiled := q_compiled q |}.

Definition set_stmtCache (q : Querier) (c : statementCache) : Querier :=
  {| q_reflect := q_reflect q; q_hook := q_hook q; q_stmtCache := c;
     q_hooked := q_hooked q; q_next := q_next q; q_compiled := q_compiled q |}.

Definition call_hook (q : Querier) (stmt : string) : Querier :=
  {| q_reflect := q_reflect q; q_hook := q_hook q; q_stmtCache := q_stmtCache q;
     q_hooked := q_hooked q ++ [stmt]; q_next := q_next q;
     q_compiled := q_compiled q |}.

Definition count_compile (q : Querier) : Querier :=
  {| q_reflect := q_reflect q; q_hook := q_hook q; q_stmtCache := q_stmtCache q;
     q_hooked := q_hooked q; q_next := q_next q; q_compiled := S (q_compiled q) |}.

(** [reflect.New(t).Interface()]: a pointer to a new variable of type [t]. *)
Definition reflect_New (q : Querier) (t : GoType) : iface * Querier :=
  (Some (PointerTo (q_next q) (Val t)),
   {| q_reflect := q_reflect q; q_hook := q_hook q; q_stmtCache := q_stmtCache q;
      q_hooked := q_hooked q; q_next := S (q_next q); q_compiled := q_compiled q |}).

(** [entity.(sreflect.ReflectStruct)] and [entity.(sreflect.ReflectValue)]
    with one result: a panic when the entity is of the other type. *)
Definition assert_ReflectStruct (entity : sreflect.ReflectInfo)
    : outcome sreflect.ReflectStruct :=
  match entity with
  | sreflect.IsStruct r => Return r
  | sreflect.IsValue _ =>
    Panic "interface conversion: reflect.ReflectInfo is reflect.ReflectValue, not reflect.ReflectStruct"
  end.

Definition assert_ReflectValue (entity : sreflect.ReflectInfo)
    : outcome sreflect.ReflectValue :=
  match entity with
  | sreflect.IsValue r => Return r
  | sreflect.IsStruct _ =>
    Panic "interface conversion: reflect.ReflectInfo is reflect.ReflectStruct, not reflect.ReflectValue"
  end.

Fixpoint assert_all_ReflectStruct (entities : list sreflect.ReflectInfo)
    : outcome (list sreflect.ReflectStruct) :=
  match entities with
  | [] => Return []
  | entity :: entities' =>
    r ← assert_ReflectStruct entity;
    rs ← assert_all_ReflectStruct entities';
    Return (r :: rs)
  end.

Section Querying.
Context `{U : UnicodeTables}.

(** The loop of [reflectValues]: [i] is the index of the next value and
    [entities] the entities of the values before it. *)
Fixpoint reflectValues_from (cache : sreflect.ReflectCache) (i : Z)
    (values : list iface) (entities : list sreflect.ReflectInfo)
    : outcome (list sreflect.ReflectInfo * error * sreflect.ReflectCache) :=
  match values with
  | [] => Return (entities, None, cache)
  | value :: values' =>
    '(entity, err, cache) ← sreflect.ReflectCache_Reflect cache value;
    match err with
    | Some err => Return ([], Some (Wrap err "reflect"), cache)
    | None =>
      match last entities with
      | Some previous =>
        if (i >? 1) && bool_decide (sreflect.ReflectInfo_Kind previous
                                    <> sreflect.ReflectInfo_Kind entity) then
          Return ([], Some (Errorf
            "expected all input values to be of the same kind %q, got %q"
            [AStr (Kind_String (sreflect.ReflectInfo_Kind previous));
             AStr (Kind_String (sreflect.ReflectInfo_Kind entity))]), cache)
        else reflectValues_from cache (i + 1) values' (entities ++ [entity])
      | None => reflectValues_from cache (i + 1) values' (entities ++ [entity])
      end
    end
  end.

Definition reflectValues (q : Querier) (values : list iface)
    : outcome (list sreflect.ReflectInfo * error * Querier) :=
  '(entities, err, cache) ← reflectValues_from (q_reflect q) 0 values [];
  Return (entities, err, set_reflect q cache).

Definition new_Query (q : Querier) (entities : list sreflect.ReflectInfo)
    (plan : option ExecutePlan) : Query :=
  {| entities := entities; hook := q_hook q; executePlan := plan;
     stmtCache := true; reflect := true |}.

Definition ForOne (q : Querier) (values : list iface)
    : outcome (Query * error * Querier) :=
  '(entities, err, q) ← reflectValues q values;
  match err with
  | Some _ => Return (zero_Query, None, q)
  | None =>
    match values, entities with
    | [], _ => Return (new_Query q entities (Some planDefaultScan), None, q)
    | _, [] => Panic "index out of range [0] with length 0"
    | _, first :: _ =>
      match sreflect.ReflectInfo_Kind first with
      | Struct =>
        structs ← assert_all_ReflectStruct entities;
        Return (new_Query q entities (Some (planStructScan structs)), None, q)
      | Map =>
        if (1 <? length values)%nat then
          Return (zero_Query,
                  Some (Errorf "expected one map for query, got %d"
                          [AInt (Z.of_nat (length values))]), q)
        else
          entity ← assert_ReflectValue first;
          Return (new_Query q entities (Some (planMapScan entity)), None, q)
      | _ => Return (new_Query q entities (Some planDefaultScan), None, q)
      end
    end
  end.

(** The loop of [ForMany] over the entities: [inr] is the error it
    returns. *)
Fixpoint ForMany_slices (q : Querier) (entities : list sreflect.ReflectInfo)
    : outcome ((list reflectSlice + goerror) * Querier) :=
  match entities with
  | [] => Return (inl [], q)
  | entity :: entities' =>
    match sreflect.ReflectInfo_Kind entity with
    | Slice =>
      refValue ← assert_ReflectValue entity;
      t ← Value_Type (sreflect.rv_Value refValue);
      base ← Type_Elem t;
      let '(virtual, q) := reflect_New q base in
      '(element, err, cache) ← sreflect.ReflectCache_Reflect (q_reflect q) virtual;
      let q := set_reflect q cache in
      match err with
      | Some _ =>
        Return (inr (Errorf "expected slice but got %q"
                       [AStr (Kind_String (sreflect.ReflectInfo_Kind entity))]), q)
      | None =>
        match element with
        | sreflect.IsStruct elementRefStruct =>
          '(rest, q) ← ForMany_slices q entities';
          match rest with
          | inl refSlice =>
            Return (inl ({| slice := refValue; element := elementRefStruct |} :: refSlice), q)
          | inr err => Return (inr err, q)
          end
        | sreflect.IsValue _ =>
          Return (inr (Errorf "expected slice T to be struct" []), q)
        end
      end
    | _ =>
      Return (inr (Errorf "expected slice but got %q"
                     [AStr (Kind_String (sreflect.ReflectInfo_Kind entity))]), q)
    end
  end.

Definition ForMany (q : Querier) (values : list iface)
    : outcome (Query * error * Querier) :=
  match values with
  | [] => Return (zero_Query, Some (Errorf "expected at least one argument" []), q)
  | _ =>
    '(entities, err, q) ← reflectValues q values;
    match err with
    | Some _ => Return (zero_Query, None, q)
    | None =>
      '(res, q) ← ForMany_slices q entities;
      match res with
      | inr err => Return (zero_Query, Some err, q)
      | inl refSlice =>
        Return (new_Query q entities (Some (planSliceStructScan refSlice)), None, q)
      end
    end
  end.
End Querying.

(** *** The driver, as far as the scans use it *)

(** [*sql.ColumnType] *)
Record ColumnType := { ct_Name : string; ct_DatabaseTypeName : string }.

(** A destination handed to [rows.Scan]: the address of a field of a
    destination of the caller, or of the new variable of [zeroScanType]. *)
Inductive ScanTarget : Type :=
| TargetAt (loc : Location)
| TargetNew (T : GoType).

(** [*sql.Rows]: what [ColumnTypes] returns, for every row that [Next]
    yields the error of [Scan] as a function of the destinations, and what
    [Err] returns after the last row.  The values that [Scan] stores are
    not followed. *)
Record Rows := {
  rows_ColumnTypes : list ColumnType * error;
  rows_Scan : list (list ScanTarget -> error);
  rows_Err : error
}.

(** [tx.Query]: the rows, or the error. *)
Definition Tx := string -> list iface -> Rows + goerror.

Section Scanning.
Context `{U : UnicodeTables}.

Definition zeroScanType (t : string) : outcome ScanTarget :=
  let T := strings_ToUpper t in
  if String.eqb T "TEXT" then Return (TargetNew (TBasic String_kind))
  else if String.eqb T "INTEGER" then Return (TargetNew (TBasic Int64))
  else if String.eqb T "BOOL" then Return (TargetNew (TBasic Bool))
  else if String.eqb T "REAL" || String.eqb T "NUMERIC" then
    Return (TargetNew (TBasic Float64))
  else if String.eqb T "BLOB" then Return (TargetNew (TSlice (TBasic Uint8)))
  else Panic ("unexpected type: " +:+ t).

Fixpoint entityNames (entities : list sreflect.ReflectInfo) : list string :=
  match entities with
  | [] => []
  | sreflect.IsStruct rs :: entities' => sreflect.rs_Name rs :: entityNames entities'
  | sreflect.IsValue _ :: entities' => entityNames entities'
  end.

(** The loop of [structMapping] over the entities, for one column:
    [None] when no entity takes the column. *)
Fixpoint structMapping_entity (columnName prefix : string)
    (entities : list sreflect.ReflectStruct) (fields : list recordBinding)
    : outcome (option Location) :=
  match entities with
  | [] => Return None
  | entity :: entities' =>
    match sreflect.rs_Fields entity !! columnName with
    | None => structMapping_entity columnName prefix entities' fields
    | Some field =>
      let bindingFound :=
        existsb (fun binding =>
                   String.eqb (rb_name binding) (sreflect.rs_Name entity) &&
                   String.eqb (rb_prefix binding) prefix) fields in
      if negb (String.eqb prefix "") && negb bindingFound then
        structMapping_entity columnName prefix entities' fields
      else
        loc ← Value_Addr_Interface (sreflect.rf_Value field);
        Return (Some loc)
    end
  end.

(** The name and the prefix that [structMapping] reads off a column
    name; [parts[1]] panics when the name has the alias prefix and no
    separator after it. *)
Definition split_alias (columnName : string) : outcome (string * string) :=
  if strings_HasPrefix columnName AliasPrefix then
    rest ← slice_from columnName (len AliasPrefix);
    match strings_Split rest AliasSeparator with
    | prefix :: columnName :: _ => Return (columnName, prefix)
    | _ => Panic "index out of range [1] with length 1"
    end
  else Return (columnName, "").

Fixpoint structMapping (q : Query) (columns : list ColumnType)
    (entities : list sreflect.ReflectStruct) (fields : list recordBinding)
    : outcome (list ScanTarget * error) :=
  match columns with
  | [] => Return ([], None)
  | column :: columns' =>
    '(columnName, prefix) ← split_alias (ct_Name column);
    found ← structMapping_entity columnName prefix entities fields;
    match found with
    | None =>
      Return ([], Some (Errorf "missing destination name %q in types %v"
                          (AStr (ct_Name column) :: map AStr (entityNames (sqlair.entities q)))))
    | Some loc =>
      '(columnar, err) ← structMapping q columns' entities fields;
      match err with
      | Some _ => Return ([], err)
      | None => Return (TargetAt loc :: columnar, None)
      end
    end
  end.

(** [query]: the rows and their columns, or the error. *)
Definition query (qy : Query) (q : Querier) (tx : Tx) (stmt : string)
    (args : list iface) : (Rows * list ColumnType + goerror) * Querier :=
  let q := if hook qy then call_hook q stmt else q in
  match tx stmt args with
  | inr err => (inr err, q)
  | inl rows =>
    match rows_ColumnTypes rows with
    | (_, Some err) => (inr err, q)
    | (columns, None) => (inl (rows, columns), q)
    end
  end.

Fixpoint scan_rows (scans : list (list ScanTarget -> error))
    (args : list ScanTarget) : error :=
  match scans with
  | [] => None
  | scan :: scans' =>
    match scan args with
    | Some err => Some err
    | None => scan_rows scans' args
    end
  end.

Definition scanOne (rows : Rows) (args : list ScanTarget) : error :=
  match scan_rows (rows_Scan rows) args with
  | Some err => Some err
  | None => rows_Err rows
  end.

(** [structScan].  A query whose [stmtCache] is [nil] panics at [Get]. *)
Definition structScan (qy : Query) (q : Querier) (tx : Tx) (stmt : string)
    (args : list iface) (entities : list sreflect.ReflectStruct)
    : outcome (error * Querier) :=
  if negb (stmtCache qy) then Panic "invalid memory address or nil pointer dereference"
  else
    '(compiledStmt, fields, err, q) ←
      match statementCache_Get (q_stmtCache q) stmt with
      | Some cached => Return (cs_stmt cached, cs_fields cached, None, q)
      | None =>
        '(compiledStmt, fields, err) ← compileStatement stmt entities;
        Return (compiledStmt, fields, err, count_compile q)
      end;
    match err with
    | Some _ => Return (err, q)
    | None =>
      match query qy q tx compiledStmt args with
      | (inr err, q) => Return (Some err, q)
      | (inl (rows, columns), q) =>
        '(columnar, err) ← structMapping qy columns entities fields;
        match err with
        | Some _ => Return (err, q)
        | None =>
          match scanOne rows columnar with
          | Some err => Return (Some err, q)
          | None =>
            if negb (String.eqb stmt compiledStmt) then
              Return (None, set_stmtCache q
                (statementCache_Set (q_stmtCache q) stmt
                   {| cs_stmt := compiledStmt; cs_fields := fields |}))
            else Return (None, q)
          end
        end
      end
    end.

(** The loop of [sliceStructScan] that reflects a new record for every
    element type. *)
Fixpoint reflect_elements (q : Querier) (elements : list sreflect.ReflectStruct)
    : outcome (error * Querier) :=
  match elements with
  | [] => Return (None, q)
  | element :: elements' =>
    t ← Value_Type (sreflect.rs_Value element);
    let '(base, q) := reflect_New q t in
    '(refInfo, err, cache) ← sreflect.ReflectCache_Reflect (q_reflect q) base;
    let q := set_reflect q cache in
    match err with
    | Some _ => Return (err, q)
    | None =>
      match refInfo with
      | sreflect.IsStruct _ => reflect_elements q elements'
      | sreflect.IsValue _ =>
        Return (Some (Errorf "expected struct found %q"
                        [AStr (Kind_String (sreflect.ReflectInfo_Kind refInfo))]), q)
      end
    end
  end.

(** The loop of [sliceStructScan] over the rows.  What it appends to the
    slices of the caller is not followed. *)
Fixpoint sliceStructScan_rows (qy : Query) (q : Querier)
    (scans : list (list ScanTarget -> error)) (columns : list ColumnType)
    (elements : list sreflect.ReflectStruct) (fields : list recordBinding)
    : outcome (option error * Querier) :=
  match scans with
  | [] => Return (None, q)
  | scan :: scans' =>
    '(err, q) ← reflect_elements q elements;
    match err with
    | Some _ => Return (Some err, q)
    | None =>
      '(columnar, err) ← structMapping qy columns elements fields;
      match err with
      | Some _ => Return (Some err, q)
      | None =>
        match scan columnar with
        | Some err => Return (Some (Some err), q)
        | None => sliceStructScan_rows qy q scans' columns elements fields
        end
      end
    end
  end.

(** [sliceStructScan]: it compiles the statement at every call. *)
Definition sliceStructScan (qy : Query) (q : Querier) (tx : Tx) (stmt : string)
    (args : list iface) (slice : list reflectSlice) : outcome (error * Querier) :=
  let elements := map element slice in
  '(compiledStmt, fields, err) ← compileStatement stmt elements;
  let q := count_compile q in
  match err with
  | Some _ => Return (err, q)
  | None =>
    match query qy q tx compiledStmt args with
    | (inr err, q) => Return (Some err, q)
    | (inl (rows, columns), q) =>
      '(res, q) ← sliceStructScan_rows qy q (rows_Scan rows) columns elements fields;
      match res with
      | Some err => Return (err, q)
      | None => Return (rows_Err rows, q)
      end
    end
  end.
(** [defaultScan]: every column into the destination of its index. *)
Fixpoint defaultScan_columnar (columns : list ColumnType)
    (entities : list sreflect.ReflectInfo) : outcome (list ScanTarget * error) :=
  match columns with
  | [] => Return ([], None)
  | _ :: columns' =>
    match entities with
    | [] => Panic "index out of range"
    | sreflect.IsStruct _ :: _ =>
      Return ([], Some (Errorf "mixed entities not supported" []))
    | sreflect.IsValue refValue :: entities' =>
      loc ← Value_Addr_Interface (sreflect.rv_Value refValue);
      '(columnar, err) ← defaultScan_columnar columns' entities';
      match err with
      | Some _ => Return ([], err)
      | None => Return (TargetAt loc :: columnar, None)
      end
    end
  end.

Definition defaultScan (qy : Query) (q : Querier) (tx : Tx) (stmt : string)
    (args : list iface) : outcome (error * Querier) :=
  match query qy q tx stmt args with
  | (inr err, q) => Return (Some err, q)
  | (inl (rows, columns), q) =>
    if negb (length columns =? length (entities qy))%nat then
      Return (Some (Errorf
        "number of entities does not match column length %d, got %d"
        [AInt (Z.of_nat (length columns)); AInt (Z.of_nat (length (entities qy)))]), q)
    else
      '(columnar, err) ← defaultScan_columnar columns (entities qy);
      match err with
      | Some _ => Return (err, q)
      | None => Return (scanOne rows columnar, q)
      end
  end.

Fixpoint mapScan_columnar (columns : list ColumnType) : outcome (list ScanTarget) :=
  match columns with
  | [] => Return []
  | column :: columns' =>
    target ← zeroScanType (ct_DatabaseTypeName column);
    columnar ← mapScan_columnar columns';
    Return (target :: columnar)
  end.

(** [mapScan], up to the scan: what it then stores in the map of the
    caller is not followed. *)
Definition mapScan (qy : Query) (q : Querier) (tx : Tx) (stmt : string)
    (args : list iface) (entity : sreflect.ReflectValue) : outcome (error * Querier) :=
  match query qy q tx stmt args with
  | (inr err, q) => Return (Some err, q)
  | (inl (rows, columns), q) =>
    columnar ← mapScan_columnar columns;
    Return (scanOne rows columnar, q)
  end.

(** [q.executePlan(tx, stmt, namedArgs)], the last call of [Query.Query];
    calling a [nil] function panics. *)
Definition executePlan_call (qy : Query) (q : Querier) (tx : Tx) (stmt : string)
    (args : list iface) : outcome (error * Querier) :=
  match executePlan qy with
  | None => Panic "invalid memory address or nil pointer dereference"
  | Some planDefaultScan => defaultScan qy q tx stmt args
  | Some (planStructScan structs) => structScan qy q tx stmt args structs
  | Some (planMapScan entity) => mapScan qy q tx stmt args entity
  | Some (planSliceStructScan refSlice) => sliceStructScan qy q tx stmt args refSlice
  end.
End Scanning.

(** *** The arguments of a query *)

(** The arguments of [Query] and [Exec] are values of any type.  What the
    program reads of such a value, through package [reflect] and [fmt]:
    its type and pointer structure, as [reflect.TypeOf] and
    [reflect.ValueOf] show them; the entries of a map, once it is
    converted to [map[string]interface{}]; the value of the field of a Go
    name, for a struct or a pointer to one; and the text that [%T]
    prints. *)
Class GoValues : Type := {
  dyn : Type;
  dyn_iface : dyn -> iface;
  dyn_entries : dyn -> gmap string dyn;
  dyn_field : dyn -> string -> dyn;
  dyn_type_text : dyn -> string
}.

(** The type under the names of a defined type. *)
Fixpoint underlying (t : GoType) : GoType :=
  match t with
  | TNamed _ u => underlying u
  | _ => t
  end.

(** [Type.Key]: a panic for a type that is no map. *)
Definition Type_Key (t : GoType) : outcome GoType :=
  match underlying t with
  | TMap key _ => Return key
  | _ => Panic "reflect: Key of non-map type"
  end.

(** [t.ConvertibleTo(reflect.TypeOf(map[string]interface{}(nil)))] for a
    map type: the two have identical underlying types.  [TInterface]
    stands for [interface{}]. *)
Definition convertible_to_map_string_interface (t : GoType) : bool :=
  match underlying t with
  | TMap (TBasic String_kind) TInterface => true
  | _ => false
  end.

Section Arguments.
Context `{U : UnicodeTables} `{G : GoValues}.

(** [sql.NamedArg] *)
Record NamedArg := { na_Name : string; na_Value : dyn }.

(** An element of the arguments handed to the driver: an argument of the
    caller, or a [sql.NamedArg]. *)
Inductive argument : Type :=
| Given (v : dyn)
| Named (a : NamedArg).

(** [convertMapStringInterface]: the map, and whether the conversion is
    possible. *)
Definition convertMapStringInterface (v : dyn) (t : GoType)
    : gmap string dyn * bool :=
  if negb (convertible_to_map_string_interface t) then (∅, false)
  else (dyn_entries v, true).

(** The loop of [constructInputNamedArgs] over the names, for a map:
    [inr] is the name that the map lacks. *)
Fixpoint named_of_map (m : gmap string dyn) (names : list nameBinding)
    : list NamedArg + string :=
  match names with
  | [] => inl []
  | name :: names' =>
    match m !! nb_name name with
    | Some value =>
      match named_of_map m names' with
      | inl nameValues => inl ({| na_Name := nb_name name; na_Value := value |} :: nameValues)
      | inr missing => inr missing
      end
    | None => inr (nb_name name)
    end
  end.

(** [field.Value.Interface()]: a panic for a field that is not
    exported. *)
Definition field_Interface (arg : dyn) (field : sreflect.ReflectField) : outcome dyn :=
  if v_ro (sreflect.rf_Value field) then
    Panic "reflect.Value.Interface: cannot return value obtained from unexported field or method"
  else Return (dyn_field arg (sreflect.rf_Name field)).

(** The loop of [constructInputNamedArgs] over the names, for a struct:
    [inr] is the name that the struct has no field for. *)
Fixpoint named_of_struct (arg : dyn) (fields : gmap string sreflect.ReflectField)
    (names : list nameBinding) : outcome (list NamedArg + string) :=
  match names with
  | [] => Return (inl [])
  | name :: names' =>
    match fields !! nb_name name with
    | Some field =>
      fieldValue ← field_Interface arg field;
      rest ← named_of_struct arg fields names';
      match rest with
      | inl nameValues =>
        Return (inl ({| na_Name := nb_name name; na_Value := fieldValue |} :: nameValues))
      | inr missing => Return (inr missing)
      end
    | None => Return (inr (nb_name name))
    end
  end.

(** [constructInputNamedArgs].  [reflect.TypeOf] of the nil interface is
    nil, and its [Kind] a nil dereference. *)
Definition constructInputNamedArgs (arg : dyn) (names : list nameBinding)
    : outcome (list NamedArg * error) :=
  match dyn_iface arg with
  | None => Panic "invalid memory address or nil pointer dereference"
  | Some g =>
    let t := TypeOf g in
    let k := Type_Kind t in
    string_map ←
      (if bool_decide (k = Map) then
         key ← Type_Key t; Return (bool_decide (Type_Kind key = Basic String_kind))
       else Return false);
    if (string_map : bool) then
      let '(m, ok) := convertMapStringInterface arg t in
      if negb ok then
        Return ([], Some (Errorf "map type: %T not supported" [AStr (dyn_type_text arg)]))
      else
        match named_of_map m names with
        | inl nameValues => Return (nameValues, None)
        | inr missing => Return ([], Some (Errorf "key %q missing from map" [AStr missing]))
        end
    else if bool_decide (k = Array) || bool_decide (k = Slice) then
      Return ([], Some (Errorf "%q not supported" [AStr (Kind_String k)]))
    else
      '(ref, err) ← sreflect.Reflect (ValueOf (dyn_iface arg));
      match err with
      | Some _ => Return ([], err)
      | None =>
        match ref with
        | Some (sreflect.IsStruct refStruct) =>
          res ← named_of_struct arg (sreflect.rs_Fields refStruct) names;
          match res with
          | inl nameValues => Return (nameValues, None)
          | inr missing =>
            Return ([], Some (Errorf "field %q missing from type %T"
                                [AStr missing; AStr (dyn_type_text arg)]))
          end
        | _ => Return ([], Some (Errorf "%q not supported" [AStr (Kind_String k)]))
        end
      end
  end.

(** [constructNamedArguments]: the arguments for the driver, the named
    ones at the end. *)
Definition constructNamedArguments (stmt : string) (args : list dyn)
    : outcome (list argument * error) :=
  let offset := indexOfInputNamedArgs stmt in
  '(names, err) ← (if offset >=? 0 then parseNames stmt offset else Return ([], None));
  match err with
  | Some _ => Return ([], err)
  | None =>
    if (length args =? 0)%nat && (0 <? length names)%nat then
      Return ([], Some (Errorf "expected arguments for named parameters" []))
    else
      '(inputs, args, err) ←
        (if (0 <? length names)%nat && (1 <=? length args)%nat then
           match args with
           | first :: rest =>
             '(inputs, err) ← constructInputNamedArgs first names;
             Return (inputs, rest, err)
           | [] => Panic "index out of range [0] with length 0"
           end
         else Return ([], args, None));
      match err with
      | Some _ => Return ([], err)
      | None => Return (map Given args ++ map Named inputs, None)
      end
  end.
End Arguments.

End sqlair.

(** * The types and statements of the examples *)

Module examples.

(** An exported field of type [string] with the tag [db:"column"]. *)
Definition db_field (name column : string) : StructField GoType :=
  {| sf_Name := name; sf_PkgPath := ""; sf_Type := TBasic String_kind;
     sf_Tag := [("db", column)] |}.

(** [type Person struct { Name string `db:"name"`; Age int `db:"age"` }] *)
Definition Person : GoType :=
  TNamed "Person"
    (TStruct [db_field "Name" "name";
              {| sf_Name := "Age"; sf_PkgPath := ""; sf_Type := TBasic Int;
                 sf_Tag := [("db", "age")] |}]).

(** [type Location struct { City string `db:"city"` }] *)
Definition Location : GoType := TNamed "Location" (TStruct [db_field "City" "city"]).

(** [type Untagged struct { ID int64 }]: a field with no tag. *)
Definition Untagged : GoType :=
  TNamed "Untagged"
    (TStruct [{| sf_Name := "ID"; sf_PkgPath := ""; sf_Type := TBasic Int64;
                 sf_Tag := [] |}]).

(** [type Sparse struct { Name string `db:",omitempty"` }]: a tag that
    names no column. *)
Definition Sparse : GoType := TNamed "Sparse" (TStruct [db_field "Name" ",omitempty"]).

(** [type Odd struct { Name string `db:"name,required"` }] *)
Definition Odd : GoType := TNamed "Odd" (TStruct [db_field "Name" "name,required"]).

(** The address of a variable of type [T], as a destination. *)
Definition new (addr : nat) (T : GoType) : iface := Some (PointerTo addr (Val T)).

Section Entities.
Context `{U : UnicodeTables}.

(** The entity that reflecting a variable of a struct type gives. *)
Definition entity_of (addr : nat) (T : GoType) : sreflect.ReflectStruct :=
  match sreflect.Reflect (ValueOf (new addr T)) with
  | Return (Some (sreflect.IsStruct r), _) => r
  | _ => sreflect.zero_ReflectStruct
  end.
End Entities.

Definition join_stmt : string :=
  "SELECT {people.* INTO Person}, {location.* INTO Location} FROM people INNER JOIN location ON people.location=location.id".

Definition join_expanded : string :=
  "SELECT people.age, people.name, location.city FROM people INNER JOIN location ON people.location=location.id".

(** The bindings of the two record expressions of [join_stmt], with the
    offsets of their braces. *)
Definition join_bindings : list sqlair.recordBinding :=
  [{| sqlair.rb_name := "Person"; sqlair.rb_prefix := "people"; sqlair.rb_fields := ∅;
      sqlair.rb_wildcard := true; sqlair.rb_start := 7; sqlair.rb_end := 29 |};
   {| sqlair.rb_name := "Location"; sqlair.rb_prefix := "location";
      sqlair.rb_fields := ∅; sqlair.rb_wildcard := true; sqlair.rb_start := 31;
      sqlair.rb_end := 57 |}].

Definition names_stmt : string :=
  "SELECT :name FROM @table WHERE $id=1 AND ?42=2 AND ?=3;".

Definition cached_stmt : string :=
  "SELECT {test.* INTO Person} FROM test WHERE test.name=:name;".

(** A driver that answers every statement with the columns [age] and
    [name] and one row that scans without error. *)
Definition two_columns : sqlair.Tx := fun _ _ =>
  inl {| sqlair.rows_ColumnTypes :=
           ([{| sqlair.ct_Name := "age"; sqlair.ct_DatabaseTypeName := "INTEGER" |};
             {| sqlair.ct_Name := "name"; sqlair.ct_DatabaseTypeName := "TEXT" |}], None);
         sqlair.rows_Scan := [fun _ => None];
         sqlair.rows_Err := None |}.

(** [type Twice struct { First string `db:"id"`; Second string `db:"id"` }]:
    two fields filed under one column. *)
Definition Twice : GoType :=
  TNamed "Twice" (TStruct [db_field "First" "id"; db_field "Second" "id"]).

(** [map[string]interface{}] *)
Definition StringMap : GoType := TMap (TBasic String_kind) TInterface.

(** A driver that answers every statement with the column [name] and no
    row. *)
Definition one_column : sqlair.Tx := fun _ _ =>
  inl {| sqlair.rows_ColumnTypes :=
           ([{| sqlair.ct_Name := "name"; sqlair.ct_DatabaseTypeName := "TEXT" |}], None);
         sqlair.rows_Scan := [];
         sqlair.rows_Err := None |}.

(** Sample arguments of a query: a text, an integer, a
    [map[string]interface{}] of such values, and a [Person]. *)
#[warnings="-register-all"]
Inductive Sample : Type :=
| SText (s : string)
| SInt (z : Z)
| SMap (entries : list (string * Sample))
| SPerson (name : string) (age : Z).

Definition sample_values : sqlair.GoValues := {|
  sqlair.dyn := Sample;
  sqlair.dyn_iface := fun v =>
    match v with
    | SText _ => Some (Val (TBasic String_kind))
    | SInt _ => Some (Val (TBasic Int))
    | SMap _ => Some (Val StringMap)
    | SPerson _ _ => Some (Val Person)
    end;
  sqlair.dyn_entries := fun v =>
    match v with
    | SMap entries => list_to_map entries
    | _ => ∅
    end;
  sqlair.dyn_field := fun v field =>
    match v with
    | SPerson name age => if String.eqb field "Name" then SText name else SInt age
    | _ => v
    end;
  sqlair.dyn_type_text := fun v =>
    match v with
    | SText _ => "string"
    | SInt _ => "int"
    | SMap _ => "map[string]interface {}"
    | SPerson _ _ => "examples.Person"
    end
|}.

Definition named_stmt : string :=
  "SELECT * FROM people WHERE name=:name AND age=:age".

End examples.

(** * The vocabulary of the properties *)

Section Vocabulary.
Context `{U : UnicodeTables}.
Import sqlair.

(** The binding of a prefix and a name. *)
Definition binding (prefix : rune) (name : string) : nameBinding :=
  {| nb_prefix := prefix; nb_name := name |}.

(** A binding of the prefix '?' with an empty name. *)
Definition bare_question (b : nameBinding) : Prop :=
  nb_prefix b = 63 /\ nb_name b = "".

#[global] Instance bare_question_dec b : Decision (bare_question b).
Proof. unfold bare_question. apply _. Defined.

(** The statement's last byte is '?'. *)
Definition ends_in_question (stmt : string) : Prop :=
  byte_at stmt (len stmt - 1) = Return 63.

(** The plan and the error of a call of [ForOne] or [ForMany]. *)
Definition plan_and_error (o : outcome (Query * error * Querier))
    : outcome (option ExecutePlan * error) :=
  (fun '(qy, err, _) => (executePlan qy, err)) <$> o.

(** The query and the error of a call of [ForOne] or [ForMany]. *)
Definition query_and_error (o : outcome (Query * error * Querier))
    : outcome (Query * error) :=
  (fun '(qy, err, _) => (qy, err)) <$> o.

(** A step that neither compiles nor touches the statement cache. *)
Definition unchanged_cache (q q' : Querier) : Prop :=
  q_compiled q' = q_compiled q /\ q_stmtCache q' = q_stmtCache q.

(** What a run leaves behind: the error of its last call, the number of
    calls of [compileStatement], the statements handed to the hook, and
    the entries of the statement cache. *)
Definition observe (o : outcome (error * Querier))
    : outcome (error * nat * list string * list (string * cachedStmt)) :=
  (fun '(err, q) => (err, q_compiled q, q_hooked q, map_to_list (q_stmtCache q))) <$> o.

(** A query bound by [bind] and run twice on the same statement. *)
Definition run_twice (bind : Querier -> list iface -> outcome (Query * error * Querier))
    (values : list iface) (tx : Tx) (stmt : string) : outcome (error * Querier) :=
  '(qy, _, q) ← bind NewQuerier values;
  '(_, q) ← executePlan_call qy q tx stmt [];
  executePlan_call qy q tx stmt [].

(** The column a field is filed under when its tag parses to [tag]. *)
Definition column_key (field : StructField GoType) (tag : sreflect.ReflectTag) : string :=
  if String.eqb (sreflect.rt_Name tag) "" then strings_ToLower (sf_Name field)
  else sreflect.rt_Name tag.

(** The declared column types that [zeroScanType] knows. *)
Definition known_column_types : list string :=
  ["TEXT"; "INTEGER"; "BOOL"; "REAL"; "NUMERIC"; "BLOB"].

(** [v.Addr().Interface()] returns: the value is addressable and was not
    reached through an unexported field. *)
Definition addressable_exported (v : Value) : Prop :=
  is_Some (v_loc v) /\ v_ro v = false.

#[global] Instance addressable_exported_dec v : Decision (addressable_exported v).
Proof. unfold addressable_exported. apply _. Defined.

(** Every field of the entity can be handed to [rows.Scan]: the entity
    was reflected from a pointer and its fields are exported. *)
Definition scannable (entity : sreflect.ReflectStruct) : Prop :=
  map_Forall (fun _ field => addressable_exported (sreflect.rf_Value field))
             (sreflect.rs_Fields entity).

(** The parts of a column name after the alias prefix. *)
Definition alias_parts (columnName : string) : list string :=
  strings_Split (String.substring 5 (String.length columnName - 5) columnName)
                AliasSeparator.

(** A column name that begins with the alias prefix holds the separator
    after it. *)
Definition alias_has_separator (column : ColumnType) : Prop :=
  strings_HasPrefix (ct_Name column) AliasPrefix = true ->
  (2 <= length (alias_parts (ct_Name column)))%nat.

(** The column a field is filed under. *)
Definition field_key (field : StructField GoType) : string :=
  column_key field (sreflect.parseTag (Tag_Get (sf_Tag field) "db")).1.

(** The entry that [Reflect] makes for a field of the struct [value]. *)
Definition field_entry (value : Value) (field : StructField GoType)
    : sreflect.ReflectField :=
  {| sreflect.rf_Name := sf_Name field;
     sreflect.rf_Tag := (sreflect.parseTag (Tag_Get (sf_Tag field) "db")).1;
     sreflect.rf_Value := Value_Field value field |}.

(** The fields of a struct type that are filed under the column [k]. *)
Definition fields_of_column (k : string) (fields : list (StructField GoType))
    : list (StructField GoType) :=
  filter (fun f => field_key f = k) fields.

(** The destinations after the first are of one kind: every two
    neighbours from index 1 on agree. *)
Definition same_kind_after_first (entities : list sreflect.ReflectInfo) : Prop :=
  forall (i : nat) a b,
    (1 <= i)%nat -> entities !! i = Some a -> entities !! S i = Some b ->
    sreflect.ReflectInfo_Kind a = sreflect.ReflectInfo_Kind b.

(** The byte at index [j] of the statement is one of the four prefixes. *)
Definition prefix_at (stmt : string) (j : Z) : Prop :=
  exists c, byte_at stmt j = Return c /\ is_Some (prefixes c).

(** The name that a run of characters spells: each is appended as
    [string(char)]. *)
Fixpoint spelled (chars : list rune) : string :=
  match chars with
  | [] => ""
  | c :: chars' => string_of_rune c +:+ spelled chars'
  end.

(** A binding whose prefix is one of the four and whose name is spelled
    by characters that the prefix allows. *)
Definition well_formed_binding (b : nameBinding) : Prop :=
  exists predicate chars,
    prefixes (nb_prefix b) = Some predicate /\
    Forall (fun c => predicate c = true) chars /\
    nb_name b = spelled chars.

(** No occurrence of [sep] begins among the first [n] bytes of [s]. *)
Fixpoint no_occurrence_in (sep s : string) (n : nat) : bool :=
  match n, s with
  | S n', String _ s' => negb (String.prefix sep s) && no_occurrence_in sep s' n'
  | _, _ => true
  end.

(** An entity that [structMapping] passes over for a column: it has no
    field of the name, or the column has a prefix that no binding of the
    entity carries. *)
Definition passes_over (columnName prefix : string) (fields : list recordBinding)
    (entity : sreflect.ReflectStruct) : Prop :=
  sreflect.rs_Fields entity !! columnName = None \/
  (prefix <> "" /\
   forall binding, binding ∈ fields ->
     ~ (rb_name binding = sreflect.rs_Name entity /\ rb_prefix binding = prefix)).

(** The destination that [structMapping] hands to the driver for a
    column: the address of the field of the column's name in the first
    entity that it does not pass over. *)
Definition destination_of (structs : list sreflect.ReflectStruct)
    (fields : list recordBinding) (column : ColumnType) (target : ScanTarget) : Prop :=
  exists columnName prefix before entity after field loc,
    split_alias (ct_Name column) = Return (columnName, prefix) /\
    structs = before ++ entity :: after /\
    Forall (passes_over columnName prefix fields) before /\
    sreflect.rs_Fields entity !! columnName = Some field /\
    ~ passes_over columnName prefix fields entity /\
    Value_Addr_Interface (sreflect.rf_Value field) = Return loc /\
    target = TargetAt loc.

(** A binding with its record expression at other offsets. *)
Definition moved (record : recordBinding) (start end_ : Z) : recordBinding :=
  {| rb_name := rb_name record; rb_prefix := rb_prefix record;
     rb_fields := rb_fields record; rb_wildcard := rb_wildcard record;
     rb_start := start; rb_end := end_ |}.

(** A binding whose record expression lies [n] bytes further into the
    statement. *)
Definition shift (n : Z) (record : recordBinding) : recordBinding :=
  moved record (rb_start record + n) (rb_end record + n).

(** The entity has a field filed under the column. *)
Definition has_column (column : string) (entity : sreflect.ReflectStruct) : Prop :=
  is_Some (sreflect.rs_Fields entity !! column).

#[global] Instance has_column_dec column entity : Decision (has_column column entity).
Proof. unfold has_column. apply _. Defined.

(** The entities that have the column, in their order, as the first pass
    of [fieldIntersections] files them: no entry when there is none. *)
Definition group_of (column : string) (structs : list sreflect.ReflectStruct)
    : option (list sreflect.ReflectStruct) :=
  match filter (has_column column) structs with
  | [] => None
  | group => Some group
  end.

(** The string holds no occurrence of [sep]. *)
Definition free_of (sep s : string) : Prop :=
  no_occurrence_in sep s (String.length s) = true.

(** *** The lexer and the parser *)

(** A lexer that has read its current rune: [char] is the rune at
    [position], or 0 past the end of the input, and [readPosition] is the
    next index. *)
Definition lexer_ok (l : parser.Lexer) : Prop :=
  0 <= parser.position l /\
  parser.readPosition l = parser.position l + 1 /\
  parser.char l =
    if parser.position l <? Z.of_nat (length (parser.input l))
    then parser.rune_at (parser.input l) (parser.position l) else 0.

(** The runes of the input from the current one on. *)
Definition remaining (l : parser.Lexer) : nat :=
  Z.to_nat (Z.of_nat (length (parser.input l)) - parser.position l).

(** A parser whose two tokens are the last two of its lexer: after an
    [EOF] token the lexer stays at the end of its input. *)
Definition parser_ok (p : parser.Parser) : Prop :=
  lexer_ok (parser.lex p) /\
  (parser.Type_ (parser.peekToken p) = parser.EOF -> parser.char (parser.lex p) = 0) /\
  (parser.Type_ (parser.currentToken p) = parser.EOF ->
   parser.Type_ (parser.peekToken p) = parser.EOF).

(** The tokens that the parser has still to pass: its two tokens, unless
    they are [EOF], and at most one for every rune that remains. *)
Definition pending (p : parser.Parser) : nat :=
  ((if bool_decide (parser.Type_ (parser.currentToken p) = parser.EOF) then 0 else 1) +
   (if bool_decide (parser.Type_ (parser.peekToken p) = parser.EOF) then 0 else 1) +
   remaining (parser.lex p))%nat.

(** The parser [p'] is the parser [p] further on in the same input. *)
Definition passes (p p' : parser.Parser) : Prop :=
  parser_ok p' /\
  parser.input (parser.lex p') = parser.input (parser.lex p) /\
  (pending p' <= pending p)%nat.

End Vocabulary.

(** * The lexer and the parser stop *)

Section Termination.
Context `{U : UnicodeTables}.
Import parser.

Lemma ReadNext_input (l : Lexer) : input (ReadNext l) = input l.
Proof.
  unfold ReadNext. destruct (readPosition l >=? Z.of_nat (length (input l))); [done|].
  by destruct (rune_at (input l) (readPosition l) =? 10).
Qed.

Lemma ReadNext_position (l : Lexer) : position (ReadNext l) = readPosition l.
Proof.
  unfold ReadNext. destruct (readPosition l >=? Z.of_nat (length (input l))); [done|].
  by destruct (rune_at (input l) (readPosition l) =? 10).
Qed.

Lemma ReadNext_readPosition (l : Lexer) : readPosition (ReadNext l) = readPosition l + 1.
Proof.
  unfold ReadNext. destruct (readPosition l >=? Z.of_nat (length (input l))); [done|].
  by destruct (rune_at (input l) (readPosition l) =? 10).
Qed.

Lemma ReadNext_char (l : Lexer) :
  char (ReadNext l) =
  if readPosition l >=? Z.of_nat (length (input l)) then 0
  else rune_at (input l) (readPosition l).
Proof.
  unfold ReadNext. destruct (readPosition l >=? Z.of_nat (length (input l))); [done|].
  by destruct (rune_at (input l) (readPosition l) =? 10).
Qed.

Lemma ReadNext_ok (l : Lexer) : 0 <= readPosition l -> lexer_ok (ReadNext l).
Proof.
  intros H. unfold lexer_ok.
  rewrite ReadNext_input, ReadNext_position, ReadNext_readPosition, ReadNext_char.
  split; [done|]. split; [done|].
  destruct (readPosition l >=? _) eqn:E1, (readPosition l <? _) eqn:E2; try done; lia.
Qed.

Lemma ReadNext_ok' (l : Lexer) : lexer_ok l -> lexer_ok (ReadNext l).
Proof. intros (H1 & H2 & _). apply ReadNext_ok. lia. Qed.

Lemma ReadNext_remaining (l : Lexer) :
  lexer_ok l -> remaining (ReadNext l) = (remaining l - 1)%nat.
Proof.
  intros (H1 & H2 & _). unfold remaining.
  rewrite ReadNext_input, ReadNext_position. lia.
Qed.

Lemma char_remaining (l : Lexer) : lexer_ok l -> char l <> 0 -> (1 <= remaining l)%nat.
Proof.
  intros (H1 & H2 & H3) Hc. unfold remaining.
  destruct (position l <? _) eqn:E; [lia|congruence].
Qed.

Lemma remaining_le (l : Lexer) : lexer_ok l -> (remaining l <= length (input l))%nat.
Proof. intros (H1 & _). unfold remaining. lia. Qed.

(** The loops of the lexer stop: they go on only at a rune that is not
    0, and every rune they pass is one less that remains. *)
Lemma skipWhitespace_loop_returns :
  forall (fuel : nat) (l : Lexer) (skipped : bool),
    lexer_ok l -> (remaining l < fuel)%nat ->
    exists l' skipped',
      skipWhitespace_loop fuel l skipped = Return (l', skipped') /\
      lexer_ok l' /\ input l' = input l /\
      ((l' = l /\ skipped' = skipped) \/
       (skipped' = true /\ (remaining l' < remaining l)%nat)).
Proof.
  induction fuel as [|fuel IH]; intros l skipped Hok Hfuel; [lia|]. simpl.
  destruct (unicode_IsSpace (char l)) eqn:Hspace; [|by eauto 10].
  assert (char l <> 0) as Hc by (intros Hc; by rewrite Hc in Hspace).
  pose proof (char_remaining l Hok Hc) as Hrem.
  pose proof (ReadNext_remaining l Hok) as Hnext.
  destruct (IH (ReadNext l) true) as (l' & skipped' & -> & Hok' & Hin & H);
    [by apply ReadNext_ok'|lia|].
  exists l', skipped'. split; [done|]. split; [done|].
  split; [by rewrite Hin, ReadNext_input|]. right.
  destruct H as [[-> ->]|[-> H]]; (split; [done|lia]).
Qed.

Lemma readIdentifier_loop_returns :
  forall (fuel : nat) (l : Lexer),
    lexer_ok l -> (remaining l < fuel)%nat ->
    exists l',
      readIdentifier_loop fuel l = Return l' /\
      lexer_ok l' /\ input l' = input l /\ (remaining l' <= remaining l)%nat /\
      (isLetter (char l) = true -> (remaining l' < remaining l)%nat).
Proof.
  induction fuel as [|fuel IH]; intros l Hok Hfuel; [lia|]. simpl.
  destruct (isLetter (char l) || isDigit (char l) || (char l =? 45)) eqn:Hcond.
  - assert (char l <> 0) as Hc by (intros Hc; by rewrite Hc in Hcond).
    pose proof (char_remaining l Hok Hc) as Hrem.
    pose proof (ReadNext_remaining l Hok) as Hnext.
    destruct (IH (ReadNext l)) as (l' & -> & Hok' & Hin & Hle & _);
      [by apply ReadNext_ok'|lia|].
    exists l'. split; [done|]. split; [done|].
    split; [by rewrite Hin, ReadNext_input|]. split; [lia|]. intros _. lia.
  - exists l. split; [done|]. split; [done|]. split; [done|]. split; [done|].
    intros Hl. rewrite Hl in Hcond. discriminate.
Qed.

Lemma readNumber_loop_returns :
  forall (fuel : nat) (l : Lexer) (ret : list rune),
    lexer_ok l -> (remaining l < fuel)%nat ->
    exists l' literal,
      readNumber_loop fuel l ret = Return (l', literal) /\
      lexer_ok l' /\ input l' = input l /\ (remaining l' <= remaining l)%nat.
Proof.
  induction fuel as [|fuel IH]; intros l ret Hok Hfuel; [lia|]. simpl.
  destruct (isDigit (char l) || (char l =? 46)) eqn:Hcond; [|by eauto 10].
  destruct ((char l =? 46) && (Peek l =? 46)); [by eauto 10|].
  assert (char l <> 0) as Hc by (intros Hc; by rewrite Hc in Hcond).
  pose proof (char_remaining l Hok Hc) as Hrem.
  pose proof (ReadNext_remaining l Hok) as Hnext.
  destruct (IH (ReadNext l) (ret ++ [char l])) as (l' & literal & -> & Hok' & Hin & Hle);
    [by apply ReadNext_ok'|lia|].
  exists l', literal. split; [done|]. split; [done|].
  split; [by rewrite Hin, ReadNext_input|]. lia.
Qed.

Lemma readString_loop_returns (r : rune) :
  forall (fuel : nat) (l : Lexer) (ret : list rune),
    lexer_ok l -> (remaining l < fuel)%nat ->
    exists l' res,
      readString_loop fuel l r ret = Return (l', res) /\
      lexer_ok l' /\ input l' = input l /\
      (remaining l' <= remaining (ReadNext l))%nat.
Proof.
  induction fuel as [|fuel IH]; intros l ret Hok Hfuel; [lia|]. simpl.
  pose proof (ReadNext_ok' l Hok) as Hok1.
  pose proof (ReadNext_remaining l Hok) as Hnext.
  pose proof (ReadNext_input l) as Hin1.
  destruct (char (ReadNext l) =? 10); [by eauto 10|].
  destruct (char (ReadNext l) =? 0) eqn:H0; [by eauto 10|].
  destruct (char (ReadNext l) =? r).
  - exists (ReadNext (ReadNext l)). eexists. split; [done|].
    split; [by apply ReadNext_ok'|]. split; [by rewrite !ReadNext_input|].
    rewrite (ReadNext_remaining (ReadNext l)) by done. lia.
  - apply Z.eqb_neq in H0. pose proof (char_remaining _ Hok1 H0) as Hrem.
    destruct (IH (ReadNext l) (ret ++ [char (ReadNext l)]))
      as (l' & res & -> & Hok' & Hin & Hle); [done|lia|].
    exists l', res. split; [done|]. split; [done|].
    split; [by rewrite Hin|]. rewrite (ReadNext_remaining (ReadNext l)) in Hle by done. lia.
Qed.

(** At the end of its input the lexer answers [EOF] and stays where it
    is. *)
Lemma NextToken_at_eof (l : Lexer) :
  char l = 0 ->
  exists tok, NextToken l = Return (l, tok) /\ Type_ tok = EOF.
Proof.
  intros Hc. unfold NextToken, skipWhitespace, lexer_fuel. simpl.
  rewrite Hc. simpl. unfold readRunesToken. rewrite Hc. simpl. eauto.
Qed.

Lemma tokenMap_not_EOF (c : rune) (t : TokenType) : tokenMap c = Some t -> t <> EOF.
Proof.
  unfold tokenMap.
  repeat match goal with
         | |- context [if ?b then _ else _] => destruct b
         end; intros H; by simplify_eq.
Qed.

(** Before the end of its input the lexer answers a token that is not
    [EOF] and passes at least one rune. *)
Lemma NextToken_progress (l : Lexer) :
  lexer_ok l -> char l <> 0 ->
  exists l' tok,
    NextToken l = Return (l', tok) /\
    lexer_ok l' /\ input l' = input l /\
    (remaining l' < remaining l)%nat /\ Type_ tok <> EOF.
Proof.
  intros Hok Hc. unfold NextToken, skipWhitespace.
  pose proof (char_remaining l Hok Hc) as Hrem.
  pose proof (ReadNext_remaining l Hok) as Hnext.
  pose proof (remaining_le l Hok) as Hle.
  destruct (skipWhitespace_loop_returns (lexer_fuel l) l false Hok)
    as (l1 & skipped & -> & Hok1 & Hin1 & H1); [unfold lexer_fuel; lia|].
  simpl. destruct H1 as [[-> ->]|[-> Hlt]].
  - destruct (tokenMap (char l)) as [t|] eqn:Ht.
    + eexists _, _. split; [done|]. split; [by apply ReadNext_ok'|].
      split; [apply ReadNext_input|]. split; [lia|].
      simpl. by eapply tokenMap_not_EOF.
    + unfold readRunesToken. rewrite (proj2 (Z.eqb_neq _ _) Hc).
      destruct (isDigit (char l)).
      { unfold readNumber.
        destruct (readNumber_loop_returns (lexer_fuel (ReadNext l)) (ReadNext l) [char l])
          as (l' & literal & Hr & Hok' & Hin & Hle'); [by apply ReadNext_ok'| |].
        { unfold lexer_fuel. rewrite ReadNext_input. lia. }
        unfold lexer_fuel in *. rewrite ReadNext_input in Hr. rewrite Hr. simpl.
        eexists _, _. split; [done|]. split; [done|].
        split; [by rewrite Hin, ReadNext_input|]. split; [lia|done]. }
      destruct (isLetter (char l)) eqn:Hletter.
      { unfold readIdentifier.
        destruct (readIdentifier_loop_returns (lexer_fuel l) l Hok)
          as (l' & -> & Hok' & Hin & _ & Hlt); [unfold lexer_fuel; lia|].
        simpl. eexists _, _. split; [done|]. split; [done|]. split; [done|].
        split; [by apply Hlt|done]. }
      destruct (isQuote (char l)).
      { unfold readString.
        destruct (readString_loop_returns (char l) (lexer_fuel l) l [] Hok)
          as (l' & res & -> & Hok' & Hin & Hle'); [unfold lexer_fuel; lia|].
        simpl. destruct res as [s|e].
        - eexists _, _. split; [done|]. split; [done|]. split; [done|].
          split; [lia|done].
        - eexists _, _. split; [done|]. split; [by apply ReadNext_ok'|].
          split; [by rewrite ReadNext_input|].
          rewrite (ReadNext_remaining l') by done. split; [lia|done]. }
      eexists _, _. split; [done|]. split; [by apply ReadNext_ok'|].
      split; [apply ReadNext_input|]. split; [lia|done].
  - eexists _, _. split; [done|]. split; [by apply ReadNext_ok'|].
    split; [by rewrite ReadNext_input|].
    rewrite (ReadNext_remaining l1) by done. split; [lia|done].
Qed.

(** *** The parser passes its tokens *)

Lemma nextToken_step (p : Parser) :
  lexer_ok (lex p) ->
  exists p',
    nextToken p = Return p' /\
    lexer_ok (lex p') /\ input (lex p') = input (lex p) /\
    currentToken p' = peekToken p /\
    ((char (lex p) = 0 /\ lex p' = lex p /\ Type_ (peekToken p') = EOF) \/
     (char (lex p) <> 0 /\ Type_ (peekToken p') <> EOF /\
      (remaining (lex p') < remaining (lex p))%nat)).
Proof.
  intros Hok. unfold nextToken. destruct (decide (char (lex p) = 0)) as [Hc|Hc].
  - destruct (NextToken_at_eof _ Hc) as (tok & -> & Htok). simpl.
    eexists. split; [done|]. simpl. split; [done|]. split; [done|]. split; [done|].
    by left.
  - destruct (NextToken_progress _ Hok Hc) as (l' & tok & -> & Hok' & Hin & Hlt & Htok).
    simpl. eexists. split; [done|]. simpl. split; [done|]. split; [done|].
    split; [done|]. by right.
Qed.

Lemma nextToken_ok (p : Parser) :
  parser_ok p ->
  exists p',
    nextToken p = Return p' /\
    parser_ok p' /\ input (lex p') = input (lex p) /\
    currentToken p' = peekToken p /\
    (pending p' + (if bool_decide (Type_ (currentToken p) = EOF) then 0 else 1)
     <= pending p)%nat.
Proof.
  intros (Hok & Hpeek & Hcur).
  destruct (nextToken_step p Hok) as (p' & Hp' & Hok' & Hin & Hcur' & H).
  exists p'. split; [done|]. unfold parser_ok, pending. rewrite Hcur'.
  destruct H as [(Hc & Hlex & Hpeek')|(Hc & Hpeek' & Hlt)].
  - split; [|split; [done|split; [done|]]].
    + split; [done|]. split; [intros _; by rewrite Hlex|done].
    + rewrite Hlex. rewrite (bool_decide_eq_true_2 _ Hpeek').
      destruct (bool_decide (Type_ (currentToken p) = EOF)),
               (bool_decide (Type_ (peekToken p) = EOF)); lia.
  - split; [|split; [done|split; [done|]]].
    + split; [done|]. split; [done|]. intros Hp. by apply Hpeek in Hp.
    + rewrite (bool_decide_eq_false_2 _ Hpeek').
      destruct (bool_decide (Type_ (peekToken p) = EOF)) eqn:Hp.
      * apply bool_decide_eq_true in Hp. by apply Hpeek in Hp.
      * destruct (bool_decide (Type_ (currentToken p) = EOF)); lia.
Qed.

Lemma add_error_ok (p : Parser) (msg : message) :
  parser_ok (add_error p msg) = parser_ok p /\
  pending (add_error p msg) = pending p /\
  lex (add_error p msg) = lex p.
Proof. done. Qed.

Lemma set_terminated_ok (p : Parser) :
  parser_ok (set_terminated p) = parser_ok p /\
  pending (set_terminated p) = pending p /\
  lex (set_terminated p) = lex p /\
  currentToken (set_terminated p) = currentToken p.
Proof. done. Qed.

(** The equations of the five methods of the parser. *)
Lemma parseExpression_S (fuel : nat) (p : Parser) (prec : Z) :
  parseExpression (S fuel) p prec =
  match prefix (Type_ (currentToken p)) with
  | None =>
    if terminated p then Return (p, Nil)
    else if bool_decide (Type_ (currentToken p) <> EOF) then
      Return (add_error p
        ("Syntax Error:%v invalid character '%s' found",
         pos_args (Pos (currentToken p)) ++
         [AStr (TokenType_String (Type_ (currentToken p)))]), Nil)
    else Return (p, Nil)
  | Some f =>
    '(p, leftExp) ←
      match f with
      | PrefixIdentifier => Return (parseIdentifier p)
      | PrefixInteger => Return (parseInteger p)
      | PrefixString => Return (parseString p)
      | PrefixGroup => parseGroup fuel p
      end;
    parseExpression_loop fuel p prec leftExp
  end.
Proof. reflexivity. Qed.

Lemma parseExpression_loop_S (fuel : nat) (p : Parser) (prec : Z) (leftExp : Expression) :
  parseExpression_loop (S fuel) p prec leftExp =
  if negb (isPeekToken p SEPARATOR) && (prec <? peekPrecedence p) then
    match infix (Type_ (peekToken p)) with
    | None => Return (p, leftExp)
    | Some f =>
      p ← nextToken p;
      '(p, leftExp) ←
        match f with
        | InfixAccessor => parseAccessor fuel p leftExp
        | InfixIndex => parseIndex fuel p leftExp
        end;
      parseExpression_loop fuel p prec leftExp
    end
  else Return (p, leftExp).
Proof. reflexivity. Qed.

Lemma parseGroup_S (fuel : nat) (p : Parser) :
  parseGroup (S fuel) p =
  p ← nextToken p;
  if bool_decide (Type_ (currentToken p) = LPAREN) && isCurrentToken p RPAREN then
    Return (p, Empty (currentToken p))
  else
    '(p, exp) ← parseExpression fuel p LOWEST;
    '(p, ok) ← expectPeek p RPAREN;
    if (ok : bool) then Return (p, exp) else Return (p, Nil).
Proof. reflexivity. Qed.

Lemma parseIndex_S (fuel : nat) (p : Parser) (left_ : Expression) :
  parseIndex (S fuel) p left_ =
  p ← nextToken p;
  let tok := currentToken p in
  '(p, index) ← parseExpression fuel p LOWEST;
  '(p, ok) ← expectPeek p RBRACKET;
  if (ok : bool) then Return (p, IndexExpression tok "" left_ index)
  else Return (p, Nil).
Proof. reflexivity. Qed.

Lemma parseAccessor_S (fuel : nat) (p : Parser) (left_ : Expression) :
  parseAccessor (S fuel) p left_ =
  let prec := currentPrecedence p in
  p ← nextToken p;
  '(p, right_) ← parseExpression fuel p prec;
  Return (p, AccessorExpression (currentToken p) right_ left_).
Proof. reflexivity. Qed.

Lemma expectPeek_ok (p : Parser) (t : TokenType) :
  parser_ok p ->
  exists p' ok,
    expectPeek p t = Return (p', ok) /\
    parser_ok p' /\ input (lex p') = input (lex p) /\ (pending p' <= pending p)%nat.
Proof.
  intros Hok. unfold expectPeek. destruct (isPeekToken p t).
  - destruct (nextToken_ok p Hok) as (p' & -> & Hok' & Hin & _ & Hle). simpl.
    exists p', true. split; [done|]. split; [done|]. split; [done|]. lia.
  - eexists _, _. split; [done|]. by split.
Qed.

Lemma passes_trans (p1 p2 p3 : Parser) : passes p1 p2 -> passes p2 p3 -> passes p1 p3.
Proof.
  intros (_ & Hin1 & Hle1) (Hok & Hin2 & Hle2). split; [done|].
  split; [congruence|lia].
Qed.

Lemma passes_refl (p : Parser) : parser_ok p -> passes p p.
Proof. by intros H. Qed.

Lemma passes_add_error (p : Parser) (msg : message) :
  parser_ok p -> passes p (add_error p msg).
Proof. by intros H. Qed.

(** The methods of the parser return when their fuel is twice the
    tokens that the parser has still to pass, and two more. *)
Lemma parser_returns :
  forall fuel : nat,
    (forall p prec,
       parser_ok p -> (2 * pending p + 2 <= fuel)%nat ->
       exists p' e, parseExpression fuel p prec = Return (p', e) /\ passes p p') /\
    (forall p prec leftExp,
       parser_ok p -> (2 * pending p + 1 <= fuel)%nat ->
       exists p' e, parseExpression_loop fuel p prec leftExp = Return (p', e) /\
                    passes p p') /\
    (forall p,
       parser_ok p -> Type_ (currentToken p) <> EOF -> (2 * pending p + 1 <= fuel)%nat ->
       exists p' e, parseGroup fuel p = Return (p', e) /\ passes p p') /\
    (forall p left_,
       parser_ok p -> Type_ (currentToken p) <> EOF -> (2 * pending p + 1 <= fuel)%nat ->
       exists p' e, parseIndex fuel p left_ = Return (p', e) /\ passes p p') /\
    (forall p left_,
       parser_ok p -> Type_ (currentToken p) <> EOF -> (2 * pending p + 1 <= fuel)%nat ->
       exists p' e, parseAccessor fuel p left_ = Return (p', e) /\ passes p p').
Proof.
  induction fuel as [|fuel (IHexp & IHloop & IHgroup & IHindex & IHacc)].
  { repeat split; intros; lia. }
  assert (Hnext : forall p,
    parser_ok p -> Type_ (currentToken p) <> EOF ->
    exists p1, nextToken p = Return p1 /\ passes p p1 /\
               currentToken p1 = peekToken p /\ (pending p1 + 1 <= pending p)%nat).
  { intros p Hok Hcur. destruct (nextToken_ok p Hok) as (p1 & Hp1 & Hok1 & Hin1 & Hc1 & Hle).
    rewrite (bool_decide_eq_false_2 _ Hcur) in Hle.
    exists p1. split; [done|]. split; [|split; [done|lia]]. split; [done|]. split; [done|lia]. }
  split; [|split; [|split; [|split]]].
  - intros p prec Hok Hfuel. rewrite parseExpression_S.
    destruct (prefix (Type_ (currentToken p))) as [f|] eqn:Hprefix.
    + assert (exists p1 e1,
        match f with
        | PrefixIdentifier => Return (parseIdentifier p)
        | PrefixInteger => Return (parseInteger p)
        | PrefixString => Return (parseString p)
        | PrefixGroup => parseGroup fuel p
        end = Return (p1, e1) /\ passes p p1) as (p1 & e1 & -> & Hp1).
      { destruct f.
        - eexists _, _. split; [done|]. by apply passes_refl.
        - unfold parseInteger. destruct (ParseInt _) as [value [|]];
            eexists _, _; (split; [done|]);
            first [by apply passes_refl|by apply passes_add_error].
        - eexists _, _. split; [done|]. by apply passes_refl.
        - apply IHgroup; [done| |lia]. intros Heof. by rewrite Heof in Hprefix. }
      simpl. destruct Hp1 as (Hok1 & Hin1 & Hle1).
      destruct (IHloop p1 prec e1 Hok1) as (p2 & e2 & -> & Hp2); [lia|].
      exists p2, e2. split; [done|]. by apply (passes_trans p p1 p2).
    + destruct (terminated p); [eexists _, _; split; [done|]; by apply passes_refl|].
      destruct (bool_decide _); eexists _, _; (split; [done|]);
        first [by apply passes_refl|by apply passes_add_error].
  - intros p prec leftExp Hok Hfuel. rewrite parseExpression_loop_S.
    destruct (negb (isPeekToken p SEPARATOR) && (prec <? peekPrecedence p));
      [|eexists _, _; split; [done|]; by apply passes_refl].
    destruct (infix (Type_ (peekToken p))) as [f|] eqn:Hinfix;
      [|eexists _, _; split; [done|]; by apply passes_refl].
    assert (Type_ (peekToken p) <> EOF) as Hpeek
      by (intros Heof; by rewrite Heof in Hinfix).
    assert (Type_ (currentToken p) <> EOF) as Hcur.
    { intros Heof. destruct Hok as (_ & _ & Hc). by apply Hc in Heof. }
    destruct (Hnext p Hok Hcur) as (p1 & -> & Hp1 & Hc1 & Hle1). simpl.
    assert (exists p2 e2,
      match f with
      | InfixAccessor => parseAccessor fuel p1 leftExp
      | InfixIndex => parseIndex fuel p1 leftExp
      end = Return (p2, e2) /\ passes p1 p2) as (p2 & e2 & -> & Hp2).
    { destruct Hp1 as (Hok1 & _).
      destruct f; [apply IHacc|apply IHindex]; try done; try lia; by rewrite Hc1. }
    simpl. destruct Hp2 as (Hok2 & Hin2 & Hle2).
    destruct (IHloop p2 prec e2 Hok2) as (p3 & e3 & -> & Hp3); [lia|].
    exists p3, e3. split; [done|].
    apply (passes_trans p p1 p3); [done|]. by apply (passes_trans p1 p2 p3).
  - intros p Hok Hcur Hfuel. rewrite parseGroup_S.
    destruct (Hnext p Hok Hcur) as (p1 & -> & Hp1 & Hc1 & Hle1). simpl.
    destruct (bool_decide _ && isCurrentToken p1 RPAREN);
      [by eexists _, _|].
    destruct Hp1 as (Hok1 & Hin1 & Hle1').
    destruct (IHexp p1 LOWEST Hok1) as (p2 & e2 & -> & Hp2); [lia|]. simpl.
    destruct Hp2 as (Hok2 & Hin2 & Hle2).
    destruct (expectPeek_ok p2 RPAREN Hok2) as (p3 & ok & -> & Hok3 & Hin3 & Hle3).
    simpl. assert (passes p p3) as Hp3 by (split; [done|split; [congruence|lia]]).
    destruct ok; by eexists _, _.
  - intros p left_ Hok Hcur Hfuel. rewrite parseIndex_S.
    destruct (Hnext p Hok Hcur) as (p1 & -> & Hp1 & Hc1 & Hle1). simpl.
    destruct Hp1 as (Hok1 & Hin1 & Hle1').
    destruct (IHexp p1 LOWEST Hok1) as (p2 & e2 & -> & Hp2); [lia|]. simpl.
    destruct Hp2 as (Hok2 & Hin2 & Hle2).
    destruct (expectPeek_ok p2 RBRACKET Hok2) as (p3 & ok & -> & Hok3 & Hin3 & Hle3).
    simpl. assert (passes p p3) as Hp3 by (split; [done|split; [congruence|lia]]).
    destruct ok; by eexists _, _.
  - intros p left_ Hok Hcur Hfuel. rewrite parseAccessor_S.
    destruct (Hnext p Hok Hcur) as (p1 & -> & Hp1 & Hc1 & Hle1). simpl.
    destruct Hp1 as (Hok1 & Hin1 & Hle1').
    destruct (IHexp p1 (currentPrecedence p) Hok1) as (p2 & e2 & -> & Hp2); [lia|].
    simpl. destruct Hp2 as (Hok2 & Hin2 & Hle2).
    eexists _, _. split; [done|]. split; [done|]. split; [congruence|lia].
Qed.

Lemma parseExpressionStatement_returns (fuel : nat) (p : Parser) :
  parser_ok p -> (2 * pending p + 2 <= fuel)%nat ->
  exists p' stmt,
    parseExpressionStatement fuel p = Return (p', stmt) /\ passes p p'.
Proof.
  intros Hok Hfuel. unfold parseExpressionStatement.
  destruct (parser_returns fuel) as (Hexp & _).
  destruct (Hexp p LOWEST Hok Hfuel) as (p1 & e1 & -> & Hp1). simpl.
  destruct (isPeekToken p1 SEPARATOR); eexists _, _; (split; [done|]); exact Hp1.
Qed.

Lemma Run_loop_S (fuel : nat) (p : Parser) (exps : list Expression) :
  Run_loop (S fuel) p exps =
  if bool_decide (Type_ (currentToken p) <> EOF) then
    if terminated p then Return (p, exps)
    else
      '(p, stmt) ← parseExpressionStatement fuel p;
      p ← nextToken p;
      Run_loop fuel p (exps ++ [stmt])
  else Return (p, exps).
Proof. reflexivity. Qed.

(** The loop of [Run] returns. *)
Lemma Run_loop_returns :
  forall (fuel : nat) (p : Parser) (exps : list Expression),
    parser_ok p -> (2 * pending p + 4 <= fuel)%nat ->
    exists p' exps', Run_loop fuel p exps = Return (p', exps').
Proof.
  induction fuel as [|fuel IH]; intros p exps Hok Hfuel; [lia|].
  rewrite Run_loop_S. destruct (bool_decide (Type_ (currentToken p) <> EOF)); [|by eauto].
  destruct (terminated p); [by eauto|].
  destruct (parseExpressionStatement_returns fuel p Hok)
    as (p1 & stmt & -> & (Hok1 & Hin1 & Hle1)); [lia|]. simpl.
  destruct (nextToken_ok p1 Hok1) as (p2 & -> & Hok2 & Hin2 & Hcur2 & Hle2). simpl.
  destruct (bool_decide (Type_ (currentToken p1) = EOF)) eqn:Hcur1.
  - apply bool_decide_eq_true in Hcur1. destruct Hok1 as (_ & _ & Hpeek1).
    apply Hpeek1 in Hcur1. destruct fuel as [|fuel]; [lia|]. rewrite Run_loop_S.
    rewrite bool_decide_eq_false_2; [by eauto|]. intros Hne. apply Hne. congruence.
  - apply IH; [done|lia].
Qed.

Lemma pending_le (p : Parser) :
  parser_ok p -> (pending p <= 2 + length (input (lex p)))%nat.
Proof.
  intros (Hok & _). pose proof (remaining_le _ Hok). unfold pending.
  destruct (bool_decide _), (bool_decide _); lia.
Qed.

(** [Run] returns, and with no error it returns a query expression. *)
Lemma Run_returns (p : Parser) :
  parser_ok p ->
  exists ast consumed err,
    Run p = Return (ast, consumed, err) /\ (err = None -> is_Some ast).
Proof.
  intros Hok. unfold Run. pose proof (pending_le p Hok) as Hle.
  destruct (Run_loop_returns (parser_fuel (lex p)) p [] Hok) as (p' & exps & ->);
    [unfold parser_fuel; lia|].
  simpl. destruct (errors p'); eexists _, _, _; (split; [done|]); [by eauto|done].
Qed.

(** [NewParser] reads the first two tokens. *)
Lemma NewParser_returns (l : Lexer) :
  0 <= readPosition l ->
  exists p, NewParser l = Return p /\ parser_ok p.
Proof.
  intros Hl. unfold NewParser.
  set (p0 := {| lex := ReadNext l; errors := [];
                currentToken := {| Pos := zero_Position; Type_ := EOF; Literal := "" |};
                peekToken := {| Pos := zero_Position; Type_ := EOF; Literal := "" |};
                terminated := false |}).
  destruct (nextToken_step p0) as (p1 & -> & Hok1 & _ & _ & H1);
    [by apply ReadNext_ok|]. simpl.
  destruct (nextToken_step p1 Hok1) as (p2 & -> & Hok2 & _ & Hcur2 & H2). simpl.
  exists p2. split; [done|]. split; [done|]. rewrite Hcur2. split.
  - destruct H2 as [(Hc & Hlex & _)|(_ & Hpeek & _)]; [|done].
    intros _. by rewrite Hlex.
  - intros Hp1. destruct H2 as [(_ & _ & Hpeek)|(Hc & _)]; [done|].
    destruct H1 as [(Hc0 & Hlex & _)|(_ & Hpeek & _)]; [|done].
    rewrite Hlex in Hc. done.
Qed.

End Termination.

(** * Properties *)

Section Properties.
Context `{U : UnicodeTables}.
Import sqlair.

(** *** Bytes and slices in range *)

Lemma get_lt (s : string) (n : nat) :
  (n < String.length s)%nat -> exists a, String.get n s = Some a.
Proof.
  revert n. induction s as [|a s IH]; intros n Hn; simpl in *; [lia|].
  destruct n as [|n]; [eauto|]. apply IH. lia.
Qed.

Lemma byte_at_returns (s : string) (i : Z) :
  0 <= i < len s -> exists c, byte_at s i = Return c.
Proof.
  intros Hi. unfold byte_at.
  replace ((0 <=? i) && (i <? len s)) with true
    by (symmetry; apply andb_true_iff; split; [apply Z.leb_le|apply Z.ltb_lt]; lia).
  destruct (get_lt s (Z.to_nat i)) as [a ->]; [unfold len in Hi; lia|eauto].
Qed.

Lemma slice_from_returns (s : string) (i : Z) :
  0 <= i <= len s -> exists t, slice_from s i = Return t.
Proof.
  intros Hi. unfold slice_from.
  replace ((0 <=? i) && (i <=? len s)) with true
    by (symmetry; apply andb_true_iff; split; apply Z.leb_le; lia).
  eauto.
Qed.

(** *** The scanner of named parameters returns a sorted list *)

(** [indexOfInputNamedArgs] returns -1 or an index. *)
Lemma indexOfInputNamedArgs_range (s : string) :
  indexOfInputNamedArgs s = -1 \/ 0 <= indexOfInputNamedArgs s.
Proof.
  unfold indexOfInputNamedArgs, prefix_runes. simpl.
  repeat (match goal with
          | |- context [if ?b then _ else _] => destruct b eqn:?
          end; simpl);
    repeat match goal with
           | H : _ && _ = true |- _ => apply andb_true_iff in H; destruct H
           | H : (_ <=? _) = true |- _ => apply Z.leb_le in H
           end; auto; unfold len; lia.
Qed.

(** The equation of one iteration of the inner loop. *)
Lemma readName_S predicate stmt (fuel : nat) (i : Z) (name : string) :
  readName (S fuel) predicate stmt i name =
  if i <? len stmt then
    char ← byte_at stmt i;
    if predicate char then
      readName fuel predicate stmt (i + 1) (name +:+ string_of_rune char)
    else if isNameTerminator char then Return (Some (i, name))
    else Return None
  else Return (Some (i, name)).
Proof. reflexivity. Qed.

#[local] Arguments readName : simpl never.

(** The inner loop returns, and never moves backwards. *)
Lemma readName_returns predicate stmt :
  forall (fuel : nat) (i : Z) (name : string),
    0 <= i -> (0 < fuel)%nat -> len stmt - i < Z.of_nat fuel ->
    exists r, readName fuel predicate stmt i name = Return r /\
              forall i' name', r = Some (i', name') -> i <= i'.
Proof.
  induction fuel as [|fuel IH]; intros i name Hi Hpos Hfuel; [lia|].
  rewrite readName_S. destruct (i <? len stmt) eqn:Hlt.
  - apply Z.ltb_lt in Hlt.
    destruct (byte_at_returns stmt i) as [c ->]; [lia|]. simpl.
    destruct (predicate c).
    + destruct (IH (i + 1) (name +:+ string_of_rune c)) as (r & -> & Hr); [lia..|].
      eexists; split; [reflexivity|]. intros i' name' ->.
      specialize (Hr _ _ eq_refl). lia.
    + destruct (isNameTerminator c); eexists; (split; [reflexivity|]);
        intros i' name' [= <- <-]; lia.
  - eexists; split; [reflexivity|]. intros i' name' [= <- <-]; lia.
Qed.

#[local] Instance name_le_total : Total name_le.
Proof. intros a b. apply String.leb_total. Qed.

(** What [sort.Slice] leaves is sorted by name. *)
Lemma sort_by_name_sorted names : Sorted name_le (sort_by_name names).
Proof. apply (Sorted_merge_sort name_le). Qed.

(** The outer loop returns from every index in range, and what it
    returns is sorted by name. *)
Lemma parseNames_from_sorted stmt :
  forall (fuel : nat) (i : Z) (names : list nameBinding),
    0 <= i -> (0 < fuel)%nat -> len stmt - i < Z.of_nat fuel ->
    exists l err, parseNames_from fuel stmt i names = Return (l, err) /\
                  Sorted name_le l.
Proof.
  induction fuel as [|fuel IH]; intros i names Hi Hpos Hfuel; [lia|].
  simpl. destruct (i <? len stmt) eqn:Hlt;
    [|eauto using sort_by_name_sorted].
  apply Z.ltb_lt in Hlt.
  destruct (byte_at_returns stmt i) as [r ->]; [lia|]. simpl.
  destruct (prefixes r) as [predicate|]; [|apply IH; lia].
  assert (exists bare : bool,
    (if (r =? 63) && (i + 1 <? len stmt)
     then isNameTerminator <$> byte_at stmt (i + 1) else Return false)
    = Return bare) as [bare ->].
  { destruct ((r =? 63) && (i + 1 <? len stmt)) eqn:Hb; [|eauto].
    apply andb_true_iff in Hb as [_ Hb%Z.ltb_lt].
    destruct (byte_at_returns stmt (i + 1)) as [c ->]; [lia|]. simpl. eauto. }
  simpl. destruct bare; [apply IH; lia|].
  destruct (readName_returns predicate stmt (S (String.length stmt)) (i + 1) "")
    as (read & -> & Hread); [lia|lia|unfold len; lia|].
  simpl. destruct read as [[i' name]|]; [|eauto].
  specialize (Hread _ _ eq_refl).
  destruct (i' >=? len stmt) eqn:Hge; [eauto using sort_by_name_sorted|].
  destruct (slice_from_returns stmt i') as [rest ->]; [lia|]. simpl.
  destruct (indexOfInputNamedArgs_range rest) as [-> | Hidx];
    [eauto using sort_by_name_sorted|].
  destruct (indexOfInputNamedArgs rest =? -1);
    [eauto using sort_by_name_sorted|]. apply IH; lia.
Qed.

(** *** Bare positional placeholders *)

Ltac bind_inv H :=
  cbv beta iota in H;
  match type of H with
  | (?m ≫= _) = Return _ =>
    let E := fresh "E" in destruct m eqn:E; simpl in H; [|discriminate..]
  end.

(** A name only grows while it is read. *)
Lemma length_append (a b : string) :
  String.length (a +:+ b) = (String.length a + String.length b)%nat.
Proof. induction a as [|c a IH]; [reflexivity|]. simpl. by rewrite IH. Qed.

Lemma string_of_rune_nonempty (c : rune) :
  (1 <= String.length (string_of_rune c))%nat.
Proof.
  unfold string_of_rune, encodeRune.
  repeat match goal with
         | |- context [if ?b then _ else _] => destruct b
         end; simpl; lia.
Qed.

Lemma readName_grows predicate stmt :
  forall (fuel : nat) (i : Z) (name : string) i' name',
    readName fuel predicate stmt i name = Return (Some (i', name')) ->
    (String.length name <= String.length name')%nat.
Proof.
  induction fuel as [|fuel IH]; intros i name i' name' H; [discriminate|].
  rewrite readName_S in H. destruct (i <? len stmt).
  - bind_inv H. destruct (predicate a).
    + apply IH in H. rewrite length_append in H. lia.
    + destruct (isNameTerminator a); simplify_eq/=; lia.
  - simplify_eq/=. lia.
Qed.

(** A name read empty: the loop met the end of the statement or a
    terminator at once. *)
Lemma readName_empty predicate stmt (fuel : nat) (i : Z) (name : string) i' :
  readName fuel predicate stmt i name = Return (Some (i', "")) ->
  i' = i /\
  (len stmt <= i \/
   exists c, byte_at stmt i = Return c /\ isNameTerminator c = true).
Proof.
  destruct fuel as [|fuel]; intros H; [discriminate|].
  rewrite readName_S in H. destruct (i <? len stmt) eqn:Hlt.
  - bind_inv H. destruct (predicate a).
    + apply readName_grows in H. rewrite length_append in H.
      pose proof (string_of_rune_nonempty a). simpl in H. lia.
    + destruct (isNameTerminator a) eqn:Ht; simplify_eq/=. eauto.
  - apply Z.ltb_ge in Hlt. simplify_eq/=. auto.
Qed.

(** Sorting keeps the number of bare '?' bindings. *)
Lemma filter_bare_sort names :
  length (filter bare_question (sort_by_name names))
  = length (filter bare_question names).
Proof.
  apply Permutation_length. unfold sort_by_name.
  by rewrite (merge_sort_Permutation name_le).
Qed.

Lemma filter_bare_nil_sort names :
  filter bare_question names = [] ->
  filter bare_question (sort_by_name names) = [].
Proof.
  intros H. apply length_zero_iff_nil. rewrite filter_bare_sort, H. done.
Qed.

(** While the loop runs no bare '?' binding has been collected; one is
    collected only at the last byte of the statement, and ends the
    loop. *)
Lemma parseNames_from_bare stmt :
  forall (fuel : nat) (i : Z) (names l : list nameBinding) err,
    parseNames_from fuel stmt i names = Return (l, err) ->
    filter bare_question names = [] ->
    filter bare_question l = [] \/
    (ends_in_question stmt /\ length (filter bare_question l) = 1%nat).
Proof.
  induction fuel as [|fuel IH]; intros i names l err H Hnames; [discriminate|].
  cbn [parseNames_from] in H.
  destruct (i <? len stmt) eqn:Hlt;
    [|simplify_eq/=; auto using filter_bare_nil_sort].
  apply Z.ltb_lt in Hlt. bind_inv H. rename a into r.
  destruct (prefixes r) as [predicate|] eqn:Hp; [|eauto].
  bind_inv H. rename a into bare. destruct bare; [eauto|].
  bind_inv H. destruct a as [[i' name]|]; [|simplify_eq/=; auto].
  set (b := {| nb_prefix := r; nb_name := name |}) in *.
  destruct (decide (bare_question b)) as [[Hr Hn]|Hb].
  - simpl in Hr, Hn. subst r name. apply readName_empty in E1 as [-> Hend].
    assert (len stmt <= i + 1) as Hlast.
    { destruct Hend as [?|(c & Hc & Ht)]; [done|].
      simpl in E0. destruct (i + 1 <? len stmt) eqn:Hi; [|by apply Z.ltb_ge].
      rewrite Hc in E0. simpl in E0. congruence. }
    replace (i + 1 >=? len stmt) with true in H
      by (symmetry; apply Z.geb_le; lia).
    simplify_eq/=. right. split.
    + unfold ends_in_question. by replace (len stmt - 1) with i by lia.
    + rewrite filter_bare_sort, filter_app, Hnames. reflexivity.
  - assert (filter bare_question (names ++ [b]) = []) as Hnames'.
    { rewrite filter_app, Hnames. simpl. by rewrite filter_cons_False. }
    destruct (i' >=? len stmt); [simplify_eq/=; auto using filter_bare_nil_sort|].
    bind_inv H.
    destruct (indexOfInputNamedArgs a =? -1);
      [simplify_eq/=; auto using filter_bare_nil_sort|eauto].
Qed.

(** *** Named parameters *)

(** C2: [parseNames] on the statement
    [SELECT :name FROM @table WHERE $id=1 AND ?42=2 AND ?=3;] returns the
    four bindings ('?',"42"), ('$',"id"), (':',"name"), ('@',"table") in
    that order; and for every statement and every offset that is not
    negative it returns, and the list it returns is sorted by name.  It
    is a function of the statement and the offset, so that two calls
    return the same list. *)
Theorem parseNames_sorted_by_name :
  parseNames examples.names_stmt 0
  = Return ([binding 63 "42"; binding 36 "id"; binding 58 "name";
             binding 64 "table"], None) /\
  forall (stmt : string) (offset : Z),
    0 <= offset ->
    exists names err,
      parseNames stmt offset = Return (names, err) /\ Sorted name_le names.
Proof.
  split; [vm_compute; reflexivity|].
  intros stmt offset Hoffset. unfold parseNames.
  apply parseNames_from_sorted; [done|lia|unfold len; lia].
Qed.

(** An index that was read is in range. *)
Lemma byte_at_in_range (s : string) (i : Z) (c : rune) :
  byte_at s i = Return c -> 0 <= i < len s.
Proof.
  unfold byte_at. destruct ((0 <=? i) && (i <? len s)) eqn:H; [|discriminate].
  intros _. apply andb_true_iff in H as [H1%Z.leb_le H2%Z.ltb_lt]. lia.
Qed.

(** C7, as amended: a '?' that white space, ',', ';', '=' or ')' follows
    gives no binding.  The scanner passes over it with the bindings it
    has; and among the bindings that [parseNames] returns there is one of
    '?' with an empty name only when the last byte of the statement is
    '?', and then only one. *)
Theorem bare_question_gives_no_binding :
  (forall (fuel : nat) (stmt : string) (i : Z) (names : list nameBinding) (c : rune),
     byte_at stmt i = Return 63 ->
     byte_at stmt (i + 1) = Return c ->
     isNameTerminator c = true ->
     parseNames_from (S fuel) stmt i names = parseNames_from fuel stmt (i + 1) names) /\
  (forall (stmt : string) (offset : Z) names err,
     parseNames stmt offset = Return (names, err) ->
     filter bare_question names = [] \/
     (ends_in_question stmt /\ length (filter bare_question names) = 1%nat)).
Proof.
  split.
  - intros fuel stmt i names c Hi Hc Hterm.
    pose proof (byte_at_in_range _ _ _ Hi) as Hrange.
    pose proof (byte_at_in_range _ _ _ Hc) as Hrange'.
    cbn [parseNames_from].
    replace (i <? len stmt) with true by (symmetry; apply Z.ltb_lt; lia).
    rewrite Hi. simpl.
    replace (i + 1 <? len stmt) with true by (symmetry; apply Z.ltb_lt; lia).
    rewrite Hc. simpl. by rewrite Hterm.
  - intros stmt offset names err H. by apply parseNames_from_bare in H.
Qed.

(** *** Record paths *)

(** C8: the record path [Person[0].name[1].head] compiles to the atoms
    Ident "Person", Int 0, Ident "name", Int 1, Ident "head"; and
    [Person.*.name[1] AS] compiles to the atoms of [Person.*.name[1]],
    the parser having consumed the 16 bytes before the white space. *)
Theorem record_path_flattening :
  parseRecordPath "Person[0].name[1].head" 0
  = Return ([makeRecordPathIdent "Person"; makeRecordPathInteger 0;
             makeRecordPathIdent "name"; makeRecordPathInteger 1;
             makeRecordPathIdent "head"], 22, None) /\
  exists atoms,
    parseRecordPath "Person.*.name[1]" 0 = Return (atoms, 16, None) /\
    parseRecordPath "Person.*.name[1] AS" 0 = Return (atoms, 16, None).
Proof.
  split; [vm_compute; reflexivity|].
  eexists; split; vm_compute; reflexivity.
Qed.

(** *** The statement compiler *)

(** One step of the case analysis of a call that returned: the outcome
    that a bind runs on, or the condition of a test. *)
Ltac returned H :=
  unfold mbind, outcome_bind in H; cbv beta iota in H;
  match type of H with
  | match ?m with Return _ => _ | Panic _ => _ | OutOfFuel => _ end = Return _ =>
    let E := fresh "E" in destruct m eqn:E; [|discriminate..]
  | (if ?b then _ else _) = Return _ =>
    let E := fresh "E" in destruct b eqn:E
  | (let '(_, _) := ?x in _) = Return _ => destruct x
  | match ?x with _ => _ end = Return _ =>
    let E := fresh "E" in destruct x eqn:E
  end.

(** The equation of one iteration of the loop of [parseRecords]. *)
Lemma parseRecords_from_S (fuel : nat) stmt i records :
  parseRecords_from (S fuel) stmt i records =
  if i <? len stmt then
    r ← byte_at stmt i;
    if negb (r =? 38) then Return (records, None)
    else
      '(entityPath, _, err) ← parseRecordPath stmt (i + 1);
      if bool_decide (err <> None) && negb (is_ErrTooMany err) then Return ([], err)
      else
        sel ← selector_loop (Z.to_nat i) stmt (i - 1) "" 0;
        match sel with
        | None => Return ([], Some (Errorf "expected selector" []))
        | Some (selector, offset) =>
          if String.eqb (strings_ToLower (strings_TrimSpace selector)) "as" then
            let prior := 0 in
            '(tablePath, _, err) ← parseRecordPath stmt (prior + 1);
            if bool_decide (err <> None) && negb (is_ErrTooMany err)
            then Return ([], err)
            else parseRecords_from fuel stmt (i + 1) records
          else
            Return ([], Some (Errorf "expected AS selector, got: %q" [AStr selector]))
        end
  else Return (records, None).
Proof. reflexivity. Qed.

(** Every return of the loop of [parseRecords] without an error returns
    the bindings the loop was entered with. *)
Lemma parseRecords_from_appends_nothing stmt :
  forall (fuel : nat) (i : Z) (records l : list recordBinding),
    parseRecords_from fuel stmt i records = Return (l, None) -> l = records.
Proof.
  induction fuel as [|fuel IH]; intros i records l H; [discriminate|].
  rewrite parseRecords_from_S in H.
  repeat returned H; simplify_eq/=; eauto.
Qed.

(** With no record to expand the statement is returned as it is. *)
Lemma expandRecords_nil stmt entities intersections :
  expandRecords stmt [] entities intersections = Return (stmt, None).
Proof. reflexivity. Qed.

(** [compileStatement], when it returns without an error, returns the
    statement and no binding. *)
Lemma compileStatement_returns_statement stmt (structs : list sreflect.ReflectStruct)
    compiled fields :
  compileStatement stmt structs = Return (compiled, fields, None) ->
  compiled = stmt /\ fields = [].
Proof.
  intros H. unfold compileStatement in H.
  destruct (indexOfRecordArgs stmt >=? 0); [|by simplify_eq].
  returned H. destruct a as [records err]. destruct err as [err|]; [by simplify_eq|].
  apply parseRecords_from_appends_nothing in E as ->.
  rewrite expandRecords_nil in H. by simplify_eq/=.
Qed.

(** C10: whenever [parseRecords] returns without an error the list of
    record bindings it returns is empty, so that [compileStatement], when
    it returns without an error, returns the statement it was given and no
    record binding. *)
Theorem parseRecords_returns_no_binding :
  (forall (stmt : string) (offset : Z) (records : list recordBinding),
     parseRecords stmt offset = Return (records, None) -> records = []) /\
  (forall (stmt : string) (structs : list sreflect.ReflectStruct)
          (compiled : string) (fields : list recordBinding),
     compileStatement stmt structs = Return (compiled, fields, None) ->
     compiled = stmt /\ fields = []).
Proof.
  split.
  - intros stmt offset records H. by apply parseRecords_from_appends_nothing in H.
  - intros stmt structs compiled fields H.
    by apply compileStatement_returns_statement in H.
Qed.

(** C1: on the statement of the example, which holds no '&', and the
    entities of [Person] and [Location], [compileStatement] returns the
    statement with its two record expressions in place and no record
    binding; the projection [people.age, people.name, location.city] is
    not emitted, though [expandRecords] emits it when it is handed the
    bindings of the two expressions. *)
Theorem compileStatement_leaves_braces :
  let structs :=
    [examples.entity_of 1 examples.Person; examples.entity_of 2 examples.Location] in
  compileStatement examples.join_stmt structs = Return (examples.join_stmt, [], None) /\
  examples.join_stmt <> examples.join_expanded /\
  expandRecords examples.join_stmt examples.join_bindings structs
    (fieldIntersections structs)
  = Return (examples.join_expanded, None).
Proof.
  intros structs. split; [vm_compute; reflexivity|].
  split; [discriminate|]. vm_compute. reflexivity.
Qed.

(** *** Binding destinations *)

(** C9: when reflecting the destinations fails, [ForOne] and [ForMany]
    return the zero [Query] and a [nil] error. *)
Theorem reflection_error_is_discarded (q : Querier) (values : list iface)
    entities (err : goerror) q' :
  reflectValues q values = Return (entities, Some err, q') ->
  ForOne q values = Return (zero_Query, None, q') /\
  ForMany q values = Return (zero_Query, None, q').
Proof.
  intros H. split.
  - unfold ForOne. by rewrite H.
  - unfold ForMany. destruct values as [|value values].
    + unfold reflectValues in H. simpl in H. discriminate.
    + by rewrite H.
Qed.

(** C3: [ForOne] on a pointer to an [int] and a pointer to a [Person], two
    destinations of the kinds int and struct, returns a query that scans
    scalars and no error; on the same two in the other order it panics in
    the type assertion; and on two pointers to an [int] and a pointer to
    a [Person], where [reflectValues] does compare the kinds, it returns
    the zero [Query] and no error. *)
Theorem ForOne_accepts_mixed_kinds :
  plan_and_error
    (ForOne NewQuerier [examples.new 1 (TBasic Int); examples.new 2 examples.Person])
  = Return (Some planDefaultScan, None) /\
  panics
    (ForOne NewQuerier [examples.new 1 examples.Person; examples.new 2 (TBasic Int)]) /\
  query_and_error
    (ForOne NewQuerier [examples.new 1 (TBasic Int); examples.new 2 (TBasic Int);
                        examples.new 3 examples.Person])
  = Return (zero_Query, None).
Proof.
  split; [vm_compute; reflexivity|]. split; [|vm_compute; reflexivity].
  eexists. vm_compute. reflexivity.
Qed.

(** *** The statement cache *)

(** Calling the hook and the driver changes neither the statement cache
    nor the count of compilations. *)
Lemma query_frame qy (q q' : Querier) tx stmt args res :
  query qy q tx stmt args = (res, q') -> unchanged_cache q q'.
Proof.
  unfold query, unchanged_cache. intros H.
  destruct (hook qy), (tx stmt args) as [rows|e];
    try destruct (rows_ColumnTypes rows) as [columns [e|]]; by simplify_eq/=.
Qed.

(** Reflecting the new records of a row changes neither the statement
    cache nor the count of compilations. *)
Lemma reflect_elements_frame :
  forall (structs : list sreflect.ReflectStruct) (q q' : Querier) err,
    reflect_elements q structs = Return (err, q') ->
    unchanged_cache q q'.
Proof.
  induction structs as [|element structs IH]; intros q q' err H; simpl in H.
  - by simplify_eq.
  - repeat returned H; simplify_eq/=; try done.
    apply IH in H. destruct H as [H1 H2]. by split.
Qed.

Lemma sliceStructScan_rows_frame qy columns (structs : list sreflect.ReflectStruct) fields :
  forall scans (q q' : Querier) res,
    sliceStructScan_rows qy q scans columns structs fields = Return (res, q') ->
    unchanged_cache q q'.
Proof.
  induction scans as [|scan scans IH]; intros q q' res H; simpl in H.
  - by simplify_eq.
  - returned H. destruct a as [err q1]. apply reflect_elements_frame in E.
    destruct E as [E1 E2].
    repeat returned H; simplify_eq/=; try by split.
    apply IH in H as [H1 H2]. split; congruence.
Qed.

(** Two runs of the statement of the example into a [Person], and two
    into a slice of [Person], against a driver that accepts it: both
    compile the statement twice, hand it to the driver as it was written,
    and leave the statement cache empty. *)
Example two_runs_compile_twice :
  observe (run_twice ForOne [examples.new 1 examples.Person]
             examples.two_columns examples.cached_stmt)
  = Return (None, 2%nat, [examples.cached_stmt; examples.cached_stmt], []) /\
  observe (run_twice ForMany [examples.new 1 (TSlice examples.Person)]
             examples.two_columns examples.cached_stmt)
  = Return (None, 2%nat, [examples.cached_stmt; examples.cached_stmt], []).
Proof. split; vm_compute; reflexivity. Qed.

(** C4: a call of [structScan] on a statement that the cache does not
    hold compiles it and leaves the cache as it was, and a call of
    [sliceStructScan] compiles the statement and leaves the cache as it
    was, whatever the driver answers: no statement is ever inserted, and
    the same statement executed twice is compiled twice. *)
Theorem statement_compiled_at_every_call :
  (forall (qy : Query) (q : Querier) (tx : Tx) (stmt : string) (args : list iface)
          (structs : list sreflect.ReflectStruct) err q',
     structScan qy q tx stmt args structs = Return (err, q') ->
     q_stmtCache q !! stmt = None ->
     q_compiled q' = S (q_compiled q) /\ q_stmtCache q' = q_stmtCache q) /\
  (forall (qy : Query) (q : Querier) (tx : Tx) (stmt : string) (args : list iface)
          (refSlice : list reflectSlice) err q',
     sliceStructScan qy q tx stmt args refSlice = Return (err, q') ->
     q_compiled q' = S (q_compiled q) /\ q_stmtCache q' = q_stmtCache q).
Proof.
  split.
  - intros qy q tx stmt args structs err q' H Hmiss. unfold structScan in H.
    destruct (negb (stmtCache qy)); [discriminate|].
    unfold statementCache_Get in H. rewrite Hmiss in H.
    returned H. destruct a as [[[compiled fields] cerr] q1].
    returned E. destruct a as [[compiled' fields'] cerr']. simplify_eq.
    destruct cerr as [e|]; [by simplify_eq|].
    apply compileStatement_returns_statement in E0 as [-> ->].
    rewrite String.eqb_refl in H. simpl in H.
    destruct (query qy (count_compile q) tx stmt args) as [res q1] eqn:Hq.
    apply query_frame in Hq as [Hq1 Hq2]. simpl in Hq1, Hq2.
    repeat returned H; simplify_eq/=; by split.
  - intros qy q tx stmt args refSlice err q' H. unfold sliceStructScan in H.
    returned H. destruct a as [[compiled fields] cerr].
    destruct cerr as [e|]; [by simplify_eq|].
    destruct (query qy (count_compile q) tx compiled args) as [res q1] eqn:Hq.
    apply query_frame in Hq as [Hq1 Hq2]. simpl in Hq1, Hq2.
    destruct res as [[rows columns]|e]; [|by simplify_eq/=].
    returned H. destruct a as [res q2].
    apply sliceStructScan_rows_frame in E0 as [H1 H2].
    destruct res; simplify_eq/=; split; congruence.
Qed.

(** *** Reflection *)

(** The kind of a value is the kind of its type. *)
Lemma Value_Kind_of_Type (value : Value) (typ : GoType) :
  Value_Type value = Return typ -> Value_Kind value = Type_Kind typ.
Proof.
  unfold Value_Type, Value_Kind. destruct (v_val value); intros H; by simplify_eq.
Qed.

(** One field whose tag does not parse fails the loop over the fields. *)
Lemma Reflect_fields_fails value (field : StructField GoType) tag err :
  sreflect.parseTag (Tag_Get (sf_Tag field) "db") = (tag, Some err) ->
  forall fields acc,
    field ∈ fields ->
    exists err', sreflect.Reflect_fields value fields acc = (None, Some err').
Proof.
  intros Hfield. induction fields as [|f fields IH]; intros acc Hin.
  - by apply elem_of_nil in Hin.
  - simpl. destruct (sreflect.parseTag (Tag_Get (sf_Tag f) "db")) as [t [e|]] eqn:Hf;
      [eauto|].
    apply elem_of_cons in Hin as [->|Hin]; [congruence|]. by apply IH.
Qed.

(** When the loop over the fields succeeds every field has an entry under
    its column. *)
Lemma Reflect_fields_keys value :
  forall fields acc m,
    sreflect.Reflect_fields value fields acc = (Some m, None) ->
    (forall k, is_Some (acc !! k) -> is_Some (m !! k)) /\
    (forall field, field ∈ fields ->
       is_Some (m !! column_key field (sreflect.parseTag (Tag_Get (sf_Tag field) "db")).1)).
Proof.
  induction fields as [|f fields IH]; intros acc m H; simpl in H.
  - simplify_eq. split; [done|]. intros field Hin. by apply elem_of_nil in Hin.
  - destruct (sreflect.parseTag (Tag_Get (sf_Tag f) "db")) as [t [e|]] eqn:Hf;
      [discriminate|].
    apply IH in H as [Hacc Hfields]. split.
    + intros k Hk. apply Hacc. destruct (decide (column_key f t = k)) as [<-|Hne].
      * unfold column_key. by rewrite lookup_insert_eq.
      * unfold column_key in Hne. by rewrite lookup_insert_ne.
    + intros field [->|Hin]%elem_of_cons; [|by apply Hfields].
      rewrite Hf. simpl. apply Hacc. unfold column_key. by rewrite lookup_insert_eq.
Qed.

(** [Reflect] on a value of a struct type is the loop over its fields. *)
Lemma Reflect_struct (value : Value) (typ : GoType) :
  Value_Type (Indirect value) = Return typ -> Type_Kind typ = Struct ->
  sreflect.Reflect value =
  match sreflect.Reflect_fields (Indirect value) (Type_Fields typ) ∅ with
  | (Some fields, None) =>
    Return (Some (sreflect.IsStruct
                    {| sreflect.rs_Name := Type_Name typ; sreflect.rs_Fields := fields;
                       sreflect.rs_Value := Indirect value |}), None)
  | (_, err) => Return (None, err)
  end.
Proof.
  intros Htyp Hkind. unfold sreflect.Reflect.
  rewrite (Value_Kind_of_Type _ _ Htyp), Hkind, Htyp.
  rewrite bool_decide_eq_false_2 by (intros Hne; by apply Hne). reflexivity.
Qed.

(** C6, as amended: for a destination of a struct type, a field whose [db]
    tag is absent or empty makes reflection fail, and so does a field
    whose tag has two options of which the second, in lower case, is not
    [omitempty]; when reflection succeeds, a field whose tag parses to an
    empty column name (as [,omitempty] does) has an entry under its name
    in lower case. *)
Theorem reflected_column_names (value : Value) (typ : GoType)
    (field : StructField GoType) :
  Value_Type (Indirect value) = Return typ ->
  Type_Kind typ = Struct ->
  field ∈ Type_Fields typ ->
  let rawTag := Tag_Get (sf_Tag field) "db" in
  (rawTag = "" -> exists err, sreflect.Reflect value = Return (None, Some err)) /\
  (forall name option,
     strings_Split rawTag "," = [name; option] ->
     strings_ToLower option <> "omitempty" ->
     exists err, sreflect.Reflect value = Return (None, Some err)) /\
  (forall rs option,
     sreflect.Reflect value = Return (Some (sreflect.IsStruct rs), None) ->
     strings_Split rawTag "," = [""; option] ->
     is_Some (sreflect.rs_Fields rs !! strings_ToLower (sf_Name field))).
Proof.
  intros Htyp Hkind Hin rawTag. rewrite (Reflect_struct _ _ Htyp Hkind).
  assert (forall t e, sreflect.parseTag rawTag = (t, Some e) ->
            exists err, match sreflect.Reflect_fields (Indirect value) (Type_Fields typ) ∅ with
                        | (Some fields, None) =>
                          Return (Some (sreflect.IsStruct
                            {| sreflect.rs_Name := Type_Name typ;
                               sreflect.rs_Fields := fields;
                               sreflect.rs_Value := Indirect value |}), None)
                        | (_, err) => Return (None, err)
                        end = Return (None, Some err)) as Hfail.
  { intros t e Hparse.
    destruct (Reflect_fields_fails (Indirect value) field t e Hparse
                (Type_Fields typ) ∅ Hin) as [err' ->]. eauto. }
  split; [|split].
  - intros Hraw. apply (Hfail sreflect.zero_ReflectTag (Errorf "unexpected empty tag" [])).
    unfold sreflect.parseTag. by rewrite Hraw.
  - intros name option Hsplit Hopt.
    apply (Hfail sreflect.zero_ReflectTag (Errorf "unexpected tag value %q" [AStr option])).
    unfold sreflect.parseTag. rewrite Hsplit.
    destruct (String.eqb rawTag "") eqn:Hraw.
    + apply String.eqb_eq in Hraw. rewrite Hraw in Hsplit. discriminate.
    + apply String.eqb_neq in Hopt. by rewrite Hopt.
  - intros rs option Hrs Hsplit.
    destruct (sreflect.Reflect_fields (Indirect value) (Type_Fields typ) ∅)
      as [[fields|] [e|]] eqn:Hfields; simplify_eq/=.
    apply Reflect_fields_keys in Hfields as [_ Hfields].
    specialize (Hfields field Hin). fold rawTag in Hfields.
    assert (sreflect.rt_Name (sreflect.parseTag rawTag).1 = "") as Hname.
    { unfold sreflect.parseTag. rewrite Hsplit.
      destruct (String.eqb rawTag ""); [done|].
      by destruct (negb (String.eqb (strings_ToLower option) "omitempty")). }
    unfold column_key in Hfields. rewrite Hname in Hfields. exact Hfields.
Qed.

#[local] Arguments sreflect.Reflect : simpl never.

(** [Reflect] itself never panics: it asks a value for its type only when
    the kind of the value is struct. *)
Lemma Reflect_returns (value : Value) : returns (sreflect.Reflect value).
Proof.
  unfold sreflect.Reflect, returns.
  destruct (bool_decide (Value_Kind (Indirect value) <> Struct)) eqn:Hk; [eauto|].
  apply bool_decide_eq_false in Hk. apply dec_stable in Hk.
  unfold Value_Kind in Hk. unfold Value_Type.
  destruct (v_val (Indirect value)); [|discriminate]. simpl.
  destruct (sreflect.Reflect_fields _ _ _) as [[fields|] [e|]]; eauto.
Qed.

(** *** Panics *)

(** A prefix is no longer than the string. *)
Lemma prefix_length (p s : string) :
  String.prefix p s = true -> (String.length p <= String.length s)%nat.
Proof.
  revert s. induction p as [|a p IH]; intros s H; simpl; [lia|].
  destruct s as [|b s]; simpl in *; [discriminate|].
  destruct (ascii_dec a b); [|discriminate]. apply IH in H. lia.
Qed.

(** The three steps of [structMapping] return under the hypotheses of the
    amended claim. *)
Lemma split_alias_returns (column : ColumnType) :
  alias_has_separator column -> returns (split_alias (ct_Name column)).
Proof.
  unfold alias_has_separator, split_alias, returns. intros Hsep.
  destruct (strings_HasPrefix (ct_Name column) AliasPrefix) eqn:Hp; [|eauto].
  specialize (Hsep eq_refl). apply prefix_length in Hp.
  unfold slice_from.
  replace ((0 <=? len AliasPrefix) && (len AliasPrefix <=? len (ct_Name column)))
    with true.
  - simpl. unfold alias_parts in Hsep.
    change (Z.to_nat (len AliasPrefix)) with 5%nat.
    destruct (strings_Split _ _) as [|prefix [|name parts]]; simpl in Hsep;
      [lia|lia|eauto].
  - symmetry. apply andb_true_iff. split; [done|].
    apply Z.leb_le. unfold len. simpl in *. lia.
Qed.

Lemma structMapping_entity_returns columnName prefix fields :
  forall structs : list sreflect.ReflectStruct,
    Forall scannable structs ->
    returns (structMapping_entity columnName prefix structs fields).
Proof.
  induction structs as [|entity structs IH]; intros Hscan; simpl.
  - by eexists.
  - apply Forall_cons in Hscan as [Hentity Hscan].
    destruct (sreflect.rs_Fields entity !! columnName) as [field|] eqn:Hfield; [|auto].
    destruct (negb (String.eqb prefix "") && negb _); [auto|].
    apply Hentity in Hfield as [[loc Hloc] Hro]. unfold Value_Addr_Interface.
    rewrite Hloc, Hro. simpl. by eexists.
Qed.

Lemma structMapping_returns qy (structs : list sreflect.ReflectStruct) fields :
  Forall scannable structs ->
  forall columns,
    Forall alias_has_separator columns ->
    returns (structMapping qy columns structs fields).
Proof.
  intros Hscan. induction columns as [|column columns IH]; intros Hcolumns; simpl.
  - by eexists.
  - apply Forall_cons in Hcolumns as [Hcolumn Hcolumns].
    destruct (split_alias_returns column Hcolumn) as [[columnName prefix] ->]. simpl.
    destruct (structMapping_entity_returns columnName prefix fields structs Hscan)
      as [[loc|] ->]; simpl; [|by eexists].
    destruct (IH Hcolumns) as [[columnar [err|]] ->]; simpl; by eexists.
Qed.

(** A declared type that [zeroScanType] knows: it returns, and the type
    is one of the list. *)
Ltac known_type E :=
  apply String.eqb_eq in E; simpl; split;
  [ intros [msg Hmsg]; discriminate
  | intros Hnot; exfalso; apply Hnot; rewrite E;
    repeat first [apply list_elem_of_here | apply list_elem_of_further] ].

(** [zeroScanType] panics exactly outside the list. *)
Lemma zeroScanType_panics (t : string) :
  panics (zeroScanType t) <-> strings_ToUpper t ∉ known_column_types.
Proof.
  unfold zeroScanType, known_column_types, panics.
  set (T := strings_ToUpper t).
  destruct (String.eqb T "TEXT") eqn:E1; [known_type E1|].
  destruct (String.eqb T "INTEGER") eqn:E2; [known_type E2|].
  destruct (String.eqb T "BOOL") eqn:E3; [known_type E3|].
  destruct (String.eqb T "REAL") eqn:E4; [known_type E4|].
  destruct (String.eqb T "NUMERIC") eqn:E5; [known_type E5|].
  destruct (String.eqb T "BLOB") eqn:E6; [known_type E6|].
  simpl. split; [intros _|intros _; by eexists].
  rewrite !not_elem_of_cons.
  repeat split; try (by apply String.eqb_neq). apply not_elem_of_nil.
Qed.

(** The fields of a struct reflected through a pointer that is not nil
    can be handed to [rows.Scan] when the struct type exports them all. *)
Lemma Reflect_fields_scannable value :
  is_Some (v_loc value) -> v_ro value = false ->
  forall fields acc m,
    Forall (fun f : StructField GoType => sf_PkgPath f = "") fields ->
    map_Forall (fun _ field => addressable_exported (sreflect.rf_Value field)) acc ->
    sreflect.Reflect_fields value fields acc = (Some m, None) ->
    map_Forall (fun _ field => addressable_exported (sreflect.rf_Value field)) m.
Proof.
  intros Hloc Hro. induction fields as [|f fields IH]; intros acc m Hexp Hacc H;
    simpl in H.
  - by simplify_eq.
  - apply Forall_cons in Hexp as [Hf Hexp].
    destruct (sreflect.parseTag (Tag_Get (sf_Tag f) "db")) as [t [e|]]; [discriminate|].
    eapply IH; [done| |exact H].
    apply map_Forall_insert_2; [|done]. simpl. split.
    + unfold Value_Field. simpl. destruct Hloc as [[addr path] ->]. by eexists.
    + unfold Value_Field. simpl. by rewrite Hro, Hf.
Qed.

Lemma Reflect_scannable (addr : nat) (target : GoValue) (typ : GoType) rs :
  Value_Type (Indirect (Indirect (ValueOf (Some (PointerTo addr target))))) = Return typ ->
  Forall (fun f : StructField GoType => sf_PkgPath f = "") (Type_Fields typ) ->
  sreflect.Reflect (Indirect (ValueOf (Some (PointerTo addr target))))
  = Return (Some (sreflect.IsStruct rs), None) ->
  scannable rs.
Proof.
  intros Htyp Hexp H.
  assert (is_Some (v_loc (Indirect (Indirect (ValueOf (Some (PointerTo addr target))))))
          /\ v_ro (Indirect (Indirect (ValueOf (Some (PointerTo addr target))))) = false)
    as [Hloc Hro].
  { destruct target as [addr' target'|T]; [split; [by eexists|done]|].
    unfold Indirect in *. simpl in *.
    destruct (Type_Kind T); split; by eauto. }
  unfold sreflect.Reflect in H.
  destruct (bool_decide _); [by simplify_eq|].
  rewrite Htyp in H. simpl in H.
  destruct (sreflect.Reflect_fields _ _ _) as [[m|] [e|]] eqn:Hm; simplify_eq.
  unfold scannable. simpl.
  by eapply Reflect_fields_scannable; [exact Hloc|exact Hro|exact Hexp| |exact Hm].
Qed.

(** C5, as amended: reflecting a destination that is a pointer and not nil
    returns, and reflecting one that is no pointer panics, which is the
    assertion of [mustBe]; [zeroScanType] panics on the declared column
    types it does not know and on no other; routing the columns of a row
    returns when every column name that begins with the alias prefix holds
    the separator after it and the destinations are pointers to structs
    of exported fields. *)
Theorem panics_by_design :
  (forall (cache : sreflect.ReflectCache) (addr : nat) (target : GoValue),
     returns (sreflect.ReflectCache_Reflect cache (Some (PointerTo addr target)))) /\
  (forall (cache : sreflect.ReflectCache) (value : iface),
     Value_Kind (ValueOf value) <> Ptr ->
     panics (sreflect.ReflectCache_Reflect cache value)) /\
  (forall t : string,
     panics (zeroScanType t) <-> strings_ToUpper t ∉ known_column_types) /\
  (forall (qy : Query) (columns : list ColumnType)
          (structs : list sreflect.ReflectStruct) (fields : list recordBinding),
     Forall alias_has_separator columns ->
     Forall scannable structs ->
     returns (structMapping qy columns structs fields)).
Proof.
  split; [|split; [|split]].
  - intros cache addr target.
    unfold sreflect.ReflectCache_Reflect, sreflect.mustBe. simpl.
    destruct (sreflect.cache_get cache (TypeOf target)); [by eexists|].
    destruct (Reflect_returns (Indirect (ValueOf (Some (PointerTo addr target)))))
      as [[[ri|] [err|]] ->]; simpl; by eexists.
  - intros cache value Hkind.
    unfold sreflect.ReflectCache_Reflect, sreflect.mustBe.
    rewrite bool_decide_eq_true_2 by done. simpl. by eexists.
  - apply zeroScanType_panics.
  - intros qy columns structs fields Hcolumns Hstructs.
    by apply structMapping_returns.
Qed.

(** ** Further properties of the code *)

Lemma Reflect_fields_lookup value k :
  forall fields acc m,
    sreflect.Reflect_fields value fields acc = (Some m, None) ->
    m !! k = match last (fields_of_column k fields) with
             | Some f => Some (field_entry value f)
             | None => acc !! k
             end.
Proof.
  induction fields as [|f fields IH]; intros acc m H; simpl in H.
  - by simplify_eq.
  - destruct (sreflect.parseTag (Tag_Get (sf_Tag f) "db")) as [t [e|]] eqn:Hf;
      [discriminate|].
    apply IH in H. rewrite H. unfold fields_of_column. rewrite filter_cons.
    assert (Hkey : field_key f = column_key f t) by (unfold field_key; by rewrite Hf).
    destruct (decide (field_key f = k)) as [Hk|Hk].
    + rewrite last_cons. destruct (last (filter _ fields)); [done|].
      rewrite Hkey in Hk. unfold column_key in Hk. rewrite Hk, lookup_insert_eq.
      unfold field_entry. by rewrite Hf.
    + destruct (last (filter _ fields)); [done|].
      rewrite Hkey in Hk. unfold column_key in Hk. by rewrite lookup_insert_ne.
Qed.

(** X2: the descriptor that [Reflect] returns for a struct carries the
    name of the type and the dereferenced value, and under every column
    the entry of the last field of the type that is filed under the
    column; a column that no field is filed under has no entry. *)
Theorem Reflect_keeps_last_field_of_column (value : Value) (typ : GoType)
    (rs : sreflect.ReflectStruct) (k : string) :
  Value_Type (Indirect value) = Return typ ->
  sreflect.Reflect value = Return (Some (sreflect.IsStruct rs), None) ->
  sreflect.rs_Name rs = Type_Name typ /\
  sreflect.rs_Value rs = Indirect value /\
  sreflect.rs_Fields rs !! k
  = field_entry (Indirect value) <$> last (fields_of_column k (Type_Fields typ)).
Proof.
  intros Htyp H. unfold sreflect.Reflect in H.
  destruct (bool_decide _); [simplify_eq|].
  rewrite Htyp in H. simpl in H.
  destruct (sreflect.Reflect_fields _ _ _) as [[m|] [e|]] eqn:Hm; simplify_eq.
  simpl. split; [done|]. split; [done|].
  rewrite (Reflect_fields_lookup _ k _ _ _ Hm).
  destruct (last _); [done|]. by rewrite lookup_empty.
Qed.

#[local] Instance string_le_total : Total sreflect.string_le.
Proof. intros a b. apply String.leb_total. Qed.

Lemma FieldNames_keys (r : sreflect.ReflectStruct) :
  NoDup (sreflect.FieldNames r) /\
  forall name, name ∈ sreflect.FieldNames r <-> is_Some (sreflect.rs_Fields r !! name).
Proof.
  unfold sreflect.FieldNames, sreflect.sort_Strings. split.
  - rewrite merge_sort_Permutation. apply NoDup_fst_map_to_list.
  - intros name. rewrite merge_sort_Permutation, list_elem_of_fmap. split.
    + intros [[k v] [-> Hin]]. apply elem_of_map_to_list in Hin. by exists v.
    + intros [v Hv]. exists (name, v). split; [done|]. by apply elem_of_map_to_list.
Qed.

(** X3: [FieldNames] lists the keys of [Fields], each once, in ascending
    order. *)
Theorem FieldNames_sorted_keys (r : sreflect.ReflectStruct) :
  Sorted sreflect.string_le (sreflect.FieldNames r) /\
  NoDup (sreflect.FieldNames r) /\
  forall name, name ∈ sreflect.FieldNames r <-> is_Some (sreflect.rs_Fields r !! name).
Proof.
  split; [|apply FieldNames_keys].
  apply (Sorted_merge_sort sreflect.string_le).
Qed.

Lemma GoType_eqb_refl : forall t : GoType, GoType_eqb t t = true.
Proof.
  fix IH 1. intros [x|n x| x | | |k x|x|x|fs|n x]; simpl;
    rewrite ?IH, ?Z.eqb_refl, ?String.eqb_refl, ?bool_decide_eq_true_2; try done.
  induction fs as [|f fs IHfs]; [done|].
  rewrite !String.eqb_refl, IH. unfold tag_eqb at 1.
  rewrite bool_decide_eq_true_2 by done. simpl. exact IHfs.
Qed.

Lemma cache_get_set (r : sreflect.ReflectCache) (t : GoType) (ri : sreflect.ReflectInfo) :
  sreflect.cache_get (sreflect.cache_set r t ri) t = Some ri.
Proof. simpl. by rewrite GoType_eqb_refl. Qed.

Lemma Reflect_fields_nil_has_error value :
  forall fields acc, sreflect.Reflect_fields value fields acc <> (None, None).
Proof.
  induction fields as [|f fields IH]; intros acc; simpl; [done|].
  destruct (sreflect.parseTag _) as [t [e|]]; [done|]. apply IH.
Qed.

Lemma Reflect_nil_has_error (value : Value) :
  sreflect.Reflect value <> Return (None, None).
Proof.
  unfold sreflect.Reflect. destruct (bool_decide _); [done|].
  destruct (Value_Type _); simpl; [|done..].
  destruct (sreflect.Reflect_fields _ _ _) as [[m|] [e|]] eqn:Hm; try done.
  by apply Reflect_fields_nil_has_error in Hm.
Qed.

Lemma cached_descriptor_is_served (r r' : sreflect.ReflectCache)
    (a1 a2 : nat) (v1 v2 : GoValue) (ri : sreflect.ReflectInfo) :
  TypeOf v2 = TypeOf v1 ->
  sreflect.ReflectCache_Reflect r (Some (PointerTo a1 v1)) = Return (ri, None, r') ->
  sreflect.ReflectCache_Reflect r' (Some (PointerTo a2 v2)) = Return (ri, None, r').
Proof.
  intros Hty H. unfold sreflect.ReflectCache_Reflect in *. simpl in *.
  rewrite Hty. destruct (sreflect.cache_get r (TypeOf v1)) as [rs|] eqn:Hget.
  - simplify_eq. by rewrite Hget.
  - returned H. destruct a as [[ri'|] [e|]]; simplify_eq.
    + by rewrite cache_get_set.
    + by apply Reflect_nil_has_error in E.
Qed.

(** X4: the reflection cache is keyed by the type alone.  Once a pointer
    has been reflected without error, reflecting any pointer to a value of
    the same type returns the descriptor of the first, with the value of
    the first in it, and leaves the cache as it is. *)
Theorem ReflectCache_serves_first_descriptor (r r' : sreflect.ReflectCache)
    (a1 a2 : nat) (v1 v2 : GoValue) (ri : sreflect.ReflectInfo) :
  TypeOf v2 = TypeOf v1 ->
  sreflect.ReflectCache_Reflect r (Some (PointerTo a1 v1)) = Return (ri, None, r') ->
  sreflect.ReflectCache_Reflect r' (Some (PointerTo a2 v2)) = Return (ri, None, r').
Proof. apply cached_descriptor_is_served. Qed.

(** *** The guard of [reflectValues] *)

Lemma reflectValues_from_kinds :
  forall (values : list iface) (cache cache' : sreflect.ReflectCache) (i : Z)
         (acc entities : list sreflect.ReflectInfo),
    reflectValues_from cache i values acc = Return (entities, None, cache') ->
    i = Z.of_nat (length acc) ->
    same_kind_after_first acc ->
    length entities = (length acc + length values)%nat /\
    same_kind_after_first entities.
Proof.
  induction values as [|value values IH]; intros cache cache' i acc entities H Hi Hacc;
    simpl in H.
  - simplify_eq. split; [simpl; lia|done].
  - returned H. destruct a as [[entity err] cache1].
    destruct err as [e|]; [discriminate|].
    assert (Hnext : i + 1 = Z.of_nat (length (acc ++ [entity])))
      by (rewrite length_app; simpl; lia).
    assert (Hlen : forall n, n = (length (acc ++ [entity]) + length values)%nat ->
                             n = (length acc + length (value :: values))%nat)
      by (intros n ->; rewrite length_app; simpl; lia).
    destruct (last acc) as [previous|] eqn:Hlast.
    + destruct ((i >? 1) && bool_decide _) eqn:Hguard; [discriminate|].
      apply IH in H as [H1 H2]; [split; [by apply Hlen|done]|done|].
      intros j a b Hj Ha Hb.
      destruct (decide (S j < length acc)%nat) as [Hlt|Hge].
      * rewrite lookup_app_l in Ha by lia. rewrite lookup_app_l in Hb by lia.
        by apply (Hacc j).
      * apply lookup_lt_Some in Hb as Hb'. rewrite length_app in Hb'. simpl in Hb'.
        assert (S j = length acc) as Hj' by lia.
        rewrite lookup_app_l in Ha by lia.
        rewrite lookup_app_r in Hb by lia.
        replace (S j - length acc)%nat with 0%nat in Hb by lia. simpl in Hb.
        simplify_eq.
        rewrite last_lookup in Hlast. rewrite <- Hj' in Hlast. simpl in Hlast.
        rewrite Ha in Hlast. simplify_eq.
        apply andb_false_iff in Hguard as [Hguard|Hguard]; [lia|].
        apply bool_decide_eq_false in Hguard. by destruct (decide (sreflect.ReflectInfo_Kind previous = sreflect.ReflectInfo_Kind b)).
    + apply last_None in Hlast. subst acc.
      apply IH in H as [H1 H2]; [split; [by apply Hlen|done]|done|].
      intros j a b Hj Ha Hb. apply lookup_lt_Some in Hb. simpl in Hb. lia.
Qed.

Lemma same_kind_chain (l : list sreflect.ReflectInfo) :
  same_kind_after_first l ->
  forall (d i : nat) a b,
    (1 <= i)%nat -> l !! i = Some a -> l !! (i + d)%nat = Some b ->
    sreflect.ReflectInfo_Kind a = sreflect.ReflectInfo_Kind b.
Proof.
  intros Hl. induction d as [|d IH]; intros i a b Hi Ha Hb.
  - rewrite Nat.add_0_r in Hb. congruence.
  - replace (i + S d)%nat with (S (i + d)) in Hb by lia.
    destruct (lookup_lt_is_Some_2 l (i + d)) as [c Hc].
    { apply lookup_lt_Some in Hb. lia. }
    rewrite (IH i a c Hi Ha Hc). apply (Hl (i + d)%nat); [lia|done..].
Qed.

Lemma reflectValues_shape (q q' : Querier) (values : list iface)
    (entities : list sreflect.ReflectInfo) :
  reflectValues q values = Return (entities, None, q') ->
  length entities = length values /\ same_kind_after_first entities.
Proof.
  intros H. unfold reflectValues in H. returned H.
  destruct a as [[entities' err] cache]. simplify_eq.
  apply reflectValues_from_kinds in E; [done..|].
  intros i a b _ Ha. by rewrite lookup_nil in Ha.
Qed.

(** X5: when [reflectValues] returns no error it returns one entity for
    each value, and all entities after the first are of one kind.  The
    kind of the first is not compared. *)
Theorem reflectValues_one_kind_after_first (q q' : Querier) (values : list iface)
    (entities : list sreflect.ReflectInfo) :
  reflectValues q values = Return (entities, None, q') ->
  length entities = length values /\
  forall (i j : nat) a b,
    (1 <= i)%nat -> (1 <= j)%nat ->
    entities !! i = Some a -> entities !! j = Some b ->
    sreflect.ReflectInfo_Kind a = sreflect.ReflectInfo_Kind b.
Proof.
  intros H. apply reflectValues_shape in H as [Hlen Hkind].
  - split; [done|]. intros i j a b Hi Hj Ha Hb.
    destruct (decide (i <= j)%nat) as [Hle|Hgt].
    + apply (same_kind_chain _ Hkind (j - i) i); [done..|].
      by replace (i + (j - i))%nat with j by lia.
    + symmetry. apply (same_kind_chain _ Hkind (i - j) j); [done..|].
      by replace (j + (i - j))%nat with i by lia.
Qed.

(** X6: [ForOne] returns one error only: the one for more than one
    destination when the first is a map.  It then returns the zero
    [Query]. *)
Theorem ForOne_only_error (q q' : Querier) (values : list iface) (qy : Query)
    (err : goerror) :
  ForOne q values = Return (qy, Some err, q') ->
  qy = zero_Query /\
  (1 < length values)%nat /\
  err = Errorf "expected one map for query, got %d" [AInt (Z.of_nat (length values))] /\
  exists entities first,
    reflectValues q values = Return (entities, None, q') /\
    head entities = Some first /\
    sreflect.ReflectInfo_Kind first = Map.
Proof.
  intros H. unfold ForOne in H. returned H.
  destruct a as [[entities err'] q1]. destruct err' as [e|]; [simplify_eq|].
  destruct values as [|value values]; [simplify_eq|].
  destruct entities as [|first entities]; [discriminate|].
  destruct (sreflect.ReflectInfo_Kind first) eqn:Hkind; try (by simplify_eq);
    returned H; try (by simplify_eq).
  - simplify_eq. apply Nat.ltb_lt in E0. repeat split; [done|].
    by exists (first :: entities), first.
  - returned H. simplify_eq.
Qed.

(** X28: a second destination of the type of the first is bound to the
    first.  When [ForOne] has bound a pointer, binding another pointer to
    a value of the same type returns the very same query, whose entities
    and plan hold the value and the field addresses of the first
    destination, and leaves the querier as it is. *)
Theorem ForOne_binds_the_first_destination (q q1 : Querier) (a1 a2 : nat)
    (v1 v2 : GoValue) (qy : Query) :
  TypeOf v2 = TypeOf v1 ->
  ForOne q [Some (PointerTo a1 v1)] = Return (qy, None, q1) ->
  qy <> zero_Query ->
  ForOne q1 [Some (PointerTo a2 v2)] = Return (qy, None, q1).
Proof.
  intros Hty H Hqy. unfold ForOne, reflectValues in *. simpl in *.
  destruct (sreflect.ReflectCache_Reflect (q_reflect q) (Some (PointerTo a1 v1)))
    as [[[entity err] cache]| |] eqn:Href; simpl in H; [|discriminate..].
  destruct err as [e|]; [simpl in H; by simplify_eq|]. simpl in H.
  assert (Hq1 : q1 = set_reflect q cache).
  { destruct (sreflect.ReflectInfo_Kind entity); try (by simplify_eq);
      returned H; by simplify_eq. }
  subst q1. simpl.
  rewrite (cached_descriptor_is_served _ _ a1 a2 v1 v2 _ Hty Href). simpl.
  exact H.
Qed.

Lemma ForMany_slices_shape :
  forall (structs : list sreflect.ReflectInfo) (q q' : Querier) refSlice,
    ForMany_slices q structs = Return (inl refSlice, q') ->
    structs = map (fun s => sreflect.IsValue (slice s)) refSlice /\
    Forall (fun e => sreflect.ReflectInfo_Kind e = Slice) structs.
Proof.
  induction structs as [|entity structs IH]; intros q q' refSlice H; simpl in H.
  - by simplify_eq.
  - destruct (sreflect.ReflectInfo_Kind entity) eqn:Hkind; try (by simplify_eq).
    returned H. returned H. returned H.
    destruct (reflect_New q a1) as [virtual q1].
    returned H. destruct a2 as [[el err] cache]. destruct err; [by simplify_eq|].
    destruct el as [|elementRefStruct]; [by simplify_eq|].
    returned H. destruct a2 as [rest q2]. destruct rest as [rs|e]; simplify_eq.
    apply IH in E3 as [-> Hall]. destruct entity; [|discriminate].
    simpl in E. simplify_eq. split; [done|]. by apply Forall_cons_2.
Qed.

(** X7: when [ForMany] returns no error, its query is the zero [Query]
    (the reflection of the values failed) or its plan is the slice scan
    with one entry for each value, in their order, and every entity is of
    kind slice. *)
Theorem ForMany_binds_slices (q q' : Querier) (values : list iface) (qy : Query) :
  ForMany q values = Return (qy, None, q') ->
  qy = zero_Query \/
  exists refSlice,
    executePlan qy = Some (planSliceStructScan refSlice) /\
    entities qy = map (fun s => sreflect.IsValue (slice s)) refSlice /\
    length refSlice = length values /\
    Forall (fun e => sreflect.ReflectInfo_Kind e = Slice) (entities qy).
Proof.
  intros H. unfold ForMany in H. destruct values as [|value values]; [discriminate|].
  returned H. destruct a as [[structs err] q1]. destruct err; [left; by simplify_eq|].
  returned H. destruct a as [res q2]. destruct res as [refSlice|e]; simplify_eq.
  right. exists refSlice. simpl.
  apply reflectValues_shape in E as [Hlen _].
  apply ForMany_slices_shape in E0 as [-> Hall].
  rewrite length_map in Hlen. done.
Qed.

(** *** The first prefix of a statement *)

Lemma get_bytes_of (s : string) :
  forall n : nat, bytes_of s !! n = rune_of_byte <$> String.get n s.
Proof.
  unfold bytes_of. induction s as [|a s IH]; intros n; simpl.
  - by destruct n.
  - destruct n as [|n]; [done|]. simpl. apply IH.
Qed.

Lemma length_bytes_of (s : string) : length (bytes_of s) = String.length s.
Proof.
  unfold bytes_of. rewrite length_map.
  induction s as [|a s IH]; simpl; [done|]. by rewrite IH.
Qed.

Lemma byte_at_bytes_of (s : string) (j : Z) (c : rune) :
  byte_at s j = Return c <-> 0 <= j /\ bytes_of s !! Z.to_nat j = Some c.
Proof.
  unfold byte_at. rewrite get_bytes_of. split.
  - destruct ((0 <=? j) && (j <? len s)) eqn:Hj; [|discriminate].
    apply andb_true_iff in Hj as [Hj%Z.leb_le _].
    destruct (String.get _ s); intros H; by simplify_eq.
  - intros [Hj H]. destruct (String.get (Z.to_nat j) s) as [a|] eqn:Ha; simplify_eq/=.
    assert (Z.to_nat j < String.length s)%nat as Hlt.
    { destruct (decide (Z.to_nat j < String.length s)%nat) as [|Hge]; [done|].
      assert (bytes_of s !! Z.to_nat j = None) as Hnone.
      { apply lookup_ge_None. rewrite length_bytes_of. lia. }
      rewrite get_bytes_of, Ha in Hnone. discriminate. }
    rewrite (proj2 (andb_true_iff _ _)); [done|].
    split; [by apply Z.leb_le|apply Z.ltb_lt; unfold len; lia].
Qed.

Lemma IndexByte_from_spec (c : Z) :
  forall (bs : list Z) (i : Z),
    (IndexByte_from bs c i = -1 /\ forall n : nat, bs !! n <> Some c) \/
    (exists n : nat, IndexByte_from bs c i = i + Z.of_nat n /\ bs !! n = Some c /\
                     forall m : nat, (m < n)%nat -> bs !! m <> Some c).
Proof.
  induction bs as [|b bs IH]; intros i; simpl.
  - left. split; [done|]. intros n. by rewrite lookup_nil.
  - destruct (b =? c) eqn:Hb.
    + apply Z.eqb_eq in Hb as ->. right. exists 0%nat.
      split; [lia|]. split; [done|]. intros m Hm. lia.
    + apply Z.eqb_neq in Hb. destruct (IH (i + 1)) as [[-> Hn]|(n & -> & Hn & Hm)].
      * left. split; [done|]. intros [|n]; simpl; [congruence|apply Hn].
      * right. exists (S n). split; [lia|]. split; [done|].
        intros [|m] Hlt; simpl; [congruence|apply Hm; lia].
Qed.

Lemma prefixes_Some (c : rune) : is_Some (prefixes c) <-> c ∈ prefix_runes.
Proof.
  unfold prefixes, prefix_runes. rewrite !elem_of_cons, elem_of_nil.
  destruct (c =? 58) eqn:E1; [apply Z.eqb_eq in E1; simpl; split; eauto|].
  destruct (c =? 64) eqn:E2; [apply Z.eqb_eq in E2; simpl; split; eauto|].
  destruct (c =? 36) eqn:E3; [apply Z.eqb_eq in E3; simpl; split; eauto|].
  destruct (c =? 63) eqn:E4; [apply Z.eqb_eq in E4; simpl; split; eauto 6|].
  apply Z.eqb_neq in E1, E2, E3, E4. simpl. split.
  - by intros [? ?].
  - intros [?|[?|[?|[?|[]]]]]; done.
Qed.

(** The search for the least index keeps, for the prefixes it has gone
    through, that none occurs before the index it holds. *)
Lemma least_index_invariant (stmt : string) :
  forall (ps : list rune) (D : rune -> Prop) (res : Z) (found : bool),
    (forall (p : rune) (m : nat), D p -> Z.of_nat m < res -> bytes_of stmt !! m <> Some p) ->
    (if found then exists p, D p /\ 0 <= res /\ bytes_of stmt !! Z.to_nat res = Some p
     else res = len stmt + 1) ->
    let '(res', found') :=
      foldl (fun '(res, found) prefix =>
               let index := strings_IndexRune stmt prefix in
               if (0 <=? index) && (index <? res) then (index, true)
               else (res, found))
            (res, found) ps in
    (forall (p : rune) (m : nat),
       D p \/ p ∈ ps -> Z.of_nat m < res' -> bytes_of stmt !! m <> Some p) /\
    (if (found' : bool)
     then exists p, (D p \/ p ∈ ps) /\ 0 <= res' /\ bytes_of stmt !! Z.to_nat res' = Some p
     else res' = len stmt + 1).
Proof.
  induction ps as [|p ps IH]; intros D res found Hbefore Hfound; simpl.
  - split.
    + intros p m [Hp|Hp%elem_of_nil]; [by apply Hbefore|done].
    + destruct found; [|done]. destruct Hfound as (p & Hp & H). eauto.
  - set (index := strings_IndexRune stmt p).
    assert (Hspec := IndexByte_from_spec p (bytes_of stmt) 0).
    fold (strings_IndexRune stmt p) in Hspec. fold index in Hspec.
    set (next := if (0 <=? index) && (index <? res) then (index, true) else (res, found)).
    specialize (IH (fun x => D x \/ x = p) next.1 next.2).
    destruct next as [res1 found1] eqn:Hnext. simpl in IH.
    destruct (foldl _ (res1, found1) ps) as [res' found'] eqn:Hfold.
    assert (Hgoal :
      (forall (q : rune) (m : nat), D q \/ q = p -> Z.of_nat m < res1 ->
                                    bytes_of stmt !! m <> Some q) /\
      (if found1
       then exists q, (D q \/ q = p) /\ 0 <= res1 /\ bytes_of stmt !! Z.to_nat res1 = Some q
       else res1 = len stmt + 1)).
    { subst next. destruct Hspec as [[Hidx Hnone]|(n & Hidx & Hn & Hm)].
      - rewrite Hidx in Hnext. simpl in Hnext. simplify_eq. split.
        + intros q m [Hq| ->] Hlt; [by apply Hbefore|apply Hnone].
        + destruct found1; [|done]. destruct Hfound as (q & Hq & H). eauto.
      - destruct ((0 <=? index) && (index <? res)) eqn:Htest; simplify_eq.
        + apply andb_true_iff in Htest as [_ Htest%Z.ltb_lt]. split.
          * intros q m [Hq| ->] Hlt; [apply Hbefore; [done|lia]|apply Hm; lia].
          * exists p. split; [by right|]. split; [lia|].
            rewrite Hidx. by replace (Z.to_nat (0 + Z.of_nat n)) with n by lia.
        + apply andb_false_iff in Htest as [Htest%Z.leb_gt|Htest%Z.ltb_ge]; [lia|].
          split.
          * intros q m [Hq| ->] Hlt; [by apply Hbefore|apply Hm; lia].
          * destruct found1; [|done]. destruct Hfound as (q & Hq & H). eauto. }
    destruct Hgoal as [H1 H2]. specialize (IH H1 H2) as [IH1 IH2]. split.
    + intros q m Hq. apply IH1. rewrite elem_of_cons in Hq. tauto.
    + destruct found'; [|done]. destruct IH2 as (q & Hq & H). exists q.
      split; [|done]. rewrite elem_of_cons. tauto.
Qed.

Lemma first_prefix_spec (stmt : string) :
  let i := indexOfInputNamedArgs stmt in
  (forall j, j < i \/ i = -1 -> ~ prefix_at stmt j) /\
  (i <> -1 -> prefix_at stmt i).
Proof.
  unfold indexOfInputNamedArgs.
  pose proof (least_index_invariant stmt prefix_runes (fun _ => False)
                (len stmt + 1) false) as H.
  destruct (foldl _ _ prefix_runes) as [res found].
  destruct H as [Hbefore Hfound]; [done..|].
  assert (Hno : forall j, j < res -> ~ prefix_at stmt j).
  { intros j Hj (c & Hc & Hp). apply prefixes_Some in Hp.
    apply byte_at_bytes_of in Hc as [Hj0 Hc].
    apply (Hbefore c (Z.to_nat j)); [by right|lia|done]. }
  destruct found.
  - destruct Hfound as (p & [[]|Hp] & Hres & Hat). split.
    + intros j [Hj|Hj]; [by apply Hno|lia].
    + intros _. exists p. split; [by apply byte_at_bytes_of|by apply prefixes_Some].
  - subst res. split; [|done]. intros j _ Hj. apply (Hno j); [|done].
    destruct Hj as (c & Hc & _). apply byte_at_in_range in Hc. lia.
Qed.

(** X8: [indexOfInputNamedArgs] returns the index of the first byte of
    the statement that is one of the four prefixes: no byte before it is
    a prefix, and it is -1 only when the statement holds no prefix. *)
Theorem indexOfInputNamedArgs_first_prefix (stmt : string) :
  let i := indexOfInputNamedArgs stmt in
  (forall j, j < i \/ i = -1 -> ~ prefix_at stmt j) /\
  (i <> -1 -> prefix_at stmt i).
Proof. apply first_prefix_spec. Qed.

(** The equation of one iteration of the outer loop of [parseNames]. *)
Lemma parseNames_from_S (fuel : nat) stmt i names :
  parseNames_from (S fuel) stmt i names =
  if i <? len stmt then
    r ← byte_at stmt i;
    match prefixes r with
    | Some predicate =>
      bare ← (if (r =? 63) && (i + 1 <? len stmt)
              then isNameTerminator <$> byte_at stmt (i + 1)
              else Return false);
      if (bare : bool) then parseNames_from fuel stmt (i + 1) names
      else
        read ← readName (S (String.length stmt)) predicate stmt (i + 1) "";
        match read with
        | None =>
          Return ([], Some (Errorf
            "unexpected named argument found in statement %q" [AStr stmt]))
        | Some (i, name) =>
          let names := names ++ [{| nb_prefix := r; nb_name := name |}] in
          if i >=? len stmt then Return (sort_by_name names, None)
          else
            rest ← slice_from stmt i;
            let index := indexOfInputNamedArgs rest in
            if index =? -1 then Return (sort_by_name names, None)
            else parseNames_from fuel stmt (i + (index - 1) + 1) names
        end
    | None => parseNames_from fuel stmt (i + 1) names
    end
  else Return (sort_by_name names, None).
Proof. reflexivity. Qed.

#[local] Arguments parseNames_from : simpl never.

(** The loop passes the bytes that are no prefix one at a time. *)
Lemma parseNames_from_skip stmt names :
  forall (n fuel : nat) (i : Z),
    0 <= i -> i + Z.of_nat n <= len stmt ->
    (forall j, i <= j < i + Z.of_nat n -> ~ prefix_at stmt j) ->
    parseNames_from (n + fuel) stmt i names
    = parseNames_from fuel stmt (i + Z.of_nat n) names.
Proof.
  induction n as [|n IH]; intros fuel i Hi Hlen Hno.
  - simpl. by rewrite Z.add_0_r.
  - replace (S n + fuel)%nat with (S (n + fuel)) by lia. rewrite parseNames_from_S.
    rewrite (proj2 (Z.ltb_lt _ _)) by lia.
    destruct (byte_at_returns stmt i) as [r Hr]; [lia|]. rewrite Hr. simpl.
    destruct (prefixes r) eqn:Hp.
    { exfalso. apply (Hno i); [lia|]. exists r. by rewrite Hp. }
    rewrite IH; [f_equal; lia|lia|lia|]. intros j Hj. apply Hno. lia.
Qed.

(** The result of the loop does not depend on the iterations it is
    given, once they are enough. *)
Lemma parseNames_from_fuel stmt :
  forall (f1 f2 : nat) (i : Z) (names : list nameBinding),
    0 <= i -> (0 < f1)%nat -> (0 < f2)%nat ->
    len stmt - i < Z.of_nat f1 -> len stmt - i < Z.of_nat f2 ->
    parseNames_from f1 stmt i names = parseNames_from f2 stmt i names.
Proof.
  induction f1 as [|f1 IH]; intros f2 i names Hi H1 H2 Hf1 Hf2; [lia|].
  destruct f2 as [|f2]; [lia|]. rewrite !parseNames_from_S.
  destruct (i <? len stmt) eqn:Hlt; [|done]. apply Z.ltb_lt in Hlt.
  destruct (byte_at_returns stmt i) as [r ->]; [lia|]. simpl.
  destruct (prefixes r) as [predicate|]; [|apply IH; lia].
  destruct (if (r =? 63) && (i + 1 <? len stmt)
            then isNameTerminator <$> byte_at stmt (i + 1) else Return false)
    as [bare| |]; simpl; [|done..].
  destruct bare; [apply IH; lia|].
  destruct (readName_returns predicate stmt (S (String.length stmt)) (i + 1) "")
    as (read & -> & Hread); [lia|lia|unfold len; lia|].
  simpl. destruct read as [[i' name]|]; [|done].
  specialize (Hread _ _ eq_refl).
  destruct (i' >=? len stmt) eqn:Hge; [done|].
  destruct (slice_from stmt i') as [rest| |]; simpl; [|done..].
  destruct (indexOfInputNamedArgs_range rest) as [-> | Hidx]; [done|].
  destruct (indexOfInputNamedArgs rest =? -1); [done|]. apply IH; lia.
Qed.

Lemma parseNames_none (stmt : string) :
  indexOfInputNamedArgs stmt = -1 -> parseNames stmt 0 = Return ([], None).
Proof.
  intros Hidx. unfold parseNames.
  replace (S (String.length stmt)) with (String.length stmt + 1)%nat by lia.
  rewrite parseNames_from_skip; [|lia|unfold len; lia|].
  - rewrite parseNames_from_S. rewrite (proj2 (Z.ltb_ge _ _)); [done|unfold len; lia].
  - intros j _. apply first_prefix_spec. by right.
Qed.

(** X9: a statement in which [indexOfInputNamedArgs] finds no prefix has
    no binding: [parseNames] from its start returns the empty list and no
    error. *)
Theorem parseNames_without_prefix (stmt : string) :
  indexOfInputNamedArgs stmt = -1 -> parseNames stmt 0 = Return ([], None).
Proof. apply parseNames_none. Qed.

Lemma parseNames_offset (stmt : string) :
  0 <= indexOfInputNamedArgs stmt ->
  parseNames stmt (indexOfInputNamedArgs stmt) = parseNames stmt 0.
Proof.
  intros Hidx. unfold parseNames.
  destruct (first_prefix_spec stmt) as [Hbefore Hat].
  destruct Hat as (c & Hc & _); [lia|]. apply byte_at_in_range in Hc.
  set (n := Z.to_nat (indexOfInputNamedArgs stmt)).
  replace (indexOfInputNamedArgs stmt) with (0 + Z.of_nat n) at 1 by lia.
  replace (S (String.length stmt)) with (n + (S (String.length stmt) - n))%nat at 2
    by (unfold len in Hc; lia).
  rewrite (parseNames_from_skip stmt [] n); [|lia|lia|].
  - apply parseNames_from_fuel; unfold len in *; lia.
  - intros j Hj. apply Hbefore. lia.
Qed.

(** X10: scanning from the first prefix loses nothing: [parseNames] from
    the index that [indexOfInputNamedArgs] returns gives what [parseNames]
    gives from the start of the statement. *)
Theorem parseNames_from_first_prefix (stmt : string) :
  0 <= indexOfInputNamedArgs stmt ->
  parseNames stmt (indexOfInputNamedArgs stmt) = parseNames stmt 0.
Proof. apply parseNames_offset. Qed.

(** *** The names of the bindings *)

Lemma append_assoc (a b c : string) : (a +:+ b) +:+ c = a +:+ (b +:+ c).
Proof.
  induction a as [|x a IH]; [reflexivity|].
  change (String x ((a +:+ b) +:+ c) = String x (a +:+ (b +:+ c))). by f_equal.
Qed.

Lemma append_empty (a : string) : a +:+ "" = a.
Proof.
  induction a as [|x a IH]; [reflexivity|].
  change (String x (a +:+ "") = String x a). by f_equal.
Qed.

Lemma readName_spells predicate stmt :
  forall (fuel : nat) (i : Z) (name : string) i' name',
    readName fuel predicate stmt i name = Return (Some (i', name')) ->
    exists chars, Forall (fun c => predicate c = true) chars /\
                  name' = name +:+ spelled chars.
Proof.
  induction fuel as [|fuel IH]; intros i name i' name' H; [discriminate|].
  rewrite readName_S in H. destruct (i <? len stmt).
  - bind_inv H. destruct (predicate a) eqn:Ha.
    + apply IH in H as (chars & Hchars & ->). exists (a :: chars).
      split; [by apply Forall_cons_2|]. simpl. by rewrite append_assoc.
    + destruct (isNameTerminator a); simplify_eq/=.
      exists []. split; [done|]. simpl. by rewrite append_empty.
  - simplify_eq/=. exists []. split; [done|]. simpl. by rewrite append_empty.
Qed.

Lemma sort_by_name_Forall (P : nameBinding -> Prop) names :
  Forall P names -> Forall P (sort_by_name names).
Proof. unfold sort_by_name. by rewrite merge_sort_Permutation. Qed.

Lemma parseNames_from_well_formed stmt :
  forall (fuel : nat) (i : Z) (names l : list nameBinding) err,
    parseNames_from fuel stmt i names = Return (l, err) ->
    Forall well_formed_binding names -> Forall well_formed_binding l.
Proof.
  induction fuel as [|fuel IH]; intros i names l err H Hnames; [discriminate|].
  rewrite parseNames_from_S in H.
  destruct (i <? len stmt); [|simplify_eq; by apply sort_by_name_Forall].
  bind_inv H. destruct (prefixes a) as [predicate|] eqn:Hp; [|by eapply IH].
  bind_inv H. destruct a0; [by eapply IH|].
  bind_inv H. destruct a0 as [[i' name]|]; [|by simplify_eq].
  apply readName_spells in E1 as (chars & Hchars & Hname). simpl in Hname.
  assert (Forall well_formed_binding (names ++ [{| nb_prefix := a; nb_name := name |}]))
    as Hnames'.
  { apply Forall_app_2; [done|]. apply Forall_cons_2; [|done].
    exists predicate, chars. by simplify_eq/=. }
  destruct (i' >=? len stmt); [simplify_eq; by apply sort_by_name_Forall|].
  bind_inv H.
  destruct (indexOfInputNamedArgs a0 =? -1);
    [simplify_eq; by apply sort_by_name_Forall|by eapply IH].
Qed.

(** X11: every binding that [parseNames] returns has one of the four
    prefixes and a name spelled by characters that the predicate of its
    prefix accepts. *)
Theorem parseNames_bindings_well_formed (stmt : string) (offset : Z)
    (names : list nameBinding) (err : error) :
  parseNames stmt offset = Return (names, err) ->
  Forall well_formed_binding names.
Proof. intros H. by apply parseNames_from_well_formed in H. Qed.

(** *** The alias of a column *)

Lemma split_from_cons (sep : string) (a : ascii) (s cur : string) :
  split_from sep (String a s) cur 0 =
  if String.prefix sep (String a s)
  then cur :: split_from sep s "" (String.length sep - 1)
  else split_from sep s (cur +:+ String a EmptyString) 0.
Proof. reflexivity. Qed.

Lemma split_from_passes (sep rest : string) :
  forall (p cur : string),
    no_occurrence_in sep (p +:+ rest) (String.length p) = true ->
    split_from sep (p +:+ rest) cur 0 = split_from sep rest (cur +:+ p) 0.
Proof.
  induction p as [|a p IH]; intros cur H.
  - by rewrite append_empty.
  - change (String a p +:+ rest) with (String a (p +:+ rest)) in *.
    change (negb (String.prefix sep (String a (p +:+ rest))) &&
            no_occurrence_in sep (p +:+ rest) (String.length p) = true) in H.
    apply andb_true_iff in H as [H1 H2]. apply negb_true_iff in H1.
    rewrite split_from_cons, H1, IH by done. rewrite append_assoc. reflexivity.
Qed.

Lemma prefix_append (a s : string) : String.prefix a (a +:+ s) = true.
Proof.
  induction a as [|x a IH]; [by destruct s|].
  change (String x a +:+ s) with (String x (a +:+ s)).
  change (match ascii_dec x x with
          | left _ => String.prefix a (a +:+ s) | right _ => false end = true).
  by destruct (ascii_dec x x).
Qed.

Lemma split_from_skips (sep : string) :
  forall (a s cur : string),
    split_from sep (a +:+ s) cur (String.length a) = split_from sep s cur 0.
Proof.
  induction a as [|x a IH]; intros s cur; [reflexivity|].
  change (split_from sep (a +:+ s) cur (String.length a) = split_from sep s cur 0).
  apply IH.
Qed.

(** At an occurrence of the separator a piece ends and the next begins
    after it. *)
Lemma split_from_separator (x : ascii) (sep s cur : string) :
  split_from (String x sep) (String x sep +:+ s) cur 0
  = cur :: split_from (String x sep) s "" 0.
Proof.
  change (String x sep +:+ s) with (String x (sep +:+ s)).
  rewrite split_from_cons.
  change (String x (sep +:+ s)) with (String x sep +:+ s).
  rewrite prefix_append.
  change (String.length (String x sep) - 1)%nat with (String.length sep - 0)%nat.
  rewrite Nat.sub_0_r. by rewrite split_from_skips.
Qed.

Lemma substring_all (s : string) : String.substring 0 (String.length s) s = s.
Proof.
  induction s as [|a s IH]; [reflexivity|].
  change (String a (String.substring 0 (String.length s) s) = String a s). by f_equal.
Qed.

Lemma substring_append (a s : string) :
  String.substring (String.length a) (String.length (a +:+ s) - String.length a) (a +:+ s)
  = s.
Proof.
  rewrite length_append. replace (String.length a + String.length s - String.length a)%nat
    with (String.length s) by lia.
  induction a as [|x a IH]; [apply substring_all|]. exact IH.
Qed.

Lemma split_alias_decodes (prefix name : string) :
  no_occurrence_in AliasSeparator (prefix +:+ AliasSeparator +:+ name)
                   (String.length prefix) = true ->
  strings_Split name AliasSeparator = [name] ->
  split_alias (AliasPrefix +:+ prefix +:+ AliasSeparator +:+ name)
  = Return (name, prefix).
Proof.
  intros Hprefix Hname. unfold split_alias, strings_HasPrefix, slice_from.
  rewrite prefix_append.
  rewrite (proj2 (andb_true_iff _ _)).
  2:{ split; [done|]. apply Z.leb_le. unfold len. rewrite length_append. lia. }
  unfold len. rewrite Nat2Z.id, substring_append.
  change (Return (prefix +:+ AliasSeparator +:+ name) ≫= ?f)
    with (f (prefix +:+ AliasSeparator +:+ name)). cbv beta.
  unfold strings_Split. rewrite split_from_passes by done.
  unfold AliasSeparator at 1 2. rewrite split_from_separator.
  unfold strings_Split, AliasSeparator in Hname. rewrite Hname. reflexivity.
Qed.

(** X12: the alias that [constructFieldNameAlias] writes for a column
    that entities share is read back by [structMapping].  For a record
    with a prefix and a name in the intersection the result is
    [prefix.name AS alias], and the alias splits into the same name and
    prefix, provided that no separator begins inside the prefix and that
    the name holds none. *)
Theorem alias_round_trip (name : string) (record : recordBinding)
    (intersection : gset string) :
  rb_prefix record <> "" ->
  name ∈ intersection ->
  no_occurrence_in AliasSeparator (rb_prefix record +:+ AliasSeparator +:+ name)
                   (String.length (rb_prefix record)) = true ->
  strings_Split name AliasSeparator = [name] ->
  exists alias,
    constructFieldNameAlias name record intersection
    = rb_prefix record +:+ "." +:+ name +:+ " AS " +:+ alias /\
    split_alias alias = Return (name, rb_prefix record).
Proof.
  intros Hprefix Hin Hfree Hname.
  exists (AliasPrefix +:+ rb_prefix record +:+ AliasSeparator +:+ name). split.
  - unfold constructFieldNameAlias.
    rewrite (proj2 (String.eqb_neq _ _)) by done.
    by rewrite bool_decide_eq_true_2.
  - by apply split_alias_decodes.
Qed.

(** *** The scan planner *)

Lemma structMapping_entity_first columnName prefix fields :
  forall (structs : list sreflect.ReflectStruct) found,
    structMapping_entity columnName prefix structs fields = Return found ->
    match found with
    | None => Forall (passes_over columnName prefix fields) structs
    | Some loc =>
      exists before entity after field,
        structs = before ++ entity :: after /\
        Forall (passes_over columnName prefix fields) before /\
        sreflect.rs_Fields entity !! columnName = Some field /\
        ~ passes_over columnName prefix fields entity /\
        Value_Addr_Interface (sreflect.rf_Value field) = Return loc
    end.
Proof.
  induction structs as [|entity structs IH]; intros found H; simpl in H.
  - by simplify_eq.
  - assert (Hcons : forall found,
      passes_over columnName prefix fields entity ->
      structMapping_entity columnName prefix structs fields = Return found ->
      match found with
      | None => Forall (passes_over columnName prefix fields) (entity :: structs)
      | Some loc =>
        exists before entity0 after field,
          entity :: structs = before ++ entity0 :: after /\
          Forall (passes_over columnName prefix fields) before /\
          sreflect.rs_Fields entity0 !! columnName = Some field /\
          ~ passes_over columnName prefix fields entity0 /\
          Value_Addr_Interface (sreflect.rf_Value field) = Return loc
      end).
    { intros found' Hpass H'. apply IH in H'. destruct found' as [loc|].
      - destruct H' as (before & e & after & field & -> & Hbefore & H').
        exists (entity :: before), e, after, field. split; [done|].
        split; [by apply Forall_cons_2|done].
      - by apply Forall_cons_2. }
    destruct (sreflect.rs_Fields entity !! columnName) as [field|] eqn:Hfield;
      [|apply Hcons; [by left|done]].
    destruct (negb (String.eqb prefix "") && negb (existsb _ fields)) eqn:Htest.
    + apply Hcons; [|done]. right.
      apply andb_true_iff in Htest as [Hp%negb_true_iff Hb%negb_true_iff].
      apply String.eqb_neq in Hp. split; [done|]. intros binding Hin [Hname Hprefix].
      assert (existsb (fun binding =>
                String.eqb (rb_name binding) (sreflect.rs_Name entity) &&
                String.eqb (rb_prefix binding) prefix) fields = true) as Hex; [|congruence].
      apply existsb_exists. exists binding. split; [by apply list_elem_of_In|].
      apply andb_true_iff. split; by apply String.eqb_eq.
    + returned H. simplify_eq. exists [], entity, structs, field.
      split; [done|]. split; [done|]. split; [done|]. split; [|done].
      intros [Hnone|[Hp Hno]]; [congruence|].
      apply andb_false_iff in Htest as [Htest|Htest].
      * apply negb_false_iff, String.eqb_eq in Htest. done.
      * apply negb_false_iff, existsb_exists in Htest as (binding & Hin & Hb).
        apply andb_true_iff in Hb as [H1%String.eqb_eq H2%String.eqb_eq].
        apply (Hno binding); [by apply list_elem_of_In|done].
Qed.

(** X13: when [structMapping] returns no error it returns one destination
    for each column, in their order: the address of the field of the
    column's name in the first entity that is not passed over.  Its error
    names a column that every entity passes over, and comes with no
    destination. *)
Theorem structMapping_destinations (qy : Query) (columns : list ColumnType)
    (structs : list sreflect.ReflectStruct) (fields : list recordBinding)
    (columnar : list ScanTarget) (err : error) :
  structMapping qy columns structs fields = Return (columnar, err) ->
  match err with
  | None => Forall2 (destination_of structs fields) columns columnar
  | Some e =>
    columnar = [] /\
    exists column columnName prefix,
      column ∈ columns /\
      split_alias (ct_Name column) = Return (columnName, prefix) /\
      Forall (passes_over columnName prefix fields) structs /\
      e = Errorf "missing destination name %q in types %v"
            (AStr (ct_Name column) :: map AStr (entityNames (entities qy)))
  end.
Proof.
  revert columnar err. induction columns as [|column columns IH];
    intros columnar err H; simpl in H.
  - simplify_eq. constructor.
  - returned H. destruct a as [columnName prefix]. returned H.
    apply structMapping_entity_first in E0. destruct a as [loc|].
    + returned H. destruct a as [columnar' err']. specialize (IH _ _ eq_refl).
      destruct err' as [e|]; simplify_eq.
      * destruct IH as (_ & c & n & p & Hin & H'). split; [done|].
        exists c, n, p. split; [by apply list_elem_of_further|done].
      * apply Forall2_cons_2; [|done].
        destruct E0 as (before & entity & after & field & Hs & Hb & Hf & Hn & Hl).
        exists columnName, prefix, before, entity, after, field, loc.
        do 6 (split; [done|]). done.
    + simplify_eq. split; [done|]. exists column, columnName, prefix.
      split; [apply list_elem_of_here|done].
Qed.

(** X14: with the statement in the cache, [structScan] does not compile:
    the number of compilations and the cache stay as they are, the hook
    gets the cached text, and an error of the driver for the cached text
    is the error returned. *)
Theorem structScan_uses_cached_statement (qy : Query) (q q' : Querier) (tx : Tx)
    (stmt : string) (args : list iface) (structs : list sreflect.ReflectStruct)
    (cached : cachedStmt) (err : error) :
  statementCache_Get (q_stmtCache q) stmt = Some cached ->
  structScan qy q tx stmt args structs = Return (err, q') ->
  unchanged_cache q q' /\
  q_hooked q' = (if hook qy then q_hooked q ++ [cs_stmt cached] else q_hooked q) /\
  forall e, tx (cs_stmt cached) args = inr e -> err = Some e.
Proof.
  intros Hget H. unfold structScan in H. returned H; [discriminate|].
  rewrite Hget in H. simpl in H. unfold query in H.
  set (q1 := if hook qy then call_hook q (cs_stmt cached) else q) in H.
  assert (Hq1 : unchanged_cache q q1 /\
                q_hooked q1 = if hook qy then q_hooked q ++ [cs_stmt cached]
                              else q_hooked q)
    by (subst q1; by destruct (hook qy)).
  destruct Hq1 as [[Hc Hs] Hh].
  destruct (tx (cs_stmt cached) args) as [rows|e] eqn:Htx.
  - assert (forall e, @inl Rows goerror rows = inr e -> err = Some e) as Hno by done.
    destruct (rows_ColumnTypes rows) as [columns [e|]]; [by simplify_eq|].
    returned H. destruct a as [columnar err']. destruct err'; [by simplify_eq|].
    destruct (scanOne rows columnar); [by simplify_eq|].
    destruct (negb (String.eqb stmt (cs_stmt cached))); [|by simplify_eq].
    simplify_eq. split; [|done]. split; [done|]. simpl.
    unfold statementCache_Set, statementCache_Get in *. rewrite Hs.
    apply insert_id. destruct cached. exact Hget.
  - simplify_eq. split; [done|]. split; [done|]. by intros e' [= ->].
Qed.

(** X15: the default scan and the map scan send the statement as it is:
    they hand it unchanged to the hook, once, and they neither compile
    nor touch the two caches. *)
Theorem plain_scans_send_the_statement_as_is (qy : Query) (q q' : Querier) (tx : Tx)
    (stmt : string) (args : list iface) (err : error) :
  (executePlan qy = Some planDefaultScan \/
   exists entity, executePlan qy = Some (planMapScan entity)) ->
  executePlan_call qy q tx stmt args = Return (err, q') ->
  unchanged_cache q q' /\
  q_reflect q' = q_reflect q /\
  q_hooked q' = (if hook qy then q_hooked q ++ [stmt] else q_hooked q).
Proof.
  intros Hplan H. unfold executePlan_call in H.
  assert (Hquery : forall res q1, query qy q tx stmt args = (res, q1) ->
    unchanged_cache q q1 /\ q_reflect q1 = q_reflect q /\
    q_hooked q1 = (if hook qy then q_hooked q ++ [stmt] else q_hooked q)).
  { unfold query. intros res q1 Hq.
    assert (q1 = if hook qy then call_hook q stmt else q) as ->.
    { destruct (tx stmt args) as [rows|e]; [|by simplify_eq].
      destruct (rows_ColumnTypes rows) as [columns [e|]]; by simplify_eq. }
    by destruct (hook qy). }
  destruct Hplan as [Hplan|[entity Hplan]]; rewrite Hplan in H.
  - unfold defaultScan in H. destruct (query qy q tx stmt args) as [res q1].
    specialize (Hquery _ _ eq_refl). destruct res as [[rows columns]|e]; [|by simplify_eq].
    returned H; [by simplify_eq|]. returned H. destruct a as [columnar err'].
    destruct err'; by simplify_eq.
  - unfold mapScan in H. destruct (query qy q tx stmt args) as [res q1].
    specialize (Hquery _ _ eq_refl). destruct res as [[rows columns]|e]; [|by simplify_eq].
    returned H. by simplify_eq.
Qed.

Lemma defaultScan_columnar_values :
  forall (columns : list ColumnType) (structs : list sreflect.ReflectInfo) columnar,
    defaultScan_columnar columns structs = Return (columnar, None) ->
    length columns = length structs ->
    Forall (fun e => exists r, e = sreflect.IsValue r) structs.
Proof.
  induction columns as [|column columns IH]; intros structs columnar H Hlen;
    simpl in H.
  - destruct structs; [done|discriminate].
  - destruct structs as [|[r|r] structs]; [discriminate| |discriminate].
    returned H. returned H. destruct a0 as [columnar' err'].
    destruct err'; [discriminate|]. apply Forall_cons_2; [by exists r|].
    eapply IH; [done|]. simpl in Hlen. lia.
Qed.

(** X16: the default scan never fills a struct: with a struct among the
    destinations of the query, whatever the driver answers, a call of
    [defaultScan] that returns returns an error. *)
Theorem defaultScan_never_fills_a_struct (qy : Query) (q q' : Querier) (tx : Tx)
    (stmt : string) (args : list iface) (err : error) (r : sreflect.ReflectStruct) :
  sreflect.IsStruct r ∈ entities qy ->
  defaultScan qy q tx stmt args = Return (err, q') ->
  is_Some err.
Proof.
  intros Hin H. unfold defaultScan in H.
  destruct (query qy q tx stmt args) as [[[rows columns]|e] q1]; [|by simplify_eq].
  destruct (negb (length columns =? length (entities qy))%nat) eqn:Hlen;
    [by simplify_eq|].
  apply negb_false_iff, Nat.eqb_eq in Hlen.
  returned H. destruct a as [columnar [e|]]; [by simplify_eq|].
  apply defaultScan_columnar_values in E; [|done].
  rewrite Forall_forall in E. destruct (E _ Hin) as [r' Hr']. discriminate.
Qed.

(** *** The expansion of the record expressions *)

Lemma substring_app_l (a b : string) :
  forall k : nat, (k <= String.length a)%nat ->
    String.substring 0 k (a +:+ b) = String.substring 0 k a.
Proof.
  induction a as [|x a IH]; intros k Hk.
  - simpl in Hk. replace k with 0%nat by lia. by destruct b.
  - destruct k as [|k]; [reflexivity|]. simpl in Hk.
    change (String x (String.substring 0 k (a +:+ b))
            = String x (String.substring 0 k a)).
    f_equal. apply IH. lia.
Qed.

Lemma substring_app_from_l (a b : string) :
  forall k : nat, (k <= String.length a)%nat ->
    String.substring k (String.length (a +:+ b) - k) (a +:+ b)
    = String.substring k (String.length a - k) a +:+ b.
Proof.
  induction a as [|x a IH]; intros k Hk.
  - simpl in Hk. replace k with 0%nat by lia.
    rewrite Nat.sub_0_r. apply substring_all.
  - destruct k as [|k].
    + rewrite !Nat.sub_0_r, !substring_all. reflexivity.
    + simpl in Hk. apply (IH k). lia.
Qed.

Lemma substring_app_r (a b : string) (k : nat) :
  String.substring 0 (String.length a + k) (a +:+ b) = a +:+ String.substring 0 k b.
Proof.
  induction a as [|x a IH]; [reflexivity|].
  change (String x (String.substring 0 (String.length a + k) (a +:+ b))
          = String x (a +:+ String.substring 0 k b)).
  by f_equal.
Qed.

Lemma substring_app_from_r (a b : string) (k : nat) :
  String.substring (String.length a + k)
    (String.length (a +:+ b) - (String.length a + k)) (a +:+ b)
  = String.substring k (String.length b - k) b.
Proof.
  rewrite length_append.
  replace (String.length a + String.length b - (String.length a + k))%nat
    with (String.length b - k)%nat by lia.
  induction a as [|x a IH]; [reflexivity|]. exact IH.
Qed.

Lemma slice_to_inv (s : string) (k : Z) (x : string) :
  slice_to s k = Return x ->
  0 <= k <= len s /\ x = String.substring 0 (Z.to_nat k) s.
Proof.
  unfold slice_to. destruct ((0 <=? k) && (k <=? len s)) eqn:Hk; [|discriminate].
  apply andb_true_iff in Hk as [Hlo%Z.leb_le Hhi%Z.leb_le]. intros Heq. by simplify_eq.
Qed.

Lemma slice_from_inv (s : string) (k : Z) (x : string) :
  slice_from s k = Return x ->
  0 <= k <= len s /\ x = String.substring (Z.to_nat k) (String.length s - Z.to_nat k) s.
Proof.
  unfold slice_from. destruct ((0 <=? k) && (k <=? len s)) eqn:Hk; [|discriminate].
  apply andb_true_iff in Hk as [Hlo%Z.leb_le Hhi%Z.leb_le]. intros Heq. by simplify_eq.
Qed.

Lemma slice_to_intro (s : string) (k : Z) :
  0 <= k <= len s -> slice_to s k = Return (String.substring 0 (Z.to_nat k) s).
Proof.
  intros [Hlo Hhi]. unfold slice_to. rewrite (proj2 (andb_true_iff _ _)); [done|].
  split; by apply Z.leb_le.
Qed.

Lemma slice_from_intro (s : string) (k : Z) :
  0 <= k <= len s ->
  slice_from s k = Return (String.substring (Z.to_nat k) (String.length s - Z.to_nat k) s).
Proof.
  intros [Hlo Hhi]. unfold slice_from. rewrite (proj2 (andb_true_iff _ _)); [done|].
  split; by apply Z.leb_le.
Qed.

Lemma len_append (a b : string) : len (a +:+ b) = len a + len b.
Proof. unfold len. rewrite length_append. lia. Qed.

Lemma slice_to_app_l (a b : string) (k : Z) (x : string) :
  slice_to a k = Return x -> slice_to (a +:+ b) k = Return x.
Proof.
  intros [Hk ->]%slice_to_inv. rewrite slice_to_intro by (rewrite len_append; unfold len in *; lia).
  f_equal. apply substring_app_l. unfold len in Hk. lia.
Qed.

Lemma slice_from_app_l (a b : string) (k : Z) (x : string) :
  slice_from a k = Return x -> slice_from (a +:+ b) k = Return (x +:+ b).
Proof.
  intros [Hk ->]%slice_from_inv.
  rewrite slice_from_intro by (rewrite len_append; unfold len in *; lia).
  f_equal. apply substring_app_from_l. unfold len in Hk. lia.
Qed.

Lemma slice_to_app_r (a b : string) (k : Z) (x : string) :
  slice_to b k = Return x -> slice_to (a +:+ b) (len a + k) = Return (a +:+ x).
Proof.
  intros [Hk ->]%slice_to_inv.
  rewrite slice_to_intro by (rewrite len_append; unfold len in *; lia).
  f_equal. unfold len. replace (Z.to_nat (Z.of_nat (String.length a) + k))
    with (String.length a + Z.to_nat k)%nat by lia.
  apply substring_app_r.
Qed.

Lemma slice_from_app_r (a b : string) (k : Z) (x : string) :
  slice_from b k = Return x -> slice_from (a +:+ b) (len a + k) = Return x.
Proof.
  intros [Hk ->]%slice_from_inv.
  rewrite slice_from_intro by (rewrite len_append; unfold len in *; lia).
  f_equal. unfold len. replace (Z.to_nat (Z.of_nat (String.length a) + k))
    with (String.length a + Z.to_nat k)%nat by lia.
  apply substring_app_from_r.
Qed.

Lemma length_substring (s : string) :
  forall n m : nat, (n + m <= String.length s)%nat ->
    String.length (String.substring n m s) = m.
Proof.
  induction s as [|a s IH]; intros n m H; simpl in H.
  - replace n with 0%nat by lia. replace m with 0%nat by lia. reflexivity.
  - destruct n as [|n].
    + destruct m as [|m]; [reflexivity|].
      change (S (String.length (String.substring 0 m s)) = S m).
      f_equal. apply IH. lia.
    + apply (IH n m). lia.
Qed.

Lemma slice_to_len (s : string) (k : Z) (x : string) :
  slice_to s k = Return x -> len x = k.
Proof.
  intros [Hk ->]%slice_to_inv. unfold len in *.
  rewrite length_substring by lia. lia.
Qed.

Lemma slice_from_len (s : string) (k : Z) (x : string) :
  slice_from s k = Return x -> len x = len s - k.
Proof.
  intros [Hk ->]%slice_from_inv. unfold len in *.
  rewrite length_substring by lia. lia.
Qed.

Lemma explicit_names_moved (record : recordBinding) (start end_ : Z)
    (entity : sreflect.ReflectStruct) (inter : gset string) :
  forall fields,
    explicit_names fields (moved record start end_) entity inter
    = explicit_names fields record entity inter.
Proof.
  induction fields as [|name fields IH]; [reflexivity|]. simpl.
  destruct (sreflect.rs_Fields entity !! name); [|done]. by rewrite IH.
Qed.

(** What [expandRecords] does for one record: it puts a list of columns
    between the text before and the text after the record expression, and
    the list is the same wherever the expression lies. *)
Lemma expandRecord_substitutes stmt offset record inter :
  forall (structs : list sreflect.ReflectStruct) s' offset',
    expandRecord stmt offset record structs inter = Return (Some (s', offset', None)) ->
    exists recordList before after,
      slice_to stmt (offset + rb_start record) = Return before /\
      slice_from stmt (offset + rb_end record) = Return after /\
      s' = before +:+ recordList +:+ after /\
      offset' = offset + translate record (len recordList) /\
      forall stmt2 offset2 start2 end2 before2 after2,
        slice_to stmt2 (offset2 + start2) = Return before2 ->
        slice_from stmt2 (offset2 + end2) = Return after2 ->
        expandRecord stmt2 offset2 (moved record start2 end2) structs inter
        = Return (Some (before2 +:+ recordList +:+ after2,
                        offset2 + (len recordList - (end2 - start2)), None)).
Proof.
  induction structs as [|entity structs IH]; intros s' offset' H; simpl in H;
    [discriminate|].
  destruct (negb (String.eqb (rb_name record) (sreflect.rs_Name entity))) eqn:Hname.
  - apply IH in H as (recordList & before & after & H1 & H2 & H3 & H4 & H5).
    exists recordList, before, after. do 4 (split; [done|]).
    intros stmt2 offset2 start2 end2 before2 after2 Hb Ha. simpl.
    rewrite Hname. by apply H5.
  - set (entityInter := default ∅ (inter !! sreflect.rs_Name entity)) in *.
    match type of H with
    | context [match ?x with inl _ => _ | inr _ => _ end] =>
      destruct x as [[|name names]|missing] eqn:Hn
    end; [by simplify_eq| |by simplify_eq].
    returned H. returned H. simplify_eq.
    exists (strings_Join (sreflect.sort_Strings (name :: names)) ", "), a, a0.
    do 4 (split; [done|]).
    intros stmt2 offset2 start2 end2 before2 after2 Hb Ha. simpl.
    rewrite Hname. fold entityInter.
    assert (Hnames2 :
      (if rb_wildcard record
       then inl (map (fun name =>
                        constructFieldNameAlias name (moved record start2 end2) entityInter)
                     (map fst (map_to_list (sreflect.rs_Fields entity))))
       else explicit_names (elements (rb_fields record)) (moved record start2 end2) entity
                           entityInter) = inl (name :: names)).
    { rewrite <- Hn. destruct (rb_wildcard record); [reflexivity|].
      by rewrite explicit_names_moved. }
    rewrite Hnames2. rewrite Hb, Ha. reflexivity.
Qed.

Lemma moved_same (record : recordBinding) :
  moved record (rb_start record) (rb_end record) = record.
Proof. by destruct record. Qed.

Lemma expandRecords_from_cons stmt offset record records
    (structs : list sreflect.ReflectStruct) inter :
  expandRecords_from stmt offset (record :: records) structs inter =
  res ← expandRecord stmt offset record structs inter;
  match res with
  | None =>
    Return ("", Some (Errorf "no entity found with the name %q" [AStr (rb_name record)]))
  | Some (_, _, Some err) => Return ("", Some err)
  | Some (stmt, offset, None) => expandRecords_from stmt offset records structs inter
  end.
Proof. reflexivity. Qed.

Lemma expandRecords_from_prefix (structs : list sreflect.ReflectStruct) inter
    (pre : string) (d n : Z) :
  d + n = len pre ->
  forall records stmt offset s,
    expandRecords_from stmt offset records structs inter = Return (s, None) ->
    expandRecords_from (pre +:+ stmt) (offset + d) (map (shift n) records) structs inter
    = Return (pre +:+ s, None).
Proof.
  intros Hdn. induction records as [|record records IH]; intros stmt offset s H;
    simpl in H.
  - by simplify_eq.
  - returned H. destruct a as [[[s1 o1] [e|]]|]; [discriminate| |discriminate].
    apply expandRecord_substitutes in E
      as (recordList & before & after & Hb & Ha & -> & -> & Hmove).
    change (map (shift n) (record :: records))
      with (shift n record :: map (shift n) records).
    rewrite expandRecords_from_cons.
    change (shift n record) with (moved record (rb_start record + n) (rb_end record + n)).
    rewrite (Hmove (pre +:+ stmt) (offset + d) (rb_start record + n) (rb_end record + n)
               (pre +:+ before) after).
    + change (Return ?x ≫= ?f) with (f x). cbv beta iota.
      apply IH in H. rewrite append_assoc.
      replace (offset + d + (len recordList - (rb_end record + n - (rb_start record + n))))
        with (offset + translate record (len recordList) + d)
        by (unfold translate; lia).
      exact H.
    + replace (offset + d + (rb_start record + n))
        with (len pre + (offset + rb_start record)) by lia.
      by apply slice_to_app_r.
    + replace (offset + d + (rb_end record + n))
        with (len pre + (offset + rb_end record)) by lia.
      by apply slice_from_app_r.
Qed.

Lemma expandRecords_from_suffix (structs : list sreflect.ReflectStruct) inter
    (post : string) (rest : list recordBinding) :
  forall records stmt offset t,
    expandRecords_from stmt offset records structs inter = Return (t, None) ->
    expandRecords_from (stmt +:+ post) offset (records ++ rest) structs inter
    = expandRecords_from (t +:+ post) (offset + (len t - len stmt)) rest structs inter.
Proof.
  induction records as [|record records IH]; intros stmt offset t H; simpl in H.
  - simplify_eq. simpl. f_equal. lia.
  - returned H. destruct a as [[[s1 o1] [e|]]|]; [discriminate| |discriminate].
    apply expandRecord_substitutes in E
      as (recordList & before & after & Hb & Ha & -> & -> & Hmove).
    change ((record :: records) ++ rest) with (record :: (records ++ rest)).
    rewrite expandRecords_from_cons.
    specialize (Hmove (stmt +:+ post) offset (rb_start record) (rb_end record)
                  before (after +:+ post)).
    rewrite moved_same in Hmove. rewrite Hmove.
    + change (Return ?x ≫= ?f) with (f x). cbv beta iota. apply IH in H.
      replace (before +:+ recordList +:+ after +:+ post)
        with ((before +:+ recordList +:+ after) +:+ post)
        by (by rewrite !append_assoc).
      replace (offset + (len recordList - (rb_end record - rb_start record)))
        with (offset + translate record (len recordList)) by (unfold translate; lia).
      rewrite H. f_equal.
      apply slice_to_len in Hb. apply slice_from_len in Ha.
      rewrite !len_append. unfold translate. lia.
    + by apply slice_to_app_l.
    + by apply slice_from_app_l.
Qed.

(** X17: [expandRecords] works on each record expression by itself and
    keeps the text between them.  When the records of a statement and
    those of another expand without error, the records of both, the
    second ones shifted by the length of the first statement, expand over
    the two statements joined to the two results joined. *)
Theorem expandRecords_concat (s1 s2 t1 t2 : string) (rs1 rs2 : list recordBinding)
    (structs : list sreflect.ReflectStruct) (inter : gmap string (gset string)) :
  expandRecords s1 rs1 structs inter = Return (t1, None) ->
  expandRecords s2 rs2 structs inter = Return (t2, None) ->
  expandRecords (s1 +:+ s2) (rs1 ++ map (shift (len s1)) rs2) structs inter
  = Return (t1 +:+ t2, None).
Proof.
  unfold expandRecords. intros H1 H2.
  rewrite (expandRecords_from_suffix _ _ _ _ _ _ _ _ H1).
  apply (expandRecords_from_prefix structs inter t1 (0 + (len t1 - len s1)) (len s1));
    [lia|done].
Qed.

Lemma expandRecord_unknown stmt offset record inter :
  forall structs : list sreflect.ReflectStruct,
    Forall (fun entity => sreflect.rs_Name entity <> rb_name record) structs ->
    expandRecord stmt offset record structs inter = Return None.
Proof.
  induction structs as [|entity structs IH]; intros H; [reflexivity|].
  apply Forall_cons in H as [Hne H]. simpl.
  rewrite (proj2 (String.eqb_neq _ _)) by done. simpl. by apply IH.
Qed.

(** X18: a record that names no entity is an error: when no entity has
    the name of the first record, [expandRecords] returns the error that
    quotes the name, and the empty statement. *)
Theorem expandRecords_unknown_entity (stmt : string) (record : recordBinding)
    (records : list recordBinding) (structs : list sreflect.ReflectStruct)
    (inter : gmap string (gset string)) :
  Forall (fun entity => sreflect.rs_Name entity <> rb_name record) structs ->
  expandRecords stmt (record :: records) structs inter
  = Return ("", Some (Errorf "no entity found with the name %q" [AStr (rb_name record)])).
Proof.
  intros H. unfold expandRecords.
  rewrite expandRecords_from_cons. by rewrite expandRecord_unknown.
Qed.

Lemma explicit_names_missing record (entity : sreflect.ReflectStruct) inter (f : string) :
  sreflect.rs_Fields entity !! f = None ->
  forall fields,
    f ∈ fields ->
    exists missing,
      missing ∈ fields /\ sreflect.rs_Fields entity !! missing = None /\
      explicit_names fields record entity inter = inr missing.
Proof.
  intros Hf. induction fields as [|name fields IH]; intros Hin.
  - by apply elem_of_nil in Hin.
  - simpl. destruct (sreflect.rs_Fields entity !! name) eqn:Hname.
    + apply elem_of_cons in Hin as [->|Hin]; [congruence|].
      destruct (IH Hin) as (missing & Hm & Hnone & ->).
      exists missing. split; [by apply list_elem_of_further|done].
    + exists name. split; [apply list_elem_of_here|done].
Qed.

(** X19: a record that lists a field its entity lacks is an error:
    [expandRecords] returns the error that quotes a field of the record
    that the first entity of its name does not have. *)
Theorem expandRecords_unknown_field (stmt : string) (record : recordBinding)
    (records : list recordBinding) (before after : list sreflect.ReflectStruct)
    (entity : sreflect.ReflectStruct) (inter : gmap string (gset string)) (f : string) :
  Forall (fun e => sreflect.rs_Name e <> rb_name record) before ->
  sreflect.rs_Name entity = rb_name record ->
  rb_wildcard record = false ->
  f ∈ rb_fields record ->
  sreflect.rs_Fields entity !! f = None ->
  exists missing,
    missing ∈ rb_fields record /\
    sreflect.rs_Fields entity !! missing = None /\
    expandRecords stmt (record :: records) (before ++ entity :: after) inter
    = Return ("", Some (Errorf "field %q not found in entity %q"
                          [AStr missing; AStr (sreflect.rs_Name entity)])).
Proof.
  intros Hbefore Hname Hwild Hin Hf.
  destruct (explicit_names_missing record entity
              (default ∅ (inter !! sreflect.rs_Name entity)) f Hf
              (elements (rb_fields record))) as (missing & Hm & Hnone & Hnames).
  { by apply elem_of_elements. }
  exists missing. split; [by apply elem_of_elements|]. split; [done|].
  unfold expandRecords. rewrite expandRecords_from_cons.
  assert (expandRecord stmt 0 record (before ++ entity :: after) inter
          = Return (Some ("", 0, Some (Errorf "field %q not found in entity %q"
                                         [AStr missing; AStr (sreflect.rs_Name entity)]))))
    as ->; [|reflexivity].
  induction before as [|e before IH]; simpl.
  - rewrite Hname, String.eqb_refl. simpl. rewrite <- Hname, Hwild, Hnames. reflexivity.
  - apply Forall_cons in Hbefore as [Hne Hbefore].
    rewrite (proj2 (String.eqb_neq _ _)) by done. simpl. by apply IH.
Qed.

Lemma expandRecord_skips stmt offset record inter (rest : list sreflect.ReflectStruct) :
  forall before : list sreflect.ReflectStruct,
    Forall (fun e => sreflect.rs_Name e <> rb_name record) before ->
    expandRecord stmt offset record (before ++ rest) inter
    = expandRecord stmt offset record rest inter.
Proof.
  induction before as [|e before IH]; intros H; [reflexivity|].
  apply Forall_cons in H as [Hne H]. simpl.
  rewrite (proj2 (String.eqb_neq _ _)) by done. simpl. by apply IH.
Qed.

Lemma expandRecord_cons stmt offset record inter (entity : sreflect.ReflectStruct)
    (rest : list sreflect.ReflectStruct) :
  expandRecord stmt offset record (entity :: rest) inter =
  if negb (String.eqb (rb_name record) (sreflect.rs_Name entity)) then
    expandRecord stmt offset record rest inter
  else
    let entityInter := default ∅ (inter !! sreflect.rs_Name entity) in
    let names :=
      if rb_wildcard record then
        inl (map (fun name => constructFieldNameAlias name record entityInter)
                 (map fst (map_to_list (sreflect.rs_Fields entity))))
      else explicit_names (elements (rb_fields record)) record entity entityInter in
    match names with
    | inr name =>
      Return (Some ("", offset, Some (Errorf "field %q not found in entity %q"
                              [AStr name; AStr (sreflect.rs_Name entity)])))
    | inl [] =>
      Return (Some ("", offset, Some (Errorf "no fields found in record %q expression"
                              [AStr (sreflect.rs_Name entity)])))
    | inl names =>
      let recordList := strings_Join (sreflect.sort_Strings names) ", " in
      before ← slice_to stmt (offset + rb_start record);
      after ← slice_from stmt (offset + rb_end record);
      Return (Some (before +:+ recordList +:+ after,
                    offset + translate record (len recordList), None))
    end.
Proof. reflexivity. Qed.

(** X29: a wildcard record with no prefix expands to the columns of its
    entity in ascending order, between the text before and the text after
    the record expression. *)
Theorem expandRecords_wildcard (pre body post : string) (record : recordBinding)
    (before after : list sreflect.ReflectStruct) (entity : sreflect.ReflectStruct)
    (inter : gmap string (gset string)) :
  Forall (fun e => sreflect.rs_Name e <> rb_name record) before ->
  sreflect.rs_Name entity = rb_name record ->
  rb_wildcard record = true ->
  rb_prefix record = "" ->
  sreflect.FieldNames entity <> [] ->
  rb_start record = len pre ->
  rb_end record = len pre + len body ->
  expandRecords (pre +:+ body +:+ post) [record] (before ++ entity :: after) inter
  = Return (pre +:+ strings_Join (sreflect.FieldNames entity) ", " +:+ post, None).
Proof.
  intros Hbefore Hname Hwild Hprefix Hfields Hstart Hend.
  unfold expandRecords.
  rewrite expandRecords_from_cons, expandRecord_skips, expandRecord_cons by done.
  rewrite Hname, String.eqb_refl, Hwild. cbv zeta. cbv iota. simpl negb. cbv iota.
  assert (Hmap : forall s,
    map (fun name => constructFieldNameAlias name record s)
        (map fst (map_to_list (sreflect.rs_Fields entity)))
    = map fst (map_to_list (sreflect.rs_Fields entity))).
  { intros s.
    rewrite <- (map_id (map fst (map_to_list (sreflect.rs_Fields entity)))) at 2.
    apply map_ext. intros name. unfold constructFieldNameAlias.
    by rewrite Hprefix. }
  rewrite Hmap. unfold sreflect.FieldNames in *.
  destruct (map fst (map_to_list (sreflect.rs_Fields entity))) as [|name names] eqn:Hkeys;
    [done|].
  rewrite Hstart, Hend, !Z.add_0_l.
  assert (Hto : slice_to (pre +:+ body +:+ post) (len pre) = Return pre).
  { rewrite <- (Z.add_0_r (len pre)).
    rewrite (slice_to_app_r pre (body +:+ post) 0 "").
    - by rewrite append_empty.
    - rewrite slice_to_intro by (unfold len; lia). by destruct (body +:+ post). }
  assert (Hpost : slice_from post 0 = Return post).
  { rewrite slice_from_intro by (unfold len; lia).
    change (Z.to_nat 0) with 0%nat. by rewrite Nat.sub_0_r, substring_all. }
  assert (Hfrom : slice_from (pre +:+ body +:+ post) (len pre + len body) = Return post).
  { apply slice_from_app_r. rewrite <- (Z.add_0_r (len body)).
    by apply slice_from_app_r. }
  rewrite Hto, Hfrom. reflexivity.
Qed.

(** *** The columns that entities share *)

Lemma add_entity_lookup (entity : sreflect.ReflectStruct) (f : string) :
  forall (names : list string) (acc : gmap string (list sreflect.ReflectStruct)),
    NoDup names ->
    foldl (fun fields field => <[field := default [] (fields !! field) ++ [entity]]> fields)
          acc names !! f
    = if decide (f ∈ names) then Some (default [] (acc !! f) ++ [entity]) else acc !! f.
Proof.
  induction names as [|x names IH]; intros acc Hnd; simpl.
  - destruct (decide (f ∈ [])) as [Hin|]; [by apply elem_of_nil in Hin|done].
  - apply NoDup_cons in Hnd as [Hx Hnd]. rewrite IH by done.
    destruct (decide (f = x)) as [->|Hne].
    + destruct (decide (x ∈ names)); [done|]. rewrite lookup_insert_eq.
      destruct (decide (x ∈ x :: names)) as [|Hn]; [done|].
      exfalso. apply Hn. apply list_elem_of_here.
    + rewrite lookup_insert_ne by done.
      destruct (decide (f ∈ names)) as [Hin|Hin];
        destruct (decide (f ∈ x :: names)) as [Hin'|Hin']; try done.
      * exfalso. apply Hin'. by apply list_elem_of_further.
      * apply elem_of_cons in Hin' as [?|?]; done.
Qed.

Lemma group_of_snoc (f : string) (structs : list sreflect.ReflectStruct)
    (entity : sreflect.ReflectStruct) :
  group_of f (structs ++ [entity])
  = if decide (has_column f entity)
    then Some (default [] (group_of f structs) ++ [entity])
    else group_of f structs.
Proof.
  unfold group_of. rewrite filter_app, filter_cons, filter_nil.
  destruct (decide (has_column f entity)).
  - destruct (filter (has_column f) structs); reflexivity.
  - by rewrite app_nil_r.
Qed.

(** The first pass files every column under the entities that have it. *)
Lemma first_pass_groups :
  forall (structs processed : list sreflect.ReflectStruct)
         (acc : gmap string (list sreflect.ReflectStruct)),
    (forall f, acc !! f = group_of f processed) ->
    forall f,
      foldl (fun fields entity =>
               foldl (fun fields field =>
                        <[field := default [] (fields !! field) ++ [entity]]> fields)
                     fields (sreflect.FieldNames entity))
            acc structs !! f
      = group_of f (processed ++ structs).
Proof.
  induction structs as [|entity structs IH]; intros processed acc Hacc f; simpl.
  - by rewrite app_nil_r.
  - replace (processed ++ entity :: structs) with ((processed ++ [entity]) ++ structs)
      by (by rewrite <- app_assoc).
    apply IH. intros g. destruct (FieldNames_keys entity) as [Hnd Hkeys].
    rewrite add_entity_lookup by done. rewrite group_of_snoc, Hacc.
    destruct (decide (g ∈ sreflect.FieldNames entity)) as [Hin|Hin];
      destruct (decide (has_column g entity)) as [Hhas|Hhas]; try done.
    + exfalso. by apply Hhas, Hkeys.
    + exfalso. by apply Hin, Hkeys.
Qed.

(** The second pass, for one column that two or more entities have. *)
Lemma add_column_lookup (f : string) :
  forall (group : list sreflect.ReflectStruct) (results : gmap string (gset string))
         (n g : string),
    g ∈ default ∅ (foldl (fun results entity =>
                             <[sreflect.rs_Name entity :=
                                 {[f]} ∪ default ∅ (results !! sreflect.rs_Name entity)]>
                               results)
                          results group !! n)
    <-> g ∈ default ∅ (results !! n) \/
        (g = f /\ exists e, e ∈ group /\ sreflect.rs_Name e = n).
Proof.
  induction group as [|entity group IH]; intros results n g; simpl.
  - split; [by left|]. intros [H|(_ & e & He & _)]; [done|by apply elem_of_nil in He].
  - rewrite IH. destruct (decide (sreflect.rs_Name entity = n)) as [<-|Hne].
    + rewrite lookup_insert_eq. simpl. rewrite elem_of_union, elem_of_singleton. split.
      * intros [[->|H]|(-> & e & He & Hn)].
        -- right. split; [done|]. exists entity. split; [apply list_elem_of_here|done].
        -- by left.
        -- right. split; [done|]. exists e. split; [by apply list_elem_of_further|done].
      * intros [H|(-> & e & He & Hn)]; [left; by right|].
        apply elem_of_cons in He as [->|He]; [left; by left|].
        right. split; [done|]. by exists e.
    + rewrite lookup_insert_ne by done. split.
      * intros [H|(-> & e & He & Hn)]; [by left|].
        right. split; [done|]. exists e. split; [by apply list_elem_of_further|done].
      * intros [H|(-> & e & He & Hn)]; [by left|].
        apply elem_of_cons in He as [->|He]; [done|].
        right. split; [done|]. by exists e.
Qed.

Lemma second_pass_columns (fields : gmap string (list sreflect.ReflectStruct))
    (n g : string) :
  g ∈ default ∅ (map_fold (fun fieldName (group : list sreflect.ReflectStruct)
                               (results : gmap string (gset string)) =>
                    if (length group <=? 1)%nat then results
                    else
                      foldl (fun results entity =>
                               <[sreflect.rs_Name entity :=
                                   {[fieldName]} ∪ default ∅ (results !! sreflect.rs_Name entity)]>
                                 results)
                            results group)
                  ∅ fields !! n)
  <-> exists group, fields !! g = Some group /\ (2 <= length group)%nat /\
                    exists e, e ∈ group /\ sreflect.rs_Name e = n.
Proof.
  revert n g. apply (map_fold_weak_ind (fun results fields => forall n g,
    g ∈ default ∅ (results !! n)
    <-> exists group : list sreflect.ReflectStruct,
          fields !! g = Some group /\ (2 <= length group)%nat /\
          exists e, e ∈ group /\ sreflect.rs_Name e = n)).
  - intros n g. rewrite lookup_empty. simpl. split; [set_solver|].
    intros (group & H & _). by rewrite lookup_empty in H.
  - intros f group m results Hnone IH n g.
    destruct (length group <=? 1)%nat eqn:Hlen.
    + apply Nat.leb_le in Hlen. rewrite IH. split.
      * intros (grp & Hg & H). exists grp. split; [|done].
        rewrite lookup_insert_ne; [done|]. intros ->. congruence.
      * intros (grp & Hg & Hl & H). destruct (decide (f = g)) as [->|Hne].
        -- rewrite lookup_insert_eq in Hg. simplify_eq. lia.
        -- rewrite lookup_insert_ne in Hg by done. by exists grp.
    + apply Nat.leb_gt in Hlen. rewrite add_column_lookup, IH. split.
      * intros [(grp & Hg & H)|(-> & e & He & Hn)].
        -- exists grp. split; [|done]. rewrite lookup_insert_ne; [done|].
           intros ->. congruence.
        -- exists group. rewrite lookup_insert_eq. split; [done|]. split; [lia|].
           by exists e.
      * intros (grp & Hg & Hl & H). destruct (decide (f = g)) as [->|Hne].
        -- rewrite lookup_insert_eq in Hg. simplify_eq. right. done.
        -- rewrite lookup_insert_ne in Hg by done. left. by exists grp.
Qed.

(** X20: [fieldIntersections] files a column under the name of an entity
    exactly when an entity of that name has the column and two or more of
    the entities have it. *)
Theorem fieldIntersections_shared_columns (structs : list sreflect.ReflectStruct)
    (name column : string) :
  column ∈ default ∅ (fieldIntersections structs !! name)
  <-> (2 <= length (filter (has_column column) structs))%nat /\
      exists entity, entity ∈ structs /\ sreflect.rs_Name entity = name /\
                     has_column column entity.
Proof.
  unfold fieldIntersections. destruct (length structs <=? 1)%nat eqn:Hlen.
  - apply Nat.leb_le in Hlen. rewrite lookup_empty. simpl. split; [set_solver|].
    intros [H _]. pose proof (length_filter (has_column column) structs). lia.
  - rewrite second_pass_columns.
    assert (Hgroups := first_pass_groups structs [] ∅).
    split.
    + intros (group & Hg & Hl & e & He & Hn).
      rewrite Hgroups in Hg; [|intros f; by rewrite lookup_empty].
      simpl in Hg. unfold group_of in Hg.
      destruct (filter (has_column column) structs) as [|x l] eqn:Hf; [discriminate|].
      simplify_eq. split; [done|]. exists e.
      rewrite <- Hf in He. apply list_elem_of_filter in He as [Hhas He]. done.
    + intros (Hl & e & He & Hn & Hhas). exists (filter (has_column column) structs).
      rewrite Hgroups; [|intros f; by rewrite lookup_empty]. simpl. unfold group_of.
      split; [|split; [done|]].
      * destruct (filter (has_column column) structs); [simpl in Hl; lia|done].
      * exists e. split; [|done]. by apply list_elem_of_filter.
Qed.

(** *** The grammar of the [db] tag *)

Lemma prefix_empty (s : string) : String.prefix "" s = true.
Proof. by destruct s. Qed.

Lemma prefix_one (c x : ascii) (s : string) :
  String.prefix (String c "") (String x s) = if ascii_dec c x then true else false.
Proof.
  change (match ascii_dec c x with left _ => String.prefix "" s | right _ => false end
          = if ascii_dec c x then true else false).
  destruct (ascii_dec c x); [apply prefix_empty|done].
Qed.

Lemma no_occurrence_one (c : ascii) (b : string) :
  forall a : string,
    no_occurrence_in (String c "") (a +:+ b) (String.length a)
    = no_occurrence_in (String c "") a (String.length a).
Proof.
  induction a as [|x a IH]; [by destruct b|].
  change (negb (String.prefix (String c "") (String x (a +:+ b))) &&
          no_occurrence_in (String c "") (a +:+ b) (String.length a)
          = negb (String.prefix (String c "") (String x a)) &&
            no_occurrence_in (String c "") a (String.length a)).
  by rewrite !prefix_one, IH.
Qed.

Lemma split_free (sep s : string) : free_of sep s -> strings_Split s sep = [s].
Proof.
  intros H. unfold strings_Split. rewrite <- (append_empty s) at 1.
  rewrite split_from_passes by (by rewrite append_empty). reflexivity.
Qed.

Lemma split_one (c : ascii) (a b : string) :
  free_of (String c "") a ->
  strings_Split (a +:+ String c "" +:+ b) (String c "")
  = a :: strings_Split b (String c "").
Proof.
  intros H. unfold strings_Split.
  rewrite split_from_passes by (by rewrite no_occurrence_one).
  by rewrite split_from_separator.
Qed.

Lemma split_from_nonempty (sep : string) :
  forall (s cur : string) (skip : nat), split_from sep s cur skip <> [].
Proof.
  induction s as [|a s IH]; intros cur skip; [done|].
  destruct skip as [|skip]; [|exact (IH cur skip)].
  rewrite split_from_cons. destruct (String.prefix sep (String a s)); [done|apply IH].
Qed.

Lemma append_not_empty (a b : string) : b <> "" -> String.eqb (a +:+ b) "" = false.
Proof.
  intros Hb. apply String.eqb_neq. destruct a; [done|]. discriminate.
Qed.

(** X1: the grammar of the [db] tag.  For a name and an option that hold
    no comma: the name alone, when it is not empty, is the column, with no
    [omitempty]; the name and the option are the column with [omitempty]
    when the option is [omitempty] in any case of letters, and the error
    that quotes the option otherwise; with a third part after a second
    comma the tag is accepted and parses to the zero tag. *)
Theorem parseTag_grammar (name option : string) :
  free_of "," name -> free_of "," option ->
  (name <> "" ->
   sreflect.parseTag name
   = ({| sreflect.rt_Name := name; sreflect.rt_OmitEmpty := false |}, None)) /\
  sreflect.parseTag (name +:+ "," +:+ option)
  = (if String.eqb (strings_ToLower option) "omitempty"
     then ({| sreflect.rt_Name := name; sreflect.rt_OmitEmpty := true |}, None)
     else (sreflect.zero_ReflectTag,
           Some (Errorf "unexpected tag value %q" [AStr option]))) /\
  forall rest,
    sreflect.parseTag (name +:+ "," +:+ option +:+ "," +:+ rest)
    = (sreflect.zero_ReflectTag, None).
Proof.
  intros Hname Hoption. unfold sreflect.parseTag. split; [|split].
  - intros Hne. rewrite (proj2 (String.eqb_neq _ _) Hne).
    by rewrite (split_free "," name).
  - rewrite append_not_empty by done.
    rewrite (split_one _ name option Hname), (split_free "," option Hoption).
    by destruct (String.eqb (strings_ToLower option) "omitempty").
  - intros rest. rewrite append_not_empty by done.
    rewrite (split_one _ name _ Hname), (split_one _ option rest Hoption).
    unfold strings_Split.
    destruct (split_from "," rest "" 0) as [|x l] eqn:Hs; [|done].
    by apply split_from_nonempty in Hs.
Qed.

(** *** The statement compiler returns *)

Lemma tokenizeRecordPath_returns (stmt : string) (offset : Z) :
  0 <= offset <= len stmt ->
  exists ast consumed err,
    tokenizeRecordPath stmt offset = Return (ast, consumed, err) /\
    (err = None -> is_Some ast).
Proof.
  intros Hoffset. unfold tokenizeRecordPath.
  destruct (slice_from_returns stmt offset Hoffset) as [rest ->]. simpl.
  destruct (NewParser_returns (parser.NewLexer rest)) as (p & -> & Hok); [done|].
  simpl. by apply Run_returns.
Qed.

Lemma parseRecordPath_total (stmt : string) (offset : Z) :
  0 <= offset <= len stmt -> returns (parseRecordPath stmt offset).
Proof.
  intros Hoffset. unfold parseRecordPath, returns.
  destruct (tokenizeRecordPath_returns stmt offset Hoffset)
    as (ast & consumed & err & -> & Hast).
  change (Return ?x ≫= ?f) with (f x). cbv beta iota.
  destruct err as [e|]; [by eexists|]. destruct (Hast eq_refl) as [exps ->].
  destruct (compileRecordPathAST (parser.QueryExpression exps)) as [paths [e|]];
    by eexists.
Qed.

Lemma selector_loop_returns stmt :
  forall (fuel : nat) (k : Z) (selector : string) (offset : Z),
    k < len stmt -> returns (selector_loop fuel stmt k selector offset).
Proof.
  induction fuel as [|fuel IH]; intros k selector offset Hk; simpl; [by eexists|].
  destruct (k >=? 0) eqn:Hk0; [|by eexists].
  destruct (byte_at_returns stmt k) as [c ->]; [lia|]. simpl.
  destruct (unicode_IsSpace c).
  - destruct (len selector >? 0); [by eexists|]. apply IH. lia.
  - destruct (unicode_IsLetter c); [|by eexists]. apply IH. lia.
Qed.

Lemma parseRecords_from_returns stmt :
  forall (fuel : nat) (i : Z) (records : list recordBinding),
    0 <= i -> len stmt - i < Z.of_nat fuel -> (0 < fuel)%nat ->
    returns (parseRecords_from fuel stmt i records).
Proof.
  induction fuel as [|fuel IH]; intros i records Hi Hfuel Hpos; [lia|].
  rewrite parseRecords_from_S. destruct (i <? len stmt) eqn:Hlt; [|by eexists].
  apply Z.ltb_lt in Hlt. destruct (byte_at_returns stmt i) as [r ->]; [lia|].
  change (Return ?x ≫= ?f) with (f x). cbv beta iota.
  destruct (negb (r =? 38)); [by eexists|].
  destruct (parseRecordPath_total stmt (i + 1)) as [[[paths consumed] err] ->]; [lia|].
  change (Return ?x ≫= ?f) with (f x). cbv beta iota.
  match goal with |- context [if ?b then _ else _] => destruct b end; [by eexists|].
  destruct (selector_loop_returns stmt (Z.to_nat i) (i - 1) "" 0) as [sel ->]; [lia|].
  change (Return ?x ≫= ?f) with (f x). cbv beta iota.
  destruct sel as [[selector offset]|]; [|by eexists].
  destruct (String.eqb _ "as"); [|by eexists]. cbv zeta.
  destruct (parseRecordPath_total stmt (0 + 1)) as [[[paths' consumed'] err'] ->]; [lia|].
  change (Return ?x ≫= ?f) with (f x). cbv beta iota.
  match goal with |- context [if ?b then _ else _] => destruct b end; [by eexists|].
  apply IH; lia.
Qed.

(** X21: [NextToken] returns on a lexer that has read its current rune.
    At the end of the input, where [char] is 0, the token is [EOF] and the
    lexer stays as it is; before the end the token is not [EOF] and at
    least one rune less remains. *)
Theorem NextToken_passes_a_rune (l : parser.Lexer) :
  lexer_ok l ->
  exists l' tok,
    parser.NextToken l = Return (l', tok) /\
    lexer_ok l' /\ parser.input l' = parser.input l /\
    if decide (parser.char l = 0)
    then l' = l /\ parser.Type_ tok = parser.EOF
    else (remaining l' < remaining l)%nat /\ parser.Type_ tok <> parser.EOF.
Proof.
  intros Hok. destruct (decide (parser.char l = 0)) as [Hc|Hc].
  - destruct (NextToken_at_eof l Hc) as (tok & -> & Htok). by exists l, tok.
  - destruct (NextToken_progress l Hok Hc) as (l' & tok & -> & Hok' & Hin & Hlt & Htok).
    by exists l', tok.
Qed.

(** X22: [parseRecordPath] returns for every offset within the statement:
    the lexer and the parser stop on every input, and [Run] returns no
    nil query expression without an error.  With an error it returns no
    path. *)
Theorem parseRecordPath_returns (stmt : string) (offset : Z) :
  0 <= offset <= len stmt ->
  exists paths consumed err,
    parseRecordPath stmt offset = Return (paths, consumed, err) /\
    (is_Some err -> paths = []).
Proof.
  intros Hoffset. unfold parseRecordPath.
  destruct (tokenizeRecordPath_returns stmt offset Hoffset)
    as (ast & consumed & err & -> & Hast).
  change (Return ?x ≫= ?f) with (f x). cbv beta iota.
  destruct err as [e|]; [by eexists _, _, _|]. destruct (Hast eq_refl) as [exps ->].
  destruct (compileRecordPathAST (parser.QueryExpression exps)) as [paths [e|]].
  - by eexists _, _, _.
  - eexists _, _, _. split; [done|]. by intros [? ?].
Qed.

(** X23: [compileStatement] returns on every statement and for every
    list of entities, and it never changes the statement: it returns the
    statement as it is with no binding, or an error. *)
Theorem compileStatement_never_panics (stmt : string)
    (structs : list sreflect.ReflectStruct) :
  compileStatement stmt structs = Return (stmt, [], None) \/
  exists err, compileStatement stmt structs = Return ("", [], Some err).
Proof.
  unfold compileStatement. destruct (indexOfRecordArgs stmt >=? 0) eqn:Hoffset;
    [|by left].
  unfold parseRecords.
  destruct (parseRecords_from_returns stmt (S (String.length stmt))
              (indexOfRecordArgs stmt) []) as [[fields err] Hp];
    [lia|unfold len; lia|lia|].
  rewrite Hp. change (Return ?x ≫= ?f) with (f x). cbv beta iota.
  destruct err as [e|]; [right; by exists e|].
  apply parseRecords_from_appends_nothing in Hp as ->. by left.
Qed.

(** *** The arguments of the driver *)

Context `{G : GoValues}.
#[local] Arguments parseNames : simpl never.

(** The names that [constructNamedArguments] binds are the bindings of
    the whole statement. *)
Lemma names_of_statement (stmt : string) :
  (if indexOfInputNamedArgs stmt >=? 0
   then parseNames stmt (indexOfInputNamedArgs stmt) else Return ([], None))
  = parseNames stmt 0.
Proof.
  destruct (indexOfInputNamedArgs_range stmt) as [H|H].
  - rewrite H. simpl. symmetry. by apply parseNames_none.
  - rewrite (proj2 (Z.geb_le _ _)) by lia. by apply parseNames_offset.
Qed.

Lemma constructNamedArguments_names (stmt : string) (args : list dyn)
    (names : list nameBinding) :
  parseNames stmt 0 = Return (names, None) ->
  constructNamedArguments stmt args =
  if (length args =? 0)%nat && (0 <? length names)%nat then
    Return ([], Some (Errorf "expected arguments for named parameters" []))
  else
    '(inputs, args, err) ←
      (if (0 <? length names)%nat && (1 <=? length args)%nat then
         match args with
         | first :: rest =>
           '(inputs, err) ← constructInputNamedArgs first names;
           Return (inputs, rest, err)
         | [] => Panic "index out of range [0] with length 0"
         end
       else Return ([], args, None));
    match err with
    | Some _ => Return ([], err)
    | None => Return (map Given args ++ map Named inputs, None)
    end.
Proof.
  intros H. unfold constructNamedArguments. rewrite names_of_statement, H. reflexivity.
Qed.

(** X24: [constructNamedArguments] on a statement with no binding hands
    the arguments on as they are; on a statement with a binding and no
    argument it returns the error that asks for arguments. *)
Theorem constructNamedArguments_without_names (stmt : string)
    (names : list nameBinding) :
  parseNames stmt 0 = Return (names, None) ->
  (names = [] ->
   forall args, constructNamedArguments stmt args = Return (map Given args, None)) /\
  (names <> [] ->
   constructNamedArguments stmt []
   = Return ([], Some (Errorf "expected arguments for named parameters" []))).
Proof.
  intros H. split.
  - intros -> args. rewrite (constructNamedArguments_names _ _ _ H). simpl.
    rewrite andb_false_r. simpl. by rewrite app_nil_r.
  - intros Hne. rewrite (constructNamedArguments_names _ _ _ H).
    destruct names; [done|]. reflexivity.
Qed.

Lemma named_of_map_all (m : gmap string dyn) :
  forall names : list nameBinding,
    Forall (fun b => is_Some (m !! nb_name b)) names ->
    exists inputs,
      named_of_map m names = inl inputs /\
      Forall2 (fun b a => na_Name a = nb_name b /\ m !! nb_name b = Some (na_Value a))
              names inputs.
Proof.
  induction names as [|b names IH]; intros H.
  - exists []. split; [done|constructor].
  - apply Forall_cons in H as [[v Hv] H]. destruct (IH H) as (inputs & Hi & Hall).
    simpl. rewrite Hv, Hi. eexists. split; [done|]. by apply Forall2_cons_2.
Qed.

Lemma named_of_map_missing (m : gmap string dyn) (b : nameBinding)
    (after : list nameBinding) :
  m !! nb_name b = None ->
  forall before : list nameBinding,
    Forall (fun b => is_Some (m !! nb_name b)) before ->
    named_of_map m (before ++ b :: after) = inr (nb_name b).
Proof.
  intros Hb. induction before as [|a before IH]; intros H; simpl.
  - by rewrite Hb.
  - apply Forall_cons in H as [[v Hv] H]. by rewrite Hv, IH.
Qed.

Lemma convertible_is_string_map (t : GoType) :
  convertible_to_map_string_interface t = true ->
  Type_Kind t = Map /\ Type_Key t = Return (TBasic String_kind).
Proof.
  unfold convertible_to_map_string_interface, Type_Key.
  induction t as [b|n e IHe|e IHe| | |k IHk e IHe|e IHe|e IHe|fs|n u IHu];
    simpl; try done.
  destruct k as [[]| | | | | | | | |]; done.
Qed.

Lemma string_map_dispatch (arg : dyn) (g : GoValue) (names : list nameBinding) :
  dyn_iface arg = Some g ->
  convertible_to_map_string_interface (TypeOf g) = true ->
  constructInputNamedArgs arg names =
  match named_of_map (dyn_entries arg) names with
  | inl nameValues => Return (nameValues, None)
  | inr missing => Return ([], Some (Errorf "key %q missing from map" [AStr missing]))
  end.
Proof.
  intros Hg Hconv. unfold constructInputNamedArgs, convertMapStringInterface.
  rewrite Hg, Hconv. cbv zeta.
  destruct (convertible_is_string_map _ Hconv) as [Hk Hkey].
  rewrite Hk, Hkey. simpl. reflexivity.
Qed.

Lemma first_argument_dispatch (stmt : string) (names : list nameBinding)
    (first : dyn) (rest : list dyn) :
  parseNames stmt 0 = Return (names, None) -> names <> [] ->
  constructNamedArguments stmt (first :: rest) =
  '(inputs, err) ← constructInputNamedArgs first names;
  match err with
  | Some _ => Return ([], err)
  | None => Return (map Given rest ++ map Named inputs, None)
  end.
Proof.
  intros H Hne. rewrite (constructNamedArguments_names _ _ _ H).
  destruct names as [|b names]; [done|]. simpl.
  destruct (constructInputNamedArgs first (b :: names)) as [[inputs err]| |]; done.
Qed.

(** X25: with a first argument whose type is [map[string]interface{}], or
    a defined type of it, and a statement with bindings,
    [constructNamedArguments] drops that argument and appends one
    [sql.NamedArg] for each binding, in the order of the bindings, with
    the value of the map at the binding's name; when the map lacks a name
    the error quotes the first binding that it lacks. *)
Theorem constructNamedArguments_from_map (stmt : string) (names : list nameBinding)
    (first : dyn) (rest : list dyn) (g : GoValue) :
  parseNames stmt 0 = Return (names, None) -> names <> [] ->
  dyn_iface first = Some g ->
  convertible_to_map_string_interface (TypeOf g) = true ->
  (Forall (fun b => is_Some (dyn_entries first !! nb_name b)) names ->
   exists inputs,
     constructNamedArguments stmt (first :: rest)
     = Return (map Given rest ++ map Named inputs, None) /\
     Forall2 (fun b a => na_Name a = nb_name b /\
                         dyn_entries first !! nb_name b = Some (na_Value a))
             names inputs) /\
  (forall before b after,
     names = before ++ b :: after ->
     Forall (fun b => is_Some (dyn_entries first !! nb_name b)) before ->
     dyn_entries first !! nb_name b = None ->
     constructNamedArguments stmt (first :: rest)
     = Return ([], Some (Errorf "key %q missing from map" [AStr (nb_name b)]))).
Proof.
  intros H Hne Hg Hconv.
  rewrite (first_argument_dispatch _ _ _ _ H Hne), (string_map_dispatch _ _ _ Hg Hconv).
  split.
  - intros Hall. destruct (named_of_map_all _ _ Hall) as (inputs & -> & Hin).
    by exists inputs.
  - intros before b after -> Hbefore Hb.
    by rewrite (named_of_map_missing _ _ _ Hb _ Hbefore).
Qed.

(** X26: when the statement has a binding, a first argument that is no
    map, no struct and no pointer to a struct is rejected with the error
    that quotes the kind of its type. *)
Theorem constructNamedArguments_unsupported (stmt : string) (names : list nameBinding)
    (first : dyn) (rest : list dyn) (g : GoValue) :
  parseNames stmt 0 = Return (names, None) -> names <> [] ->
  dyn_iface first = Some g ->
  Type_Kind (TypeOf g) <> Map ->
  Value_Kind (Indirect (ValueOf (Some g))) <> Struct ->
  constructNamedArguments stmt (first :: rest)
  = Return ([], Some (Errorf "%q not supported"
                        [AStr (Kind_String (Type_Kind (TypeOf g)))])).
Proof.
  intros H Hne Hg Hmap Hstruct.
  rewrite (first_argument_dispatch _ _ _ _ H Hne).
  unfold constructInputNamedArgs. rewrite Hg. cbv zeta.
  rewrite (bool_decide_eq_false_2 _ Hmap). simpl.
  destruct (bool_decide (Type_Kind (TypeOf g) = Array) ||
            bool_decide (Type_Kind (TypeOf g) = Slice)); [done|].
  unfold sreflect.Reflect. by rewrite (bool_decide_eq_true_2 _ Hstruct).
Qed.

Lemma named_of_struct_all (arg : dyn) (fields : gmap string sreflect.ReflectField) :
  forall names : list nameBinding,
    Forall (fun b => exists field, fields !! nb_name b = Some field /\
                                   v_ro (sreflect.rf_Value field) = false) names ->
    exists inputs,
      named_of_struct arg fields names = Return (inl inputs) /\
      Forall2 (fun b a => na_Name a = nb_name b /\
                          exists field, fields !! nb_name b = Some field /\
                                        na_Value a = dyn_field arg (sreflect.rf_Name field))
              names inputs.
Proof.
  induction names as [|b names IH]; intros H.
  - exists []. split; [done|constructor].
  - apply Forall_cons in H as [(field & Hf & Hro) H].
    destruct (IH H) as (inputs & Hi & Hall).
    simpl. rewrite Hf. unfold field_Interface. rewrite Hro. simpl. rewrite Hi. simpl.
    eexists. split; [done|]. apply Forall2_cons_2; [|done]. split; [done|].
    by exists field.
Qed.

Lemma named_of_struct_missing (arg : dyn) (fields : gmap string sreflect.ReflectField)
    (b : nameBinding) (after : list nameBinding) :
  fields !! nb_name b = None ->
  forall before : list nameBinding,
    Forall (fun b => exists field, fields !! nb_name b = Some field /\
                                   v_ro (sreflect.rf_Value field) = false) before ->
    named_of_struct arg fields (before ++ b :: after) = Return (inr (nb_name b)).
Proof.
  intros Hb. induction before as [|a before IH]; intros H; simpl.
  - by rewrite Hb.
  - apply Forall_cons in H as [(field & Hf & Hro) H].
    rewrite Hf. unfold field_Interface. rewrite Hro. simpl. by rewrite IH.
Qed.

Lemma struct_dispatch (arg : dyn) (names : list nameBinding)
    (rs : sreflect.ReflectStruct) :
  sreflect.Reflect (ValueOf (dyn_iface arg)) = Return (Some (sreflect.IsStruct rs), None) ->
  constructInputNamedArgs arg names =
  res ← named_of_struct arg (sreflect.rs_Fields rs) names;
  match res with
  | inl nameValues => Return (nameValues, None)
  | inr missing =>
    Return ([], Some (Errorf "field %q missing from type %T"
                        [AStr missing; AStr (dyn_type_text arg)]))
  end.
Proof.
  intros H. unfold constructInputNamedArgs.
  assert (Hkind : Value_Kind (Indirect (ValueOf (dyn_iface arg))) = Struct).
  { unfold sreflect.Reflect in H.
    destruct (bool_decide (Value_Kind (Indirect (ValueOf (dyn_iface arg))) <> Struct))
      eqn:Hk; [by simplify_eq|].
    apply bool_decide_eq_false in Hk.
    by destruct (decide (Value_Kind (Indirect (ValueOf (dyn_iface arg))) = Struct)). }
  destruct (dyn_iface arg) as [g|] eqn:Hg; [|discriminate]. cbv zeta.
  assert (Type_Kind (TypeOf g) = Struct \/ Type_Kind (TypeOf g) = Ptr) as Hk.
  { destruct g as [addr target|T]; [by right|]. left.
    unfold Indirect, ValueOf, Value_Kind in Hkind. simpl in Hkind.
    by destruct (Type_Kind T). }
  assert (bool_decide (Type_Kind (TypeOf g) = Map) = false) as ->
    by (apply bool_decide_eq_false; destruct Hk as [-> | ->]; done).
  assert (bool_decide (Type_Kind (TypeOf g) = Array) = false) as ->
    by (apply bool_decide_eq_false; destruct Hk as [-> | ->]; done).
  assert (bool_decide (Type_Kind (TypeOf g) = Slice) = false) as ->
    by (apply bool_decide_eq_false; destruct Hk as [-> | ->]; done).
  simpl. rewrite H. reflexivity.
Qed.

(** X27: with a first argument that reflects as a struct, and a statement
    with bindings, [constructNamedArguments] drops that argument and
    appends one [sql.NamedArg] for each binding, in their order, with the
    value of the field filed under the binding's name; when the struct
    has no field for a name the error quotes the first such binding. *)
Theorem constructNamedArguments_from_struct (stmt : string) (names : list nameBinding)
    (first : dyn) (rest : list dyn) (rs : sreflect.ReflectStruct) :
  parseNames stmt 0 = Return (names, None) -> names <> [] ->
  sreflect.Reflect (ValueOf (dyn_iface first))
  = Return (Some (sreflect.IsStruct rs), None) ->
  (Forall (fun b => exists field, sreflect.rs_Fields rs !! nb_name b = Some field /\
                                  v_ro (sreflect.rf_Value field) = false) names ->
   exists inputs,
     constructNamedArguments stmt (first :: rest)
     = Return (map Given rest ++ map Named inputs, None) /\
     Forall2 (fun b a =>
                na_Name a = nb_name b /\
                exists field, sreflect.rs_Fields rs !! nb_name b = Some field /\
                              na_Value a = dyn_field first (sreflect.rf_Name field))
             names inputs) /\
  (forall before b after,
     names = before ++ b :: after ->
     Forall (fun b => exists field, sreflect.rs_Fields rs !! nb_name b = Some field /\
                                    v_ro (sreflect.rf_Value field) = false) before ->
     sreflect.rs_Fields rs !! nb_name b = None ->
     constructNamedArguments stmt (first :: rest)
     = Return ([], Some (Errorf "field %q missing from type %T"
                           [AStr (nb_name b); AStr (dyn_type_text first)]))).
Proof.
  intros H Hne Href.
  rewrite (first_argument_dispatch _ _ _ _ H Hne), (struct_dispatch _ _ _ Href).
  split.
  - intros Hall. destruct (named_of_struct_all first _ _ Hall) as (inputs & -> & Hin).
    by exists inputs.
  - intros before b after -> Hbefore Hb.
    by rewrite (named_of_struct_missing first _ _ _ Hb _ Hbefore).
Qed.

End Properties.

(** * The properties at the inputs of the examples

    The statements below are closed: the release of Go is the one of
    [fixed_part_only], whose tables the ASCII inputs never reach. *)

Section Instances.
Import sqlair.
#[local] Existing Instance fixed_part_only.

(** C2 at the statement [?2 :b @a], read from its first byte. *)
Lemma parseNames_sorted_by_name_witness :
  0 <= 0 /\
  exists names err,
    parseNames "?2 :b @a" 0 = Return (names, err) /\ Sorted name_le names.
Proof.
  split; [lia|].
  apply (proj2 (parseNames_sorted_by_name (U := fixed_part_only))). lia.
Defined.

(** C7 as the specification states it fails: a ':' that a space follows
    gives a binding with an empty name, and so does a '?' at the end of
    the statement. *)
Lemma terminated_prefix_gives_binding :
  parseNames "WHERE a=: AND b=1" 0 = Return ([binding 58 ""], None) /\
  parseNames "WHERE a=?" 0 = Return ([binding 63 ""], None).
Proof. split; vm_compute; reflexivity. Qed.

(** C7, as amended, at a statement where a space follows the '?'. *)
Lemma bare_question_gives_no_binding_witness :
  parseNames "WHERE a=? AND b=:b" 0 = Return ([binding 58 "b"], None) /\
  (filter bare_question [binding 58 "b"] = [] \/
   (ends_in_question "WHERE a=? AND b=:b" /\
    length (filter bare_question [binding 58 "b"]) = 1%nat)).
Proof.
  assert (parseNames "WHERE a=? AND b=:b" 0 = Return ([binding 58 "b"], None)) as H
    by (vm_compute; reflexivity).
  split; [exact H|].
  exact (proj2 (bare_question_gives_no_binding (U := fixed_part_only)) _ _ _ _ H).
Defined.

(** C9 at a destination whose field has no [db] tag. *)
Lemma reflection_error_is_discarded_witness :
  reflectValues NewQuerier [examples.new 1 examples.Untagged]
  = Return ([], Some (Wrap (Errorf "unexpected empty tag" []) "reflect"), NewQuerier) /\
  ForOne NewQuerier [examples.new 1 examples.Untagged]
  = Return (zero_Query, None, NewQuerier) /\
  ForMany NewQuerier [examples.new 1 examples.Untagged]
  = Return (zero_Query, None, NewQuerier).
Proof.
  assert (reflectValues NewQuerier [examples.new 1 examples.Untagged]
          = Return ([], Some (Wrap (Errorf "unexpected empty tag" []) "reflect"),
                    NewQuerier)) as H by (vm_compute; reflexivity).
  split; [exact H|].
  exact (reflection_error_is_discarded (U := fixed_part_only) _ _ _ _ _ H).
Defined.

(** C10 at a statement that holds a '&' after [AS]. *)
Lemma parseRecords_returns_no_binding_witness :
  compileStatement "SELECT a AS &Person" [examples.entity_of 1 examples.Person]
  = Return ("SELECT a AS &Person", [], None) /\
  "SELECT a AS &Person" = "SELECT a AS &Person" /\ @nil recordBinding = [].
Proof.
  assert (compileStatement "SELECT a AS &Person" [examples.entity_of 1 examples.Person]
          = Return ("SELECT a AS &Person", [], None)) as H by (vm_compute; reflexivity).
  split; [exact H|].
  exact (proj2 (parseRecords_returns_no_binding (U := fixed_part_only)) _ _ _ _ H).
Defined.

(** C4 at the statement of the example, run into a [Person] against a
    driver that accepts it, from the state of a new querier: the call
    returns without an error, has compiled once and leaves the cache
    empty. *)
Lemma statement_compiled_at_every_call_witness :
  let person := examples.entity_of 1 examples.Person in
  let qy := new_Query NewQuerier [sreflect.IsStruct person]
              (Some (planStructScan [person])) in
  let q' := call_hook (count_compile NewQuerier) examples.cached_stmt in
  structScan qy NewQuerier examples.two_columns examples.cached_stmt [] [person]
  = Return (None, q') /\
  q_stmtCache NewQuerier !! examples.cached_stmt = None /\
  q_compiled q' = 1%nat /\ q_stmtCache q' = q_stmtCache NewQuerier.
Proof.
  intros person qy q'.
  assert (structScan qy NewQuerier examples.two_columns examples.cached_stmt [] [person]
          = Return (None, q')) as H by (vm_compute; reflexivity).
  split; [exact H|]. split; [reflexivity|].
  exact (proj1 (statement_compiled_at_every_call (U := fixed_part_only))
           _ _ _ _ _ _ _ _ H eq_refl).
Defined.

(** C6 as the specification states it fails: reflecting a struct whose
    field [ID] has no [db] tag returns the error of an empty tag, and no
    descriptor with an entry [id]. *)
Lemma absent_tag_is_an_error :
  sreflect.Reflect (ValueOf (examples.new 1 examples.Untagged))
  = Return (None, Some (Errorf "unexpected empty tag" [])).
Proof. vm_compute. reflexivity. Qed.

(** C6, as amended, at the types [Untagged], [Odd] and [Sparse]. *)
Lemma reflected_column_names_witness :
  (exists err, sreflect.Reflect (ValueOf (examples.new 1 examples.Untagged))
               = Return (None, Some err)) /\
  (exists err, sreflect.Reflect (ValueOf (examples.new 1 examples.Odd))
               = Return (None, Some err)) /\
  is_Some (sreflect.rs_Fields (examples.entity_of 1 examples.Sparse) !! "name").
Proof.
  split; [|split].
  - refine (proj1 (reflected_column_names (U := fixed_part_only)
              (ValueOf (examples.new 1 examples.Untagged)) examples.Untagged _
              eq_refl eq_refl (list_elem_of_here _ _)) eq_refl).
  - refine (proj1 (proj2 (reflected_column_names (U := fixed_part_only)
              (ValueOf (examples.new 1 examples.Odd)) examples.Odd _
              eq_refl eq_refl (list_elem_of_here _ _))) "name" "required" eq_refl _).
    vm_compute. discriminate.
  - refine (proj2 (proj2 (reflected_column_names (U := fixed_part_only)
              (ValueOf (examples.new 1 examples.Sparse)) examples.Sparse _
              eq_refl eq_refl (list_elem_of_here _ _)))
              (examples.entity_of 1 examples.Sparse) "omitempty" _ eq_refl).
    vm_compute. reflexivity.
Defined.

(** C5 as the specification states it fails: [ForOne] on a [Person]
    handed over by value panics in [mustBe]. *)
Lemma ForOne_panics_on_a_value :
  ForOne NewQuerier [Some (Val examples.Person)]
  = Panic "reflect: call of ReflectCache.Reflect on struct Value".
Proof. vm_compute. reflexivity. Qed.

(** C5, as amended, at a [Person]: by pointer and by value, the declared
    column type [VARCHAR], and the columns [age] and
    [_pfx_people_sfx_name]. *)
Lemma panics_by_design_witness :
  returns (sreflect.ReflectCache_Reflect sreflect.NewReflectCache
             (examples.new 1 examples.Person)) /\
  panics (sreflect.ReflectCache_Reflect sreflect.NewReflectCache
            (Some (Val examples.Person))) /\
  panics (zeroScanType "VARCHAR") /\
  returns (structMapping zero_Query
             [{| ct_Name := "age"; ct_DatabaseTypeName := "INTEGER" |};
              {| ct_Name := "_pfx_people_sfx_name"; ct_DatabaseTypeName := "TEXT" |}]
             [examples.entity_of 1 examples.Person]
             [{| rb_name := "Person"; rb_prefix := "people"; rb_fields := ∅;
                 rb_wildcard := true; rb_start := 7; rb_end := 29 |}]).
Proof.
  pose proof (panics_by_design (U := fixed_part_only)) as (H1 & H2 & H3 & H4).
  split; [apply H1|]. split; [apply H2; discriminate|].
  split.
  - apply H3. vm_compute. intros Hin.
    repeat (apply elem_of_cons in Hin as [Hin|Hin]; [discriminate|]).
    by apply elem_of_nil in Hin.
  - apply H4.
    + apply Forall_cons_2; [intros Hp; vm_compute in Hp; discriminate|].
      apply Forall_cons_2; [intros _; vm_compute; lia|]. apply Forall_nil_2.
    + apply Forall_cons_2; [|apply Forall_nil_2].
      apply (bool_decide_unpack _). vm_compute. exact I.
Defined.

End Instances.

(** * The further properties at the inputs of the examples *)

Section FurtherInstances.
Import sqlair.
#[local] Existing Instance fixed_part_only.

Lemma parseTag_grammar_witness :
  free_of "," "name" /\ free_of "," "OmitEmpty" /\
  sreflect.parseTag "name"
  = ({| sreflect.rt_Name := "name"; sreflect.rt_OmitEmpty := false |}, None) /\
  sreflect.parseTag "name,OmitEmpty"
  = ({| sreflect.rt_Name := "name"; sreflect.rt_OmitEmpty := true |}, None) /\
  sreflect.parseTag "name,OmitEmpty,unique" = (sreflect.zero_ReflectTag, None).
Proof.
  assert (H1 : free_of "," "name") by reflexivity.
  assert (H2 : free_of "," "OmitEmpty") by reflexivity.
  destruct (parseTag_grammar "name" "OmitEmpty" H1 H2) as (Ha & Hb & Hc).
  split; [exact H1|]. split; [exact H2|]. split; [apply Ha; discriminate|].
  split; [exact Hb|]. exact (Hc "unique").
Defined.

Lemma Reflect_keeps_last_field_of_column_witness :
  let value := ValueOf (examples.new 1 examples.Twice) in
  let rs := examples.entity_of 1 examples.Twice in
  Value_Type (Indirect value) = Return examples.Twice /\
  sreflect.Reflect value = Return (Some (sreflect.IsStruct rs), None) /\
  sreflect.rs_Name rs = "Twice" /\
  sreflect.rf_Name <$> (sreflect.rs_Fields rs !! "id") = Some "Second" /\
  sreflect.rs_Fields rs !! "name" = None.
Proof.
  intros value rs.
  assert (H1 : Value_Type (Indirect value) = Return examples.Twice) by reflexivity.
  assert (H2 : sreflect.Reflect value = Return (Some (sreflect.IsStruct rs), None))
    by (vm_compute; reflexivity).
  split; [exact H1|]. split; [exact H2|].
  destruct (Reflect_keeps_last_field_of_column value examples.Twice rs "id" H1 H2)
    as (Hname & _ & Hid).
  destruct (Reflect_keeps_last_field_of_column value examples.Twice rs "name" H1 H2)
    as (_ & _ & Hnone).
  split; [exact Hname|]. split; [by rewrite Hid|exact Hnone].
Defined.

Lemma ReflectCache_serves_first_descriptor_witness :
  let first := sreflect.IsStruct (examples.entity_of 1 examples.Person) in
  let cache := sreflect.cache_set sreflect.NewReflectCache examples.Person first in
  TypeOf (Val examples.Person) = TypeOf (Val examples.Person) /\
  sreflect.ReflectCache_Reflect sreflect.NewReflectCache (examples.new 1 examples.Person)
  = Return (first, None, cache) /\
  sreflect.ReflectCache_Reflect cache (examples.new 2 examples.Person)
  = Return (first, None, cache).
Proof.
  intros first cache.
  assert (H : sreflect.ReflectCache_Reflect sreflect.NewReflectCache
                (examples.new 1 examples.Person) = Return (first, None, cache))
    by (vm_compute; reflexivity).
  split; [reflexivity|]. split; [exact H|].
  exact (ReflectCache_serves_first_descriptor _ _ 1%nat 2%nat _ _ _ eq_refl H).
Defined.

Lemma reflectValues_one_kind_after_first_witness :
  exists entities q',
    reflectValues NewQuerier
      [examples.new 1 (TBasic Int); examples.new 2 examples.Person;
       examples.new 3 examples.Location]
    = Return (entities, None, q') /\
    length entities = 3%nat /\
    forall (i j : nat) a b,
      (1 <= i)%nat -> (1 <= j)%nat ->
      entities !! i = Some a -> entities !! j = Some b ->
      sreflect.ReflectInfo_Kind a = sreflect.ReflectInfo_Kind b.
Proof.
  eexists _, _.
  refine ((fun H => conj H (reflectValues_one_kind_after_first _ _ _ _ H)) _).
  vm_compute. reflexivity.
Defined.

Lemma ForOne_only_error_witness :
  exists q',
    ForOne NewQuerier [examples.new 1 examples.StringMap; examples.new 2 examples.StringMap]
    = Return (zero_Query,
              Some (Errorf "expected one map for query, got %d" [AInt 2]), q') /\
    (1 < 2)%nat.
Proof.
  eexists.
  refine ((fun H => conj H (proj1 (proj2 (ForOne_only_error _ _ _ _ _ H)))) _).
  vm_compute. reflexivity.
Defined.

Lemma ForMany_binds_slices_witness :
  exists qy q',
    ForMany NewQuerier [examples.new 1 (TSlice examples.Person)]
    = Return (qy, None, q') /\
    (qy = zero_Query \/
     exists refSlice,
       executePlan qy = Some (planSliceStructScan refSlice) /\
       entities qy = map (fun s => sreflect.IsValue (slice s)) refSlice /\
       length refSlice = 1%nat /\
       Forall (fun e => sreflect.ReflectInfo_Kind e = Slice) (entities qy)).
Proof.
  eexists _, _.
  refine ((fun H => conj H (ForMany_binds_slices _ _ _ _ H)) _).
  vm_compute. reflexivity.
Defined.

Lemma parseNames_without_prefix_witness :
  indexOfInputNamedArgs "SELECT name FROM people" = -1 /\
  parseNames "SELECT name FROM people" 0 = Return ([], None).
Proof.
  assert (H : indexOfInputNamedArgs "SELECT name FROM people" = -1)
    by (vm_compute; reflexivity).
  split; [exact H|]. exact (parseNames_without_prefix _ H).
Defined.

Lemma parseNames_from_first_prefix_witness :
  0 <= indexOfInputNamedArgs "SELECT * FROM people WHERE name=:name" /\
  parseNames "SELECT * FROM people WHERE name=:name" 32
  = parseNames "SELECT * FROM people WHERE name=:name" 0.
Proof.
  assert (H : 0 <= indexOfInputNamedArgs "SELECT * FROM people WHERE name=:name")
    by (vm_compute; discriminate).
  split; [exact H|]. exact (parseNames_from_first_prefix _ H).
Defined.

Lemma parseNames_bindings_well_formed_witness :
  parseNames examples.names_stmt 0
  = Return ([binding 63 "42"; binding 36 "id"; binding 58 "name"; binding 64 "table"],
            None) /\
  Forall well_formed_binding
    [binding 63 "42"; binding 36 "id"; binding 58 "name"; binding 64 "table"].
Proof.
  refine ((fun H => conj H (parseNames_bindings_well_formed _ _ _ _ H)) _).
  vm_compute. reflexivity.
Defined.

Lemma alias_round_trip_witness :
  let record := {| rb_name := "Schema"; rb_prefix := "sqlite_master"; rb_fields := ∅;
                   rb_wildcard := true; rb_start := 0; rb_end := 0 |} in
  rb_prefix record <> "" /\
  "name" ∈ ({["name"]} : gset string) /\
  no_occurrence_in AliasSeparator (rb_prefix record +:+ AliasSeparator +:+ "name")
                   (String.length (rb_prefix record)) = true /\
  strings_Split "name" AliasSeparator = ["name"] /\
  exists alias,
    constructFieldNameAlias "name" record {["name"]}
    = rb_prefix record +:+ "." +:+ "name" +:+ " AS " +:+ alias /\
    split_alias alias = Return ("name", rb_prefix record).
Proof.
  intros record.
  assert (H1 : rb_prefix record <> "") by discriminate.
  assert (H2 : "name" ∈ ({["name"]} : gset string)) by (by apply elem_of_singleton).
  assert (H3 : no_occurrence_in AliasSeparator
                 (rb_prefix record +:+ AliasSeparator +:+ "name")
                 (String.length (rb_prefix record)) = true) by reflexivity.
  assert (H4 : strings_Split "name" AliasSeparator = ["name"]) by reflexivity.
  split; [exact H1|]. split; [exact H2|]. split; [exact H3|]. split; [exact H4|].
  exact (alias_round_trip "name" record {["name"]} H1 H2 H3 H4).
Defined.

Lemma structMapping_destinations_witness :
  let person := examples.entity_of 1 examples.Person in
  let qy := new_Query NewQuerier [sreflect.IsStruct person]
              (Some (planStructScan [person])) in
  let columns := [{| ct_Name := "age"; ct_DatabaseTypeName := "INTEGER" |};
                  {| ct_Name := "name"; ct_DatabaseTypeName := "TEXT" |}] in
  structMapping qy columns [person] []
  = Return ([TargetAt (1%nat, ["Age"]); TargetAt (1%nat, ["Name"])], None) /\
  Forall2 (destination_of [person] []) columns
          [TargetAt (1%nat, ["Age"]); TargetAt (1%nat, ["Name"])].
Proof.
  intros person qy columns.
  refine ((fun H => conj H (structMapping_destinations _ _ _ _ _ None H)) _).
  vm_compute. reflexivity.
Defined.

Lemma structScan_uses_cached_statement_witness :
  let person := examples.entity_of 1 examples.Person in
  let cached := {| cs_stmt := "SELECT age, name FROM people"; cs_fields := [] |} in
  let q := set_stmtCache NewQuerier
             (statementCache_Set newStatementCache examples.cached_stmt cached) in
  let qy := new_Query q [sreflect.IsStruct person] (Some (planStructScan [person])) in
  statementCache_Get (q_stmtCache q) examples.cached_stmt = Some cached /\
  exists q',
    structScan qy q examples.two_columns examples.cached_stmt [] [person]
    = Return (None, q') /\
    unchanged_cache q q' /\
    q_hooked q' = (if hook qy then q_hooked q ++ [cs_stmt cached] else q_hooked q) /\
    forall e, examples.two_columns (cs_stmt cached) [] = inr e -> None = Some e.
Proof.
  intros person cached q qy.
  assert (Hget : statementCache_Get (q_stmtCache q) examples.cached_stmt = Some cached)
    by (vm_compute; reflexivity).
  split; [exact Hget|]. eexists.
  refine ((fun H => conj H (structScan_uses_cached_statement _ _ _ _ _ _ _ _ _ Hget H)) _).
  vm_compute. reflexivity.
Defined.

Lemma plain_scans_send_the_statement_as_is_witness :
  let qy := new_Query NewQuerier [] (Some planDefaultScan) in
  (executePlan qy = Some planDefaultScan \/
   exists entity, executePlan qy = Some (planMapScan entity)) /\
  exists err q',
    executePlan_call qy NewQuerier examples.two_columns "SELECT age, name FROM people" []
    = Return (err, q') /\
    unchanged_cache NewQuerier q' /\
    q_reflect q' = q_reflect NewQuerier /\
    q_hooked q' = (if hook qy then q_hooked NewQuerier ++ ["SELECT age, name FROM people"]
                   else q_hooked NewQuerier).
Proof.
  intros qy.
  assert (Hplan : executePlan qy = Some planDefaultScan \/
                  exists entity, executePlan qy = Some (planMapScan entity))
    by (left; reflexivity).
  split; [exact Hplan|]. eexists _, _.
  refine ((fun H => conj H (plain_scans_send_the_statement_as_is _ _ _ _ _ _ _ Hplan H)) _).
  vm_compute. reflexivity.
Defined.

Lemma defaultScan_never_fills_a_struct_witness :
  let person := examples.entity_of 1 examples.Person in
  let qy := new_Query NewQuerier [sreflect.IsStruct person] (Some planDefaultScan) in
  sreflect.IsStruct person ∈ entities qy /\
  exists q',
    defaultScan qy NewQuerier examples.one_column "SELECT name FROM people" []
    = Return (Some (Errorf "mixed entities not supported" []), q') /\
    is_Some (Some (Errorf "mixed entities not supported" [])).
Proof.
  intros person qy.
  assert (Hin : sreflect.IsStruct person ∈ entities qy) by apply list_elem_of_here.
  split; [exact Hin|]. eexists.
  refine ((fun H => conj H (defaultScan_never_fills_a_struct _ _ _ _ _ _ _ _ Hin H)) _).
  vm_compute. reflexivity.
Defined.

Lemma expandRecords_concat_witness :
  let structs := [examples.entity_of 1 examples.Person;
                  examples.entity_of 2 examples.Location] in
  let inter := fieldIntersections structs in
  let s1 := "SELECT {people.* INTO Person}" in
  let s2 := ", {location.* INTO Location} FROM people" in
  let rs1 := [{| rb_name := "Person"; rb_prefix := "people"; rb_fields := ∅;
                 rb_wildcard := true; rb_start := 7; rb_end := 29 |}] in
  let rs2 := [{| rb_name := "Location"; rb_prefix := "location"; rb_fields := ∅;
                 rb_wildcard := true; rb_start := 2; rb_end := 28 |}] in
  expandRecords s1 rs1 structs inter = Return ("SELECT people.age, people.name", None) /\
  expandRecords s2 rs2 structs inter = Return (", location.city FROM people", None) /\
  expandRecords (s1 +:+ s2) (rs1 ++ map (shift (len s1)) rs2) structs inter
  = Return ("SELECT people.age, people.name" +:+ ", location.city FROM people", None).
Proof.
  intros structs inter s1 s2 rs1 rs2.
  assert (H1 : expandRecords s1 rs1 structs inter
               = Return ("SELECT people.age, people.name", None))
    by (vm_compute; reflexivity).
  assert (H2 : expandRecords s2 rs2 structs inter
               = Return (", location.city FROM people", None))
    by (vm_compute; reflexivity).
  split; [exact H1|]. split; [exact H2|].
  exact (expandRecords_concat _ _ _ _ _ _ _ _ H1 H2).
Defined.

Lemma expandRecords_unknown_entity_witness :
  let person := examples.entity_of 1 examples.Person in
  let record := {| rb_name := "Nobody"; rb_prefix := ""; rb_fields := ∅;
                   rb_wildcard := true; rb_start := 7; rb_end := 15 |} in
  Forall (fun entity => sreflect.rs_Name entity <> rb_name record) [person] /\
  expandRecords "SELECT {Nobody} FROM people" [record] [person] ∅
  = Return ("", Some (Errorf "no entity found with the name %q" [AStr "Nobody"])).
Proof.
  intros person record.
  assert (H : Forall (fun entity => sreflect.rs_Name entity <> rb_name record) [person])
    by (apply Forall_cons_2; [vm_compute; discriminate|apply Forall_nil_2]).
  split; [exact H|]. exact (expandRecords_unknown_entity _ record [] [person] ∅ H).
Defined.

Lemma expandRecords_unknown_field_witness :
  let person := examples.entity_of 1 examples.Person in
  let record := {| rb_name := "Person"; rb_prefix := ""; rb_fields := {["email"]};
                   rb_wildcard := false; rb_start := 7; rb_end := 21 |} in
  Forall (fun e => sreflect.rs_Name e <> rb_name record) [] /\
  sreflect.rs_Name person = rb_name record /\
  rb_wildcard record = false /\
  "email" ∈ rb_fields record /\
  sreflect.rs_Fields person !! "email" = None /\
  exists missing,
    missing ∈ rb_fields record /\
    sreflect.rs_Fields person !! missing = None /\
    expandRecords "SELECT {Person.email} FROM people" [record] ([] ++ person :: []) ∅
    = Return ("", Some (Errorf "field %q not found in entity %q"
                          [AStr missing; AStr (sreflect.rs_Name person)])).
Proof.
  intros person record.
  assert (H1 : Forall (fun e => sreflect.rs_Name e <> rb_name record) [])
    by apply Forall_nil_2.
  assert (H2 : sreflect.rs_Name person = rb_name record) by (vm_compute; reflexivity).
  assert (H3 : rb_wildcard record = false) by reflexivity.
  assert (H4 : "email" ∈ rb_fields record).
  { change ("email" ∈ ({["email"]} : gset string)). by apply elem_of_singleton. }
  assert (H5 : sreflect.rs_Fields person !! "email" = None) by (vm_compute; reflexivity).
  split; [exact H1|]. split; [exact H2|]. split; [exact H3|]. split; [exact H4|].
  split; [exact H5|].
  exact (expandRecords_unknown_field _ record [] [] [] person ∅ "email" H1 H2 H3 H4 H5).
Defined.

Lemma NextToken_passes_a_rune_witness :
  let l := parser.ReadNext (parser.NewLexer "a.b") in
  lexer_ok l /\
  exists l' tok,
    parser.NextToken l = Return (l', tok) /\
    lexer_ok l' /\ parser.input l' = parser.input l /\
    if decide (parser.char l = 0)
    then l' = l /\ parser.Type_ tok = parser.EOF
    else (remaining l' < remaining l)%nat /\ parser.Type_ tok <> parser.EOF.
Proof.
  intros l.
  assert (H : lexer_ok l) by (vm_compute; repeat split; discriminate).
  split; [exact H|]. exact (NextToken_passes_a_rune l H).
Defined.

Lemma parseRecordPath_returns_witness :
  0 <= 0 <= len "Person.name" /\
  exists paths consumed err,
    parseRecordPath "Person.name" 0 = Return (paths, consumed, err) /\
    (is_Some err -> paths = []).
Proof.
  assert (H : 0 <= 0 <= len "Person.name") by (vm_compute; split; discriminate).
  split; [exact H|]. exact (parseRecordPath_returns _ _ H).
Defined.

Lemma ForOne_binds_the_first_destination_witness :
  exists qy q1,
    TypeOf (Val examples.Person) = TypeOf (Val examples.Person) /\
    ForOne NewQuerier [examples.new 1 examples.Person] = Return (qy, None, q1) /\
    qy <> zero_Query /\
    ForOne q1 [examples.new 2 examples.Person] = Return (qy, None, q1).
Proof.
  eexists _, _.
  refine ((fun H Hne =>
    conj eq_refl (conj H (conj Hne
      (ForOne_binds_the_first_destination _ _ 1%nat 2%nat _ _ _ eq_refl H Hne))))
    _ _).
  - vm_compute. reflexivity.
  - discriminate.
Defined.

Lemma expandRecords_wildcard_witness :
  let person := examples.entity_of 1 examples.Person in
  let record := {| rb_name := "Person"; rb_prefix := ""; rb_fields := ∅;
                   rb_wildcard := true; rb_start := 7; rb_end := 22 |} in
  Forall (fun e => sreflect.rs_Name e <> rb_name record) [] /\
  sreflect.rs_Name person = rb_name record /\
  rb_wildcard record = true /\
  rb_prefix record = "" /\
  sreflect.FieldNames person <> [] /\
  rb_start record = len "SELECT " /\
  rb_end record = len "SELECT " + len "{* INTO Person}" /\
  expandRecords "SELECT {* INTO Person} FROM people" [record] [person] ∅
  = Return ("SELECT age, name FROM people", None).
Proof.
  intros person record.
  assert (H1 : Forall (fun e => sreflect.rs_Name e <> rb_name record) [])
    by apply Forall_nil_2.
  assert (H2 : sreflect.rs_Name person = rb_name record) by (vm_compute; reflexivity).
  assert (H3 : rb_wildcard record = true) by reflexivity.
  assert (H4 : rb_prefix record = "") by reflexivity.
  assert (H5 : sreflect.FieldNames person <> []) by (vm_compute; discriminate).
  assert (H6 : rb_start record = len "SELECT ") by reflexivity.
  assert (H7 : rb_end record = len "SELECT " + len "{* INTO Person}") by reflexivity.
  split; [exact H1|]. split; [exact H2|]. split; [exact H3|]. split; [exact H4|].
  split; [exact H5|]. split; [exact H6|]. split; [exact H7|].
  assert (H := expandRecords_wildcard "SELECT " "{* INTO Person}" " FROM people"
                 record [] [] person ∅ H1 H2 H3 H4 H5 H6 H7).
  assert (Hnames : strings_Join (sreflect.FieldNames person) ", " = "age, name")
    by (vm_compute; reflexivity).
  rewrite Hnames in H. exact H.
Defined.

#[local] Existing Instance examples.sample_values.

Lemma constructNamedArguments_without_names_witness :
  parseNames "SELECT * FROM people WHERE id=? AND age=?;" 0 = Return ([], None) /\
  constructNamedArguments "SELECT * FROM people WHERE id=? AND age=?;"
    [examples.SInt 7; examples.SInt 42]
  = Return ([Given (examples.SInt 7); Given (examples.SInt 42)], None) /\
  parseNames examples.named_stmt 0
  = Return ([binding 58 "age"; binding 58 "name"], None) /\
  constructNamedArguments examples.named_stmt []
  = Return ([], Some (Errorf "expected arguments for named parameters" [])).
Proof.
  assert (H1 : parseNames "SELECT * FROM people WHERE id=? AND age=?;" 0
               = Return ([], None)) by (vm_compute; reflexivity).
  assert (H2 : parseNames examples.named_stmt 0
               = Return ([binding 58 "age"; binding 58 "name"], None))
    by (vm_compute; reflexivity).
  split; [exact H1|].
  split; [exact (proj1 (constructNamedArguments_without_names _ _ H1) eq_refl _)|].
  split; [exact H2|].
  apply (proj2 (constructNamedArguments_without_names _ _ H2)). discriminate.
Defined.

Lemma constructNamedArguments_from_map_witness :
  let names := [binding 58 "age"; binding 58 "name"] in
  let first := examples.SMap [("name", examples.SText "fred"); ("age", examples.SInt 42)] in
  parseNames examples.named_stmt 0 = Return (names, None) /\
  names <> [] /\
  dyn_iface first = Some (Val examples.StringMap) /\
  convertible_to_map_string_interface examples.StringMap = true /\
  Forall (fun b => is_Some (dyn_entries first !! nb_name b)) names /\
  (exists inputs,
     constructNamedArguments examples.named_stmt [first; examples.SInt 7]
     = Return (map Given [examples.SInt 7] ++ map Named inputs, None) /\
     Forall2 (fun b a => na_Name a = nb_name b /\
                         dyn_entries first !! nb_name b = Some (na_Value a))
             names inputs) /\
  constructNamedArguments examples.named_stmt [first; examples.SInt 7]
  = Return ([Given (examples.SInt 7);
             Named {| na_Name := "age"; na_Value := examples.SInt 42 |};
             Named {| na_Name := "name"; na_Value := examples.SText "fred" |}], None).
Proof.
  intros names first.
  assert (H1 : parseNames examples.named_stmt 0 = Return (names, None))
    by (vm_compute; reflexivity).
  assert (H2 : names <> []) by discriminate.
  assert (H3 : dyn_iface first = Some (Val examples.StringMap)) by reflexivity.
  assert (H4 : convertible_to_map_string_interface (TypeOf (Val examples.StringMap)) = true)
    by reflexivity.
  assert (H5 : Forall (fun b => is_Some (dyn_entries first !! nb_name b)) names).
  { apply Forall_cons_2; [by eexists|]. apply Forall_cons_2; [by eexists|].
    apply Forall_nil_2. }
  split; [exact H1|]. split; [exact H2|]. split; [exact H3|]. split; [exact H4|].
  split; [exact H5|].
  split; [exact (proj1 (constructNamedArguments_from_map _ _ _ _ _ H1 H2 H3 H4) H5)|].
  vm_compute. reflexivity.
Defined.

Lemma constructNamedArguments_unsupported_witness :
  let names := [binding 63 "1"] in
  let g := Val (TBasic Int) in
  parseNames "SELECT * FROM people WHERE id=?1" 0 = Return (names, None) /\
  names <> [] /\
  dyn_iface (examples.SInt 7) = Some g /\
  Type_Kind (TypeOf g) <> Map /\
  Value_Kind (Indirect (ValueOf (Some g))) <> Struct /\
  constructNamedArguments "SELECT * FROM people WHERE id=?1" [examples.SInt 7]
  = Return ([], Some (Errorf "%q not supported" [AStr "int"])).
Proof.
  intros names g.
  assert (H1 : parseNames "SELECT * FROM people WHERE id=?1" 0 = Return (names, None))
    by (vm_compute; reflexivity).
  assert (H2 : names <> []) by discriminate.
  assert (H3 : dyn_iface (examples.SInt 7) = Some g) by reflexivity.
  assert (H4 : Type_Kind (TypeOf g) <> Map) by discriminate.
  assert (H5 : Value_Kind (Indirect (ValueOf (Some g))) <> Struct) by discriminate.
  split; [exact H1|]. split; [exact H2|]. split; [exact H3|]. split; [exact H4|].
  split; [exact H5|].
  exact (constructNamedArguments_unsupported _ _ _ [] _ H1 H2 H3 H4 H5).
Defined.

Lemma constructNamedArguments_from_struct_witness :
  let names := [binding 58 "age"; binding 58 "name"] in
  let first := examples.SPerson "fred" 42 in
  parseNames examples.named_stmt 0 = Return (names, None) /\
  names <> [] /\
  (exists rs,
     sreflect.Reflect (ValueOf (dyn_iface first))
     = Return (Some (sreflect.IsStruct rs), None) /\
     Forall (fun b => exists field, sreflect.rs_Fields rs !! nb_name b = Some field /\
                                    v_ro (sreflect.rf_Value field) = false) names /\
     exists inputs,
       constructNamedArguments examples.named_stmt [first]
       = Return (map Given [] ++ map Named inputs, None) /\
       Forall2 (fun b a =>
                  na_Name a = nb_name b /\
                  exists field, sreflect.rs_Fields rs !! nb_name b = Some field /\
                                na_Value a = dyn_field first (sreflect.rf_Name field))
               names inputs) /\
  constructNamedArguments examples.named_stmt [first]
  = Return ([Named {| na_Name := "age"; na_Value := examples.SInt 42 |};
             Named {| na_Name := "name"; na_Value := examples.SText "fred" |}], None).
Proof.
  intros names first.
  assert (H1 : parseNames examples.named_stmt 0 = Return (names, None))
    by (vm_compute; reflexivity).
  assert (H2 : names <> []) by discriminate.
  split; [exact H1|]. split; [exact H2|]. split; [|vm_compute; reflexivity].
  eexists.
  refine ((fun H3 H5 =>
    conj H3 (conj H5 (proj1 (constructNamedArguments_from_struct _ _ _ _ _ H1 H2 H3) H5)))
    _ _).
  - vm_compute. reflexivity.
  - apply Forall_cons_2; [eexists; split; [vm_compute; reflexivity|reflexivity]|].
    apply Forall_cons_2; [eexists; split; [vm_compute; reflexivity|reflexivity]|].
    apply Forall_nil_2.
Defined.

End FurtherInstances.
